(** * knoxite: chunk read path, backend manager and store command

    A shallow embedding of the Go sources

      - [backendmanager.go]   (package knoxite, the [BackendManager]),
      - [storage_dropbox.go]  (package knoxite, the Dropbox backend),
      - the chunk decoder     (package knoxite: [decodeChunk], [loadChunk],
                               [DecodeArchiveData], [readArchiveChunk],
                               [indexOfChunk], [chunkForOffset],
                               [ReadArchive]),
      - the store command     (package main: [CmdStore.store]),

    and the properties that the specification states about them.

    Conventions.  Go's [int] and [uint] are 64 bit wide; both are embedded
    in [Z] and every arithmetic operation of the source that can leave the
    range is followed by [wrap_int] or [wrap_uint].  A Go function
    returning [(v, error)] whose value is fixed whenever the error is set
    is embedded as a [result]; one that returns meaningful data next to an
    error returns a pair with an [option error].  Calls that reach a
    storage service run in the state monad [IO] over an abstract [World].
*)

From Stdlib Require Import ZArith Lia List Permutation.
From stdpp Require Import gmap strings list pretty.
Import ListNotations.

Local Open Scope string_scope.
Local Open Scope list_scope.
Local Open Scope Z_scope.

Abbreviation bytes := (list Byte.byte).

(** ** Machine integers *)

Definition uint_modulus : Z := 2 ^ 64.
Definition int_half : Z := 2 ^ 63.

(** Reduction of a mathematical integer into Go's [uint] / [uint64]. *)
Definition wrap_uint (z : Z) : Z := z mod uint_modulus.

(** Reduction of a mathematical integer into Go's (two's complement) [int]. *)
Definition wrap_int (z : Z) : Z := (z + int_half) mod uint_modulus - int_half.

(** ** Chunks and errors *)

(** Modelled from the spec: the constants [CompressionNone]/[CompressionGZip]
    and [EncryptionNone]/[EncryptionAES] are declared outside the files at
    hand; section 3 gives them as the enumerations {None, GZip} and
    {None, AES}. *)
Inductive Compression := CompressionNone | CompressionGZip.
Inductive Encryption := EncryptionNone | EncryptionAES.

#[global] Instance Compression_eq_dec : EqDecision Compression.
Proof. solve_decision. Defined.
#[global] Instance Encryption_eq_dec : EqDecision Encryption.
Proof. solve_decision. Defined.

(** Modelled from the spec: the declaration of [Chunk] is outside the files
    at hand.  The fields are those of section 3; their integer types are
    the ones the sources force ([Num], [DataParts], [ParityParts] are
    compared with and converted from [uint]; [OriginalSize] and [Size] are
    used in [int] arithmetic).  [Data] is a pointer to the shard slice and
    may be nil. *)
Record Chunk := mkChunk {
  Data : option (list bytes);
  DataParts : Z;
  ParityParts : Z;
  OriginalSize : Z;
  Size : Z;
  DecryptedShaSum : string;
  ShaSum : string;
  Num : Z;
  Compressed : Compression;
  Encrypted : Encryption
}.

(** The error values of the three packages.  [ExternalError] stands for an
    error produced by a storage driver or a library (network, cipher,
    gzip, Reed-Solomon). *)
Inductive error :=
| ErrLoadChunkFailed
| ErrLoadSnapshotFailed
| ErrLoadRepositoryFailed
| ErrRedundancyAmount
| ErrRepositoryExists
| EOF
| ChunkError (ChunkNum : Z)
| SeekError (Offset : Z)
| CheckSumError (Method ExpectedCheckSum FoundCheckSum : string)
| DataReconstructionError (chunk : Chunk) (BlocksFound FailedBackends : Z)
| ExternalError (msg : string).

Inductive result (A : Type) :=
| Ok (a : A)
| Err (e : error).
Arguments Ok {A} a.
Arguments Err {A} e.

Definition is_Ok {A} (r : result A) : bool :=
  match r with Ok _ => true | Err _ => false end.

(** What a Go call can do besides returning: panic (with the value given
    to [panic], nil for a runtime error or [panic(nil)]), or block for ever
    on a mutex that is never released. *)
Inductive outcome (A : Type) :=
| Returned (a : A)
| Panicked (e : option error)
| Blocked.
Arguments Returned {A} a.
Arguments Panicked {A} e.
Arguments Blocked {A}.

(** [l[k]] for a Go [int] index: out of range is a run-time panic. *)
Definition go_index {A} (l : list A) (k : Z) : option A :=
  if k <? 0 then None else l !! Z.to_nat k.

(** [b[k:]]: panics unless [0 <= k <= len(b)]. *)
Definition slice_from {A} (b : list A) (k : Z) : option (list A) :=
  if (k <? 0) || (Z.of_nat (length b) <? k) then None
  else Some (drop (Z.to_nat k) b).

(** [b[:k]]: panics unless [0 <= k <= len(b)] (the capacity is the length
    here). *)
Definition slice_to {A} (b : list A) (k : Z) : option (list A) :=
  if (k <? 0) || (Z.of_nat (length b) <? k) then None
  else Some (take (Z.to_nat k) b).

(** A call that reaches a storage service or the operating system. *)
Definition IO (World A : Type) : Type := World -> A * World.

(** ** The backend contract *)

(** Modelled from the spec: the interface [Backend] is declared outside the
    files at hand; these are the operations of section 4.1 that the manager
    calls, with the signatures [StorageDropbox] gives them.  [LoadChunk]
    returns a pointer in Go; a driver returns a non-nil one whenever the
    error is nil. *)
Record Backend (World : Type) := mkBackend {
  be_LoadChunk : string -> Z -> Z -> IO World (result bytes);
  be_StoreChunk : string -> Z -> Z -> bytes -> IO World (result Z);
  be_LoadSnapshot : string -> IO World (result bytes);
  be_SaveSnapshot : string -> bytes -> IO World (option error);
  be_InitRepository : IO World (option error);
  be_LoadRepository : IO World (result bytes);
  be_SaveRepository : bytes -> IO World (option error)
}.
Arguments mkBackend {World}.
Arguments be_LoadChunk {World}.
Arguments be_StoreChunk {World}.
Arguments be_LoadSnapshot {World}.
Arguments be_SaveSnapshot {World}.
Arguments be_InitRepository {World}.
Arguments be_LoadRepository {World}.
Arguments be_SaveRepository {World}.

(** [type BackendManager struct { Backends []*Backend; lastUsedBackend int }] *)
Record BackendManager (World : Type) := mkBackendManager {
  Backends : list (Backend World);
  lastUsedBackend : Z
}.
Arguments mkBackendManager {World}.
Arguments Backends {World}.
Arguments lastUsedBackend {World}.

(** The two loop shapes of [backendmanager.go]. *)

(** [for _, be := range backend.Backends {
       b, err := call(be); if err == nil { return b, err } }
     return []byte{}, fail] *)
Fixpoint range_first_success {World A} (calls : list (IO World (result A)))
    (fail : error) : IO World (result A) :=
  match calls with
  | [] => fun w => (Err fail, w)
  | call :: rest => fun w =>
      match call w with
      | (Ok b, w') => (Ok b, w')
      | (Err _, w') => range_first_success rest fail w'
      end
  end.

(** [for _, be := range backend.Backends {
       err := call(be); if err != nil { return err } }
     return nil] *)
Fixpoint range_until_error {World} (calls : list (IO World (option error)))
    : IO World (option error) :=
  match calls with
  | [] => fun w => (None, w)
  | call :: rest => fun w =>
      match call w with
      | (Some e, w') => (Some e, w')
      | (None, w') => range_until_error rest w'
      end
  end.

Module BackendManager.
Section Methods.
Context {World : Type}.
Implicit Types (backend : BackendManager World) (chunk : Chunk).

(** [func (backend *BackendManager) AddBackend(be *Backend)] *)
Definition AddBackend backend (be : Backend World) : BackendManager World :=
  mkBackendManager (Backends backend ++ [be]) (lastUsedBackend backend).

(** [func (backend *BackendManager) LoadChunk(chunk Chunk, part uint)] *)
Definition LoadChunk backend chunk (part : Z) : IO World (result bytes) :=
  range_first_success
    (map (fun be => be_LoadChunk be (ShaSum chunk) part (DataParts chunk))
         (Backends backend))
    ErrLoadChunkFailed.

(** The body of [for i, data := range *chunk.Data] in [StoreChunk]; [i] is
    the index of the first shard of [shards], [last] the cursor.  Returns
    the cursor next to Go's [(size, err)]. *)
Fixpoint StoreChunk_range (bes : list (Backend World)) chunk (i : Z)
    (shards : list bytes) (last : Z) : IO World (outcome (Z * result Z)) :=
  match shards with
  | [] => fun w => (Returned (last, Ok (wrap_uint (Size chunk))), w)
  | data :: rest => fun w =>
      let last := wrap_int (last + 1) in
      let last :=
        if Z.of_nat (length bes) <? wrap_int (last + 1) then 0 else last in
      match go_index bes last with
      | None => (Panicked None, w)
      | Some be =>
          match be_StoreChunk be (ShaSum chunk) i (DataParts chunk) data w with
          | (Err err, w') => (Returned (last, Err err), w')
          | (Ok _, w') => StoreChunk_range bes chunk (i + 1) rest last w'
          end
      end
  end.

(** [func (backend *BackendManager) StoreChunk(chunk Chunk) (size uint64, err error)].
    The receiver is a pointer: the manager with its new cursor is returned
    next to the result. *)
Definition StoreChunk backend chunk
    : IO World (outcome (BackendManager World * result Z)) :=
  fun w =>
    match Data chunk with
    | None => (Panicked None, w)
    | Some shards =>
        match StoreChunk_range (Backends backend) chunk 0 shards
                (lastUsedBackend backend) w with
        | (Returned (last, r), w') =>
            (Returned (mkBackendManager (Backends backend) last, r), w')
        | (Panicked e, w') => (Panicked e, w')
        | (Blocked, w') => (Blocked, w')
        end
    end.

(** [func (backend *BackendManager) LoadSnapshot(id string)] *)
Definition LoadSnapshot backend (id : string) : IO World (result bytes) :=
  range_first_success
    (map (fun be => be_LoadSnapshot be id) (Backends backend))
    ErrLoadSnapshotFailed.

(** [func (backend *BackendManager) SaveSnapshot(id string, b []byte)] *)
Definition SaveSnapshot backend (id : string) (b : bytes) : IO World (option error) :=
  range_until_error (map (fun be => be_SaveSnapshot be id b) (Backends backend)).

(** [func (backend *BackendManager) InitRepository()] *)
Definition InitRepository backend : IO World (option error) :=
  range_until_error (map (fun be => be_InitRepository be) (Backends backend)).

(** [func (backend *BackendManager) LoadRepository()] *)
Definition LoadRepository backend : IO World (result bytes) :=
  range_first_success
    (map (fun be => be_LoadRepository be) (Backends backend))
    ErrLoadRepositoryFailed.

(** [func (backend *BackendManager) SaveRepository(b []byte)] *)
Definition SaveRepository backend (b : bytes) : IO World (option error) :=
  range_until_error (map (fun be => be_SaveRepository be b) (Backends backend)).

End Methods.
End BackendManager.

(** ** The Dropbox backend *)

Module StorageDropbox.

(** [dropbox.Entry]; [Bytes] (an [int64]) is the only field the driver
    reads. *)
Record Entry := mkEntry { Bytes : Z }.

(** The calls the driver makes on its [*dropbox.Dropbox] client and on the
    path helpers.  The client returns pointers to entries, which are nil
    (here [None]) when the call failed.  [Metadata path] stands for the
    call of [Metadata] in [StoreChunk], whose other arguments are
    constants; [SubDirForChunk] is declared outside the files at hand. *)
Class Client (World : Type) := {
  CreateFolder : string -> IO World (option Entry * option error);
  Metadata : string -> IO World (result Entry);
  UploadByChunk :
    bytes -> Z -> string -> bool -> string ->
    IO World (option Entry * option error);
  filepath_Join : string -> string -> string;
  SubDirForChunk : string -> string;
  strconv_FormatUint : Z -> Z -> string
}.

(** [type StorageDropbox struct]; the client [db] is the [Client] at hand. *)
Record StorageDropbox := mkStorageDropbox {
  url_Path : string;
  chunkPath : string;
  snapshotPath : string;
  repositoryPath : string
}.

Section Methods.
Context {World : Type} `{!Client World}.

(** The name under which shard [part] of [totalParts] of chunk [shasum] is
    kept: the [path] and [fileName] of [StoreChunk] and [LoadChunk]. *)
Definition chunkDir (backend : StorageDropbox) (shasum : string) : string :=
  filepath_Join (chunkPath backend) (SubDirForChunk shasum).

Definition chunkFileName (backend : StorageDropbox) (shasum : string)
    (part totalParts : Z) : string :=
  filepath_Join (chunkDir backend shasum)
    (shasum +:+ "." +:+ strconv_FormatUint part 10 +:+ "_"
       +:+ strconv_FormatUint totalParts 10).

(** [func (backend *StorageDropbox) StoreChunk(shasum string, part,
      totalParts uint, data *[]byte) (uint64, error)].  The conversion
    [int(entry.Bytes)] of an [int64] is the identity. *)
Definition StoreChunk (backend : StorageDropbox) (shasum : string)
    (part totalParts : Z) (data : bytes)
    : IO World (outcome (Z * option error)) :=
  fun w =>
    let path := chunkDir backend shasum in
    let '(_, w) := CreateFolder path w in
    let fileName := chunkFileName backend shasum part totalParts in
    let '(m, w) := Metadata fileName w in
    let stored :=
      match m with
      | Ok entry => Bytes entry =? Z.of_nat (length data)
      | Err _ => false
      end in
    if stored then (Returned (0, None), w)
    else
      let '(entry, err, w) :=
        UploadByChunk data (Z.of_nat (length data)) fileName true EmptyString w in
      match entry with
      | None => (Panicked None, w)
      | Some entry => (Returned (wrap_uint (Bytes entry), err), w)
      end.

End Methods.

(** The three fields of [QuotaInfo] in [dropbox.Account], [int64]s. *)
Record QuotaInfo := mkQuotaInfo { Quota : Z; Shared : Z; Normal : Z }.

(** The calls on the client that read.  [Download path] stands for the call
    of [Download] in the driver, whose other arguments are constants, and
    returns the stream to read from; [ReadAll] is [ioutil.ReadAll] on that
    stream, which returns what it has read next to its error. *)
Class Reads (World : Type) := {
  Stream : Type;
  Download : string -> IO World (result Stream);
  ReadAll : Stream -> IO World (bytes * option error);
  GetAccountInfo : IO World (result QuotaInfo)
}.

Section MoreMethods.
Context {World : Type} `{!Client World} `{!Reads World}.

(** [func (backend *StorageDropbox) AvailableSpace() (uint64, error)] *)
Definition AvailableSpace (backend : StorageDropbox) : IO World (Z * option error) :=
  fun w =>
    match GetAccountInfo w with
    | (Err err, w) => ((0, Some err), w)
    | (Ok info, w) =>
        ((wrap_uint (wrap_int (wrap_int (Quota info - Shared info) - Normal info)),
          None), w)
    end.

(** [func (backend *StorageDropbox) LoadChunk(shasum string, part,
      totalParts uint) ( *[]byte, error)]; the pointer returned is nil
    (here [None]) when the download fails. *)
Definition LoadChunk (backend : StorageDropbox) (shasum : string)
    (part totalParts : Z) : IO World (option bytes * option error) :=
  fun w =>
    let fileName := chunkFileName backend shasum part totalParts in
    match Download fileName w with
    | (Err err, w) => ((None, Some err), w)
    | (Ok obj, w) =>
        let '((data, err), w) := ReadAll obj w in
        ((Some data, err), w)
    end.

(** [func (backend *StorageDropbox) LoadSnapshot(id string) ([]byte, error)] *)
Definition LoadSnapshot (backend : StorageDropbox) (id : string)
    : IO World (bytes * option error) :=
  fun w =>
    let path := filepath_Join (snapshotPath backend) id in
    match Download path w with
    | (Err err, w) => (([], Some err), w)
    | (Ok obj, w) => ReadAll obj w
    end.

(** [func (backend *StorageDropbox) SaveSnapshot(id string, data []byte) error] *)
Definition SaveSnapshot (backend : StorageDropbox) (id : string) (data : bytes)
    : IO World (option error) :=
  fun w =>
    let path := filepath_Join (snapshotPath backend) id in
    let '(_, err, w) :=
      UploadByChunk data (Z.of_nat (length data)) path true EmptyString w in
    (err, w).

(** [func (backend *StorageDropbox) InitRepository() error] *)
Definition InitRepository (backend : StorageDropbox) : IO World (option error) :=
  fun w =>
    match CreateFolder (url_Path backend) w with
    | (_, Some _, w) => (Some ErrRepositoryExists, w)
    | (_, None, w) =>
        match CreateFolder (snapshotPath backend) w with
        | (_, Some _, w) => (Some ErrRepositoryExists, w)
        | (_, None, w) =>
            match CreateFolder (chunkPath backend) w with
            | (_, Some _, w) => (Some ErrRepositoryExists, w)
            | (_, None, w) => (None, w)
            end
        end
    end.

(** [func (backend *StorageDropbox) LoadRepository() ([]byte, error)] *)
Definition LoadRepository (backend : StorageDropbox)
    : IO World (bytes * option error) :=
  fun w =>
    match Download (repositoryPath backend) w with
    | (Err err, w) => (([], Some err), w)
    | (Ok obj, w) => ReadAll obj w
    end.

(** [func (backend *StorageDropbox) SaveRepository(data []byte) error] *)
Definition SaveRepository (backend : StorageDropbox) (data : bytes)
    : IO World (option error) :=
  fun w =>
    let '(_, err, w) :=
      UploadByChunk data (Z.of_nat (length data)) (repositoryPath backend) true
        EmptyString w in
    (err, w).

End MoreMethods.
End StorageDropbox.

(** ** The chunk decoder *)

(** The library calls of the decoder: SHA-256 in hex, the repository's
    [Decrypt] (declared outside the files at hand), gzip and the
    Reed-Solomon coder.  [rs_Reconstruct] returns the shards as the call
    leaves them; [rs_Join] returns the bytes written when it succeeds. *)
Class Codecs := {
  sha256_hex : bytes -> string;
  Decrypt : bytes -> string -> result bytes;
  gzip_Reader : Type;
  gzip_NewReader : bytes -> result gzip_Reader;
  ioutil_ReadAll : gzip_Reader -> result bytes;
  rs_Encoder : Type;
  reedsolomon_New : Z -> Z -> result rs_Encoder;
  rs_Reconstruct :
    rs_Encoder -> list (option bytes) -> list (option bytes) * option error;
  rs_Join : rs_Encoder -> list (option bytes) -> Z -> result bytes
}.

(** Modelled from the spec: [Repository] is declared outside the files at
    hand; these are the two fields the decoder reads. *)
Record Repository (World : Type) := mkRepository {
  Repository_Backend : BackendManager World;
  Password : string
}.
Arguments mkRepository {World}.
Arguments Repository_Backend {World}.
Arguments Password {World}.

(** Modelled from the spec: [ItemData] is declared outside the files at
    hand; section 3 gives its fields, of which the readers use the type
    and the chunk list. *)
Inductive ItemType := File | Directory | SymLink.

#[global] Instance ItemType_eq_dec : EqDecision ItemType.
Proof. solve_decision. Defined.

Record ItemData := mkItemData {
  Path : string;
  Type_ : ItemType;
  Chunks : list Chunk
}.

(** Modelled from the spec: [Stats] is declared outside the files at hand;
    the counters are [uint64]. *)
Record Stats := mkStats {
  Stats_Files : Z;
  Stats_Dirs : Z;
  Stats_SymLinks : Z;
  Stats_Size : Z;
  Stats_StorageSize : Z
}.

(** The package variables [cache] and [mutex], and the world behind the
    backends. *)
Record State (World : Type) := mkState {
  cache : gmap string bytes;
  mutex_locked : bool;
  world : World
}.
Arguments mkState {World}.
Arguments cache {World}.
Arguments mutex_locked {World}.
Arguments world {World}.

Section Decoder.
Context {World : Type} `{!Codecs}.
Implicit Types (repository : Repository World) (chunk : Chunk) (arc : ItemData).

(** [func decodeChunk(repository Repository, chunk Chunk, finalData []byte)] *)
Definition decodeChunk repository chunk (finalData : bytes) : result bytes :=
  match
    (if decide (Encrypted chunk = EncryptionAES)
     then Decrypt finalData (Password repository)
     else Ok finalData)
  with
  | Err err => Err err
  | Ok finalData =>
      match
        (if decide (Compressed chunk = CompressionGZip)
         then match gzip_NewReader finalData with
              | Err err => Err err
              | Ok zipreader => ioutil_ReadAll zipreader
              end
         else Ok finalData)
      with
      | Err err => Err err
      | Ok finalData =>
          let shasum := sha256_hex finalData in
          if decide (DecryptedShaSum chunk = shasum) then Ok finalData
          else Err (CheckSumError "sha256" (DecryptedShaSum chunk) shasum)
      end
  end.

(** The loop [for i := 0; i < int(chunk.DataParts+chunk.ParityParts); i++]
    of [loadChunk], with [n] iterations left. *)
Fixpoint loadChunk_loop (n : nat) (i : Z) (enc : rs_Encoder) repository chunk
    (pars : list (option bytes)) (parsFound parsMissing : Z)
    : IO World (result bytes) :=
  match n with
  | O => fun w =>
      (Err (DataReconstructionError chunk parsFound
              (wrap_uint (DataParts chunk - parsFound))), w)
  | S n' => fun w =>
      match BackendManager.LoadChunk (Repository_Backend repository) chunk
              (wrap_uint i) w with
      | (Err cerr, w) =>
          loadChunk_loop n' (i + 1) enc repository chunk
            (<[Z.to_nat i := None]> pars) parsFound
            (wrap_int (parsMissing + 1)) w
      | (Ok b, w) =>
          let pars := <[Z.to_nat i := Some b]> pars in
          let parsFound := wrap_uint (parsFound + 1) in
          if DataParts chunk <=? parsFound then
            let '(pars, err) :=
              if 0 <? parsMissing then rs_Reconstruct enc pars
              else (pars, None) in
            match err with
            | Some _ =>
                loadChunk_loop n' (i + 1) enc repository chunk pars
                  parsFound parsMissing w
            | None =>
                match rs_Join enc pars (Size chunk) with
                | Err _ =>
                    loadChunk_loop n' (i + 1) enc repository chunk pars
                      parsFound parsMissing w
                | Ok b => (decodeChunk repository chunk b, w)
                end
            end
          else
            loadChunk_loop n' (i + 1) enc repository chunk pars
              parsFound parsMissing w
      end
  end.

(** [func loadChunk(repository Repository, chunk Chunk) ([]byte, error)].
    [make] panics on a length that is negative as an [int]; limits of
    memory are not part of the model. *)
Definition loadChunk repository chunk : IO World (outcome (result bytes)) :=
  fun w =>
    if 0 <? ParityParts chunk then
      match reedsolomon_New (wrap_int (DataParts chunk))
              (wrap_int (ParityParts chunk)) with
      | Err err => (Returned (Err err), w)
      | Ok enc =>
          let total := wrap_uint (DataParts chunk + ParityParts chunk) in
          if wrap_int total <? 0 then (Panicked None, w)
          else
            let '(r, w) :=
              loadChunk_loop (Z.to_nat (wrap_int total)) 0 enc repository
                chunk (replicate (Z.to_nat total) None) 0 0 w in
            (Returned r, w)
      end
    else
      match BackendManager.LoadChunk (Repository_Backend repository) chunk 0 w with
      | (Err err, w) => (Returned (Err err), w)
      | (Ok data, w) => (Returned (decodeChunk repository chunk data), w)
      end.

(** [func indexOfChunk(arc ItemData, chunkNum uint) (int, error)] *)
Fixpoint indexOfChunk_range (chunks : list Chunk) (i : Z) (chunkNum : Z)
    : result Z :=
  match chunks with
  | [] => Err (ChunkError chunkNum)
  | chunk :: rest =>
      if Num chunk =? chunkNum then Ok i
      else indexOfChunk_range rest (i + 1) chunkNum
  end.

Definition indexOfChunk arc (chunkNum : Z) : result Z :=
  indexOfChunk_range (Chunks arc) 0 chunkNum.

(** The loop of [DecodeArchiveData], with [n] iterations left.  The line
    printed on a cache hit is not part of the model. *)
Fixpoint DecodeArchiveData_loop (n : nat) (i : Z) repository arc
    (dat : bytes) (stats : Stats) (st : State World)
    : outcome ((bytes * Stats * option error) * State World) :=
  match n with
  | O =>
      Returned
        ((dat,
          mkStats (wrap_uint (Stats_Files stats + 1)) (Stats_Dirs stats)
            (Stats_SymLinks stats) (Stats_Size stats) (Stats_StorageSize stats),
          None), st)
  | S n' =>
      match indexOfChunk arc i with
      | Err err => Returned ((dat, stats, Some err), st)
      | Ok idx =>
          match go_index (Chunks arc) idx with
          | None => Panicked None
          | Some chunk =>
              if mutex_locked st then Blocked
              else
                let after (dat : bytes) (st : State World) :=
                  let n := wrap_uint (Z.of_nat (length dat)) in
                  DecodeArchiveData_loop n' (wrap_uint (i + 1)) repository arc dat
                    (mkStats (Stats_Files stats) (Stats_Dirs stats)
                       (Stats_SymLinks stats)
                       (wrap_uint (Stats_Size stats + n))
                       (wrap_uint (Stats_StorageSize stats + n)))
                    st in
                match cache st !! ShaSum chunk with
                | Some cacheData =>
                    after (dat ++ cacheData) (mkState (cache st) false (world st))
                | None =>
                    match loadChunk repository chunk (world st) with
                    | (Returned (Err err), w) =>
                        Returned ((dat, stats, Some err), mkState (cache st) true w)
                    | (Returned (Ok finalData), w) =>
                        after (dat ++ finalData)
                          (mkState (<[ShaSum chunk := finalData]> (cache st)) false w)
                    | (Panicked e, _) => Panicked e
                    | (Blocked, _) => Blocked
                    end
                end
          end
      end
  end.

(** [func DecodeArchiveData(repository Repository, arc ItemData)
      (dat []byte, stats Stats, err error)] *)
Definition DecodeArchiveData repository arc (st : State World)
    : outcome ((bytes * Stats * option error) * State World) :=
  if decide (Type_ arc = File) then
    DecodeArchiveData_loop (length (Chunks arc)) 0 repository arc []
      (mkStats 0 0 0 0 0) st
  else Returned (([], mkStats 0 0 0 0 0, None), st).

(** [func readArchiveChunk(repository Repository, arc ItemData, chunkNum uint)
      (dat *[]byte, err error)] *)
Definition readArchiveChunk repository arc (chunkNum : Z) (st : State World)
    : outcome ((bytes * option error) * State World) :=
  match indexOfChunk arc chunkNum with
  | Err err => Returned (([], Some err), st)
  | Ok idx =>
      match go_index (Chunks arc) idx with
      | None => Panicked None
      | Some chunk =>
          if mutex_locked st then Blocked
          else
            match cache st !! ShaSum chunk with
            | Some cacheData =>
                Returned (([] ++ cacheData, None),
                          mkState (cache st) false (world st))
            | None =>
                match loadChunk repository chunk (world st) with
                | (Returned (Err err), w) =>
                    Returned (([], Some err), mkState (cache st) true w)
                | (Returned (Ok finalData), w) =>
                    Returned (([] ++ finalData, None),
                              mkState (<[ShaSum chunk := finalData]> (cache st))
                                false w)
                | (Panicked e, _) => Panicked e
                | (Blocked, _) => Blocked
                end
            end
      end
  end.

(** The loop of [chunkForOffset], with [n] iterations left. *)
Fixpoint chunkForOffset_loop (n : nat) (i : Z) arc (offset size : Z)
    : outcome (result (Z * Z)) :=
  match n with
  | O => Returned (Err EOF)
  | S n' =>
      match indexOfChunk arc (wrap_uint i) with
      | Err _ => Returned (Err (SeekError offset))
      | Ok idx =>
          match go_index (Chunks arc) idx with
          | None => Panicked None
          | Some chunk =>
              if offset <? wrap_int (size + OriginalSize chunk) then
                let internalOffset := wrap_int (offset - size) in
                Returned (Ok (Num chunk, internalOffset))
              else
                chunkForOffset_loop n' (i + 1) arc offset
                  (wrap_int (size + OriginalSize chunk))
          end
      end
  end.

(** [func chunkForOffset(arc ItemData, offset int) (uint, int, error)] *)
Definition chunkForOffset arc (offset : Z) : outcome (result (Z * Z)) :=
  chunkForOffset_loop (length (Chunks arc)) 0 arc offset 0.

(** The loop [for len( *dat) < size] of [ReadArchive].  Every iteration that
    does not panic appends at least one byte, so [fuel] bounds the number
    of iterations; [None] is "out of fuel". *)
Fixpoint ReadArchive_loop (fuel : nat) repository arc (size : Z)
    (neededPart internalOffset : Z) (dat : bytes) (st : State World)
    : option (outcome ((bytes * option error) * State World)) :=
  if Z.of_nat (length dat) <? size then
    match fuel with
    | O => None
    | S fuel' =>
        match readArchiveChunk repository arc neededPart st with
        | Panicked e => Some (Panicked e)
        | Blocked => Some Blocked
        | Returned ((b, err), st) =>
            if bool_decide (err <> None) || (Z.of_nat (length b) =? 0)
            then Some (Panicked err)
            else
              match slice_from b internalOffset with
              | None => Some (Panicked None)
              | Some d =>
                  if bool_decide (err <> None) || (Z.of_nat (length d) =? 0)
                  then Some (Panicked err)
                  else
                    let room := size - Z.of_nat (length dat) in
                    let piece :=
                      if size <? Z.of_nat (length d) + Z.of_nat (length dat)
                      then slice_to d room
                      else Some d in
                    match piece with
                    | None => Some (Panicked None)
                    | Some piece =>
                        ReadArchive_loop fuel' repository arc size
                          (wrap_uint (neededPart + 1)) 0 (dat ++ piece) st
                    end
              end
        end
    end
  else Some (Returned ((dat, None), st)).

(** [func ReadArchive(repository Repository, arc ItemData, offset int,
      size int) (dat *[]byte, err error)].  The state returned is the one
    at the [return]; the read-ahead started just before it runs
    [readArchiveChunk] on its own later. *)
Definition ReadArchive repository arc (offset size : Z) (st : State World)
    : option (outcome ((bytes * option error) * State World)) :=
  if decide (Type_ arc = File) then
    match chunkForOffset arc offset with
    | Panicked e => Some (Panicked e)
    | Blocked => Some Blocked
    | Returned (Err err) => Some (Returned (([], Some err), st))
    | Returned (Ok (neededPart, internalOffset)) =>
        ReadArchive_loop (Z.to_nat size) repository arc size neededPart
          internalOffset [] st
    end
  else Some (Returned (([], None), st)).

End Decoder.

(** ** Restoring an archive to disk *)

(** Modelled from the spec and from the uses in [DecodeArchive]: the
    fields of the Go struct [ItemData] that only the restore reads.
    [Mode] is an [os.FileMode], [ModTime] a [time.Time] (an instant),
    [UID] and [GID] are [uint32], [StorageSize] is a [uint64]. *)
Record ItemMeta := mkItemMeta {
  Mode : Z;
  ModTime : Z;
  UID : Z;
  GID : Z;
  PointsTo : string;
  StorageSize : Z
}.

(** Modelled from the uses in [DecodeArchive]: [Progress] is declared
    outside the files at hand; the sizes are [uint64]. *)
Record Progress := mkProgress {
  Progress_Path : string;
  Progress_Size : Z;
  Progress_StorageSize : Z;
  Progress_Statistics : Stats
}.

(** The calls of [os], [path/filepath] and of the progress channel that
    [DecodeArchive] makes.  [chan_send prog] is [progress <- prog]: it
    returns when the value has been received, panics on a closed channel
    and blocks for ever on a nil channel or without a receiver. *)
Class FileSystem (World : Type) := {
  os_File : Type;
  os_O_CREATE : Z;
  os_O_WRONLY : Z;
  os_MkdirAll : string -> Z -> IO World (option error);
  os_Symlink : string -> string -> IO World (option error);
  os_OpenFile : string -> Z -> Z -> IO World (result os_File);
  File_Write : os_File -> bytes -> IO World (Z * option error);
  File_Sync : os_File -> IO World (option error);
  File_Close : os_File -> IO World (option error);
  os_Chtimes : string -> Z -> Z -> IO World (option error);
  os_Lchown : string -> Z -> Z -> IO World (option error);
  filepath_Dir : string -> string;
  chan_send : Progress -> IO World (outcome unit)
}.

Section Restore.
Context {World : Type} `{!Codecs} `{!FileSystem World}.
Implicit Types (repository : Repository World) (chunk : Chunk) (arc : ItemData).

(** [prog.Statistics.Size += uint64(len(data)); prog.Size += uint64(len(data))] *)
Definition add_size (prog : Progress) (data : bytes) : Progress :=
  let n := wrap_uint (Z.of_nat (length data)) in
  let stats := Progress_Statistics prog in
  mkProgress (Progress_Path prog) (wrap_uint (Progress_Size prog + n))
    (Progress_StorageSize prog)
    (mkStats (Stats_Files stats) (Stats_Dirs stats) (Stats_SymLinks stats)
       (wrap_uint (Stats_Size stats + n)) (Stats_StorageSize stats)).

(** The loop [for i := uint(0); i < parts; i++] of [DecodeArchive], with
    [n] iterations left.  It returns [Some err] where the Go loop returns
    [err] from the function, and [None] when the loop is left. *)
Fixpoint DecodeArchive_loop (n : nat) (i : Z) repository arc (f : os_File)
    (prog : Progress) : IO World (outcome (option error)) :=
  match n with
  | O => fun w => (Returned None, w)
  | S n' => fun w =>
      match indexOfChunk arc i with
      | Err erri => (Returned (Some erri), w)
      | Ok idx =>
          match go_index (Chunks arc) idx with
          | None => (Panicked None, w)
          | Some chunk =>
              match loadChunk repository chunk w with
              | (Returned (Err errc), w) => (Returned (Some errc), w)
              | (Returned (Ok data), w) =>
                  match File_Write f data w with
                  | ((_, Some err), w) => (Returned (Some err), w)
                  | ((_, None), w) =>
                      let prog := add_size prog data in
                      match chan_send prog w with
                      | (Returned _, w) =>
                          DecodeArchive_loop n' (wrap_uint (i + 1)) repository
                            arc f prog w
                      | (Panicked e, w) => (Panicked e, w)
                      | (Blocked, w) => (Blocked, w)
                      end
                  end
              | (Panicked e, w) => (Panicked e, w)
              | (Blocked, w) => (Blocked, w)
              end
          end
      end
  end.

(** [func DecodeArchive(progress chan Progress, repository Repository,
      arc ItemData, path string) error].  The record [item] holds the
    fields of [arc] that [ItemData] leaves out, the channel is in the
    world.  For a directory and a symbolic link the Go code counts the
    entry in [prog], which it then drops; [0755] is 493. *)
Definition DecodeArchive repository arc (item : ItemMeta) (path : string)
    : IO World (outcome (option error)) :=
  fun w =>
    let Lchown w :=
      let '(err, w) := os_Lchown path (UID item) (GID item) w in
      (Returned err, w) in
    match Type_ arc with
    | Directory =>
        let '(_, w) := os_MkdirAll path (Mode item) w in
        Lchown w
    | SymLink =>
        let '(_, w) := os_Symlink (PointsTo item) path w in
        Lchown w
    | File =>
        let prog :=
          mkProgress (Path arc) 0 (StorageSize item)
            (mkStats (wrap_uint (0 + 1)) 0 0 0 (StorageSize item)) in
        let '(_, w) := os_MkdirAll (filepath_Dir path) 493 w in
        match os_OpenFile path (Z.lor os_O_CREATE os_O_WRONLY) (Mode item) w with
        | (Err err, w) => (Returned (Some err), w)
        | (Ok f, w) =>
            match DecodeArchive_loop (length (Chunks arc)) 0 repository arc f
                    prog w with
            | (Returned None, w) =>
                let '(_, w) := File_Sync f w in
                let '(_, w) := File_Close f w in
                match os_Chtimes path (ModTime item) (ModTime item) w with
                | (Some err, w) => (Returned (Some err), w)
                | (None, w) => Lchown w
                end
            | (other, w) => (other, w)
            end
        end
    end.

End Restore.

(** ** The store command *)

Module CmdStore.

(** [type CmdStore struct]; [FailureTolerance] is a [uint]. *)
Record CmdStore := mkCmdStore {
  Description : string;
  Compression : string;
  Encryption : string;
  FailureTolerance : Z
}.

(** What [store] calls outside the files at hand.  [snapshot_Add wd targets
    repository compress encrypt dataParts parityParts] stands for
    [snapshot.Add] together with the loop that drains the progress channel
    it returns, which only draws the progress bars; its result is the
    error of [Add]. *)
Class Env (World : Type) := {
  os_Getwd : IO World (result string);
  strings_ToLower : string -> string;
  snapshot_Add :
    string -> list string -> Repository World -> bool -> bool -> Z -> Z ->
    IO World (option error)
}.

Section Methods.
Context {World : Type} `{!Env World}.

(** [func (cmd CmdStore) store(repository *knoxite.Repository,
      snapshot *knoxite.Snapshot, targets []string) error] *)
Definition store (cmd : CmdStore) (repository : Repository World)
    (targets : list string) : IO World (option error) :=
  fun w =>
    match os_Getwd w with
    | (Err gerr, w) => (Some gerr, w)
    | (Ok wd, w) =>
        let backends :=
          wrap_uint (Z.of_nat (length (Backends (Repository_Backend repository)))) in
        if wrap_uint (backends - FailureTolerance cmd) <=? 0 then
          (Some ErrRedundancyAmount, w)
        else
          snapshot_Add wd targets repository
            (bool_decide (strings_ToLower (Compression cmd) = "gzip"))
            (bool_decide (strings_ToLower (Encryption cmd) <> "none"))
            (wrap_uint (backends - FailureTolerance cmd))
            (FailureTolerance cmd) w
    end.

End Methods.
End CmdStore.

(** * Vocabulary of the properties *)

(** ** Sequences of backend calls *)

(** The calls of [calls], run in order from [w], all return an error and
    leave the world [w']. *)
Inductive all_fail {World A} : list (IO World (result A)) -> World -> World -> Prop :=
| all_fail_nil w : all_fail [] w w
| all_fail_cons call rest w e w1 w' :
    call w = (Err e, w1) -> all_fail rest w1 w' -> all_fail (call :: rest) w w'.

(** The calls of [calls], run in order from [w], all return nil and leave
    the world [w']. *)
Inductive all_succeed {World} : list (IO World (option error)) -> World -> World -> Prop :=
| all_succeed_nil w : all_succeed [] w w
| all_succeed_cons call rest w w1 w' :
    call w = (None, w1) -> all_succeed rest w1 w' ->
    all_succeed (call :: rest) w w'.

(** [run] is the first-success fan-out of [method] over the backends [bes]:
    it returns what the first backend whose call succeeds returns, in the
    world that call leaves, and it fails, with [fail], exactly when the
    call of every backend fails. *)
Definition first_success_of {World A} (bes : list (Backend World))
    (method : Backend World -> IO World (result A)) (fail : error)
    (run : IO World (result A)) : Prop :=
  (forall pre be post d w w1 w2,
      bes = pre ++ be :: post ->
      all_fail (map method pre) w w1 ->
      method be w1 = (Ok d, w2) ->
      run w = (Ok d, w2))
  /\ (forall w w', all_fail (map method bes) w w' -> run w = (Err fail, w'))
  /\ (forall w e w', run w = (Err e, w') ->
        e = fail /\ all_fail (map method bes) w w')
  /\ (forall w d w', run w = (Ok d, w') ->
        exists pre be post w1,
          bes = pre ++ be :: post /\ all_fail (map method pre) w w1 /\
          method be w1 = (Ok d, w')).

(** [run] is the all-backend fan-out of [method] over the backends [bes]:
    it calls the backends in order, stops at the first one that fails, in
    the world that call leaves, with its error, and returns nil exactly
    when every call returns nil. *)
Definition all_or_first_error {World} (bes : list (Backend World))
    (method : Backend World -> IO World (option error))
    (run : IO World (option error)) : Prop :=
  (forall w w', all_succeed (map method bes) w w' -> run w = (None, w'))
  /\ (forall pre be post e w w1 w2,
        bes = pre ++ be :: post ->
        all_succeed (map method pre) w w1 ->
        method be w1 = (Some e, w2) ->
        run w = (Some e, w2))
  /\ (forall w w', run w = (None, w') -> all_succeed (map method bes) w w')
  /\ (forall w e w', run w = (Some e, w') ->
        exists pre be post w1,
          bes = pre ++ be :: post /\ all_succeed (map method pre) w w1 /\
          method be w1 = (Some e, w')).

(** ** Instances for examples *)

(** A backend over a log of calls: every call appends its own [name] to
    the log; it succeeds (returning [content] on a load) when [up] holds
    and fails otherwise. *)
Definition logging_backend (name : string) (up : bool) (content : bytes)
    : Backend (list string) :=
  let load : IO (list string) (result bytes) := fun w =>
    (if up then Ok content else Err (ExternalError name), w ++ [name]) in
  let save : IO (list string) (option error) := fun w =>
    (if up then None else Some (ExternalError name), w ++ [name]) in
  mkBackend
    (fun _ _ _ => load)
    (fun _ _ _ data w =>
       (if up then Ok (Z.of_nat (length data)) else Err (ExternalError name),
        w ++ [name]))
    (fun _ => load)
    (fun _ _ => save)
    save
    load
    (fun _ => save).

(** ** The read transform in the words of the specification *)

(** Section 4.3, read transform, step 4: gunzip. *)
Definition gunzip `{!Codecs} (b : bytes) : result bytes :=
  match gzip_NewReader b with
  | Err e => Err e
  | Ok r => ioutil_ReadAll r
  end.

(** Section 4.3, read transform, steps 3 and 4: decrypt with the repository
    password if the chunk is AES-encrypted, then gunzip if it is
    gzip-compressed. *)
Definition read_transform `{!Codecs} (password : string) (C : Chunk)
    (payload : bytes) : result bytes :=
  match
    match Encrypted C with
    | EncryptionAES => Decrypt payload password
    | EncryptionNone => Ok payload
    end
  with
  | Err e => Err e
  | Ok p =>
      match Compressed C with
      | CompressionGZip => gunzip p
      | CompressionNone => Ok p
      end
  end.

(** ** A Dropbox account in memory *)

(** The files of the account and the targets of the uploads made so far. *)
Record Account := mkAccount {
  files : gmap string bytes;
  uploads : list string
}.

#[local] Instance memory_client : StorageDropbox.Client Account := {|
  StorageDropbox.CreateFolder := fun _ w => (Some (StorageDropbox.mkEntry 0), None, w);
  StorageDropbox.Metadata := fun path w =>
    (match files w !! path with
     | Some b => Ok (StorageDropbox.mkEntry (Z.of_nat (length b)))
     | None => Err (ExternalError "not found")
     end, w);
  StorageDropbox.UploadByChunk := fun data _ dst _ _ w =>
    (Some (StorageDropbox.mkEntry (Z.of_nat (length data))), None,
     mkAccount (<[dst := data]> (files w)) (uploads w ++ [dst]));
  StorageDropbox.filepath_Join := fun a b => a +:+ "/" +:+ b;
  StorageDropbox.SubDirForChunk := fun sha => String.substring 0 2 sha;
  StorageDropbox.strconv_FormatUint := fun n _ => pretty n
|}.

(** ** An environment of the store command that records its calls *)

(** A backend that is out of reach: every call fails and leaves the world
    as it is. *)
Definition unreachable_backend {World} : Backend World :=
  let load : IO World (result bytes) := fun w => (Err (ExternalError "down"), w) in
  let save : IO World (option error) := fun w => (Some (ExternalError "down"), w) in
  mkBackend (fun _ _ _ => load)
    (fun _ _ _ _ w => (Err (ExternalError "down"), w))
    (fun _ => load) (fun _ _ => save) save load (fun _ => save).

(** The world is the list of the shapes [(dataParts, parityParts)] with
    which [snapshot.Add] was called. *)
#[local] Instance recording_env : CmdStore.Env (list (Z * Z)) := {|
  CmdStore.os_Getwd := fun w => (Ok "/", w);
  CmdStore.strings_ToLower := fun s => s;
  CmdStore.snapshot_Add := fun _ _ _ _ _ dataParts parityParts w =>
    (None, w ++ [(dataParts, parityParts)])
|}.

(** ** Round-robin placement in the words of the claim *)

(** [StoreChunk] of a manager with the backends [bes] and the cursor [c],
    for the shards [shards] of [chunk], [j] shards of which have been
    placed: shard [j] goes to the backend [(c + 1 + j) mod N], with the
    content address of the chunk, [j] as its part number, the number of
    data parts and the bytes of the shard; the first store that fails ends
    the call.  The result is the number of shards that were handed to a
    backend and the error of the last of them, if it failed. *)
Fixpoint round_robin {World} (bes : list (Backend World)) (chunk : Chunk) (c : Z)
    (j : nat) (shards : list bytes) : IO World (nat * option error) :=
  match shards with
  | [] => fun w => ((j, None), w)
  | data :: rest => fun w =>
      match bes !! Z.to_nat ((c + 1 + Z.of_nat j) mod Z.of_nat (length bes)) with
      | None => ((j, None), w)
      | Some be =>
          match be_StoreChunk be (ShaSum chunk) (Z.of_nat j) (DataParts chunk)
                  data w with
          | (Err e, w') => ((S j, Some e), w')
          | (Ok _, w') => round_robin bes chunk c (S j) rest w'
          end
      end
  end.

(** Go's [(size, err)] for the error [err] of the last store. *)
Definition stored_size (chunk : Chunk) (err : option error) : result Z :=
  match err with
  | None => Ok (wrap_uint (Size chunk))
  | Some e => Err e
  end.

(** ** Observing the placement of shards *)

(** A call of a backend, run in a world that carries a list of calls next
    to the world of the backend. *)
Definition beside {World L A} (call : IO World A) : IO (World * L) A :=
  fun wl => let '(r, w) := call wl.1 in (r, (w, wl.2)).

(** A call of [StoreChunk] that a backend received: the number of the
    backend in the manager, the arguments of the call (content address, part
    number, number of data parts, bytes of the shard) and the error that
    the backend returned. *)
Record Stored := mkStored {
  stored_on : nat;
  stored_sha : string;
  stored_part : Z;
  stored_total : Z;
  stored_data : bytes;
  stored_error : option error
}.

Definition error_of {A} (r : result A) : option error :=
  match r with
  | Ok _ => None
  | Err e => Some e
  end.

(** The backend [be] as number [i] of a manager: a call of [StoreChunk]
    is passed on to [be] and appended, with what [be] returned, to the
    list of calls. *)
Definition observed {World} (i : nat) (be : Backend World)
    : Backend (World * list Stored) :=
  mkBackend
    (fun sha part total => beside (be_LoadChunk be sha part total))
    (fun sha part total data wl =>
       let '(r, w) := be_StoreChunk be sha part total data wl.1 in
       (r, (w, wl.2 ++ [mkStored i sha part total data (error_of r)])))
    (fun id => beside (be_LoadSnapshot be id))
    (fun id b => beside (be_SaveSnapshot be id b))
    (beside (be_InitRepository be))
    (beside (be_LoadRepository be))
    (fun b => beside (be_SaveRepository be b)).

(** The call [s], answered with the error [e]. *)
Definition refused (e : error) (s : Stored) : Stored :=
  mkStored (stored_on s) (stored_sha s) (stored_part s) (stored_total s)
    (stored_data s) (Some e).

(** The calls, none of which fails, that place the shards [shards] of
    [chunk] from the part number [j] on, when [m] shards have been placed
    since the cursor was [c]: each shard goes, with its part number, to
    the backend [(c + 1 + m) mod N], [m] counting the shards placed
    before it. *)
Fixpoint chunk_calls (N : nat) (c : Z) (chunk : Chunk) (m j : nat)
    (shards : list bytes) : list Stored :=
  match shards with
  | [] => []
  | data :: rest =>
      mkStored (Z.to_nat ((c + 1 + Z.of_nat m) mod Z.of_nat N)) (ShaSum chunk)
        (Z.of_nat j) (DataParts chunk) data None
      :: chunk_calls N c chunk (S m) (S j) rest
  end.

(** The calls, none of which fails, that store the chunks [chunks] one
    after the other, when [m] shards have been placed since the cursor was
    [c]. *)
Fixpoint round_robin_calls (N : nat) (c : Z) (m : nat) (chunks : list Chunk)
    : list Stored :=
  match chunks with
  | [] => []
  | chunk :: rest =>
      let shards := default [] (Data chunk) in
      chunk_calls N c chunk m 0 shards
      ++ round_robin_calls N c (m + length shards) rest
  end.

(** [log] is the list of calls that storing leaves when it is to make the
    calls [expected] and ends with [err]: all of [expected] when [err] is
    nil, and otherwise the calls of [expected] up to one that the backend
    answered with the error [err]. *)
Definition stored_until (err : option error) (expected log : list Stored) : Prop :=
  match err with
  | None => log = expected
  | Some e =>
      exists (m : nat) s,
        expected !! m = Some s /\ log = take m expected ++ [refused e s]
  end.

(** The backends that [k] shards in a row reach from the cursor [c]. *)
Definition targets (N : nat) (c : Z) (k : nat) : list nat :=
  map (fun j : nat => Z.to_nat ((c + 1 + Z.of_nat j) mod Z.of_nat N)) (seq 0 k).

(** The number of shards that backend [i] received. *)
Definition received (i : nat) (log : list Stored) : Z :=
  Z.of_nat (length (filter (fun s => stored_on s = i) log)).

(** The calls [StoreChunk(c1); ...; StoreChunk(cK)] that a writer makes on
    one manager, up to the first that fails. *)
Fixpoint store_chunks {World} (backend : BackendManager World)
    (chunks : list Chunk) : IO World (outcome (BackendManager World * option error)) :=
  match chunks with
  | [] => fun w => (Returned (backend, None), w)
  | chunk :: rest => fun w =>
      match BackendManager.StoreChunk backend chunk w with
      | (Returned (backend, Ok _), w) => store_chunks backend rest w
      | (Returned (backend, Err e), w) => (Returned (backend, Some e), w)
      | (Panicked e, w) => (Panicked e, w)
      | (Blocked, w) => (Blocked, w)
      end
  end.

(** Every backend of [bes] accepts every shard, in every world. *)
Definition accepting {World} (bes : list (Backend World)) : Prop :=
  forall be sha part total data w,
    be ∈ bes ->
    exists n w', be_StoreChunk be sha part total data w = (Ok n, w').


(** ** Shards that can and cannot be loaded *)

(** The number of shards present in a shard vector. *)
Definition present (pars : list (option bytes)) : Z :=
  Z.of_nat (length (filter (fun s : option bytes => is_Some s) pars)).

(** The number of the shards [first], ..., [first + n - 1] that [avail]
    has. *)
Fixpoint avail_count (avail : Z -> option bytes) (first : Z) (n : nat) : Z :=
  match n with
  | O => 0
  | S n' =>
      (match avail first with Some _ => 1 | None => 0 end)
      + avail_count avail (first + 1) n'
  end.

(** Through the backends of [repository], shard [i] of [chunk] loads as
    [b] when [avail i = Some b] and fails to load when [avail i = None],
    whatever the world. *)
Definition shards_available {World} (repository : Repository World)
    (chunk : Chunk) (avail : Z -> option bytes) : Prop :=
  forall i w,
    match avail i with
    | Some b =>
        (BackendManager.LoadChunk (Repository_Backend repository) chunk i w).1 = Ok b
    | None =>
        exists e,
          (BackendManager.LoadChunk (Repository_Backend repository) chunk i w).1 = Err e
    end.

(** The coder [enc] gets [buf] back from any [d] of the [total] shards of
    [avail]: on a vector that holds at least [d] of them, [Reconstruct]
    succeeds and [Join] of what it leaves writes [buf]; on a vector whose
    first [d] shards are there, [Join] writes [buf] at once. *)
Definition recovers `{!Codecs} (enc : rs_Encoder) (avail : Z -> option bytes)
    (total : nat) (d size : Z) (buf : bytes) : Prop :=
  forall pars : list (option bytes),
    length pars = total ->
    (forall (i : nat) b, pars !! i = Some (Some b) -> avail (Z.of_nat i) = Some b) ->
    d <= present pars ->
    (exists pars',
        rs_Reconstruct enc pars = (pars', None) /\ rs_Join enc pars' size = Ok buf)
    /\ ((forall i : nat, Z.of_nat i < d -> exists b, pars !! i = Some (Some b)) ->
        rs_Join enc pars size = Ok buf).

(** The results of loading the shards [first], ..., [first + n - 1] of
    [chunk], one after the other. *)
Fixpoint shard_loads {World} (repository : Repository World) (chunk : Chunk)
    (first : Z) (n : nat) (w : World) : list (result bytes) :=
  match n with
  | O => []
  | S n' =>
      let '(r, w) :=
        BackendManager.LoadChunk (Repository_Backend repository) chunk first w in
      r :: shard_loads repository chunk (first + 1) n' w
  end.

(** Section 4.3, read transform, step 1, as claim C2 reads its error: the
    load of [chunk] fails with a [DataReconstructionError] whose
    [BlocksFound] is the number of shard loads that succeeded and whose
    [FailedBackends] is the number of shard loads that failed. *)
Definition reconstruction_error_counts_loads {World} `{!Codecs}
    (repository : Repository World) (chunk : Chunk) (w : World) : Prop :=
  let results :=
    shard_loads repository chunk 0
      (Z.to_nat (DataParts chunk + ParityParts chunk)) w in
  (loadChunk repository chunk w).1
  = Returned
      (Err (DataReconstructionError chunk
              (Z.of_nat (length (filter (fun r => is_Ok r = true) results)))
              (Z.of_nat (length (filter (fun r => is_Ok r = false) results))))).

(** ** A backend and a coder for examples *)

(** A backend that holds the shards [shards] of one chunk; nothing else
    can be loaded from it or stored on it. *)
Definition shard_backend (shards : list (option bytes)) : Backend unit :=
  let load : IO unit (result bytes) := fun w => (Err (ExternalError "no such blob"), w) in
  let save : IO unit (option error) := fun w => (Some (ExternalError "read only"), w) in
  mkBackend
    (fun _ part _ w =>
       (match go_index shards part with
        | Some (Some b) => Ok b
        | _ => Err (ExternalError "no such shard")
        end, w))
    (fun _ _ _ _ w => (Err (ExternalError "read only"), w))
    (fun _ => load) (fun _ _ => save) save load (fun _ => save).

(** Stand-ins for the libraries: the digest of a block is the block itself
    read as a string, the cipher and gzip leave the bytes as they are, and
    the coder of shape [(1, p)] keeps a copy of the data in every shard. *)
#[local] Instance copy_codecs : Codecs := {|
  sha256_hex := String.string_of_list_byte;
  Decrypt := fun b _ => Ok b;
  gzip_Reader := bytes;
  gzip_NewReader := fun b => Ok b;
  ioutil_ReadAll := fun b => Ok b;
  rs_Encoder := Z * Z;
  reedsolomon_New := fun d p =>
    if (0 <? d) && (0 <? p) && (d + p <=? 256) then Ok (d, p)
    else Err (ExternalError "invalid shard number");
  rs_Reconstruct := fun enc pars =>
    if enc.1 <=? present pars then (pars, None)
    else (pars, Some (ExternalError "too few shards"));
  rs_Join := fun enc pars size =>
    match enc.1, omap id pars with
    | 1, b :: _ =>
        if size <=? Z.of_nat (length b) then Ok (take (Z.to_nat size) b)
        else Err (ExternalError "short data")
    | _, _ => Err (ExternalError "too few shards")
    end
|}.

(** ** Archives whose chunks decode *)

(** [B[lo:hi]] for [0 <= lo <= hi <= len(B)]. *)
Definition slice {A} (B : list A) (lo hi : Z) : list A :=
  take (Z.to_nat (hi - lo)) (drop (Z.to_nat lo) B).

(** The chunks of [cs] are in [num] order: the chunk at place [i] has
    [Num = i]. *)
Definition numbered (cs : list Chunk) : Prop :=
  forall (i : nat) c, cs !! i = Some c -> Num c = Z.of_nat i.

(** Every chunk of [cs] loads and decodes, to the plaintext [plain c],
    whatever the world. *)
Definition decodes_to {World} `{!Codecs} (repository : Repository World)
    (plain : Chunk -> bytes) (cs : list Chunk) : Prop :=
  forall c w,
    c ∈ cs ->
    exists w', loadChunk repository c w = (Returned (Ok (plain c)), w').

(** What the cache holds under the content address of a chunk of [cs] is
    the plaintext of that chunk. *)
Definition cache_coherent (plain : Chunk -> bytes) (cs : list Chunk)
    (cached : gmap string bytes) : Prop :=
  forall c d, c ∈ cs -> cached !! ShaSum c = Some d -> d = plain c.

(** Chunks of [cs] with one content address have one plaintext. *)
Definition content_addressed (plain : Chunk -> bytes) (cs : list Chunk) : Prop :=
  forall c1 c2, c1 ∈ cs -> c2 ∈ cs -> ShaSum c1 = ShaSum c2 -> plain c1 = plain c2.

(** The mutex is free and the cache is coherent. *)
Definition ready {World} (plain : Chunk -> bytes) (cs : list Chunk)
    (st : State World) : Prop :=
  mutex_locked st = false /\ cache_coherent plain cs (cache st).

(** The file that the chunks [cs], in this order, make. *)
Definition file_of (plain : Chunk -> bytes) (cs : list Chunk) : bytes :=
  concat (map plain cs).

(** The first chunk of [chunks] whose [Num] is [i]. *)
Definition chunk_of_num (chunks : list Chunk) (i : Z) : option Chunk :=
  List.find (fun c => Num c =? i) chunks.

(** A backend that holds whole chunks under their content address;
    nothing can be stored on it. *)
Definition blob_backend (blobs : gmap string bytes) : Backend unit :=
  let load : IO unit (result bytes) := fun w => (Err (ExternalError "no such blob"), w) in
  let save : IO unit (option error) := fun w => (Some (ExternalError "read only"), w) in
  mkBackend
    (fun sha _ _ w =>
       (match blobs !! sha with
        | Some b => Ok b
        | None => Err (ExternalError "no such chunk")
        end, w))
    (fun _ _ _ _ w => (Err (ExternalError "read only"), w))
    (fun _ => load) (fun _ _ => save) save load (fun _ => save).

(** A file of two chunks, "he" and "y!", stored without parity, and a
    repository that holds them. *)
Definition chunk_he : Chunk :=
  mkChunk None 1 0 2 2 "he" "he" 0 CompressionNone EncryptionNone.
Definition chunk_y : Chunk :=
  mkChunk None 1 0 2 2 "y!" "y!" 1 CompressionNone EncryptionNone.
Definition hey_repository : Repository unit :=
  mkRepository
    (mkBackendManager
       [blob_backend {["he" := [Byte.x68; Byte.x65]; "y!" := [Byte.x79; Byte.x21]]}] 0)
    "secret".
Definition hey_plain (c : Chunk) : bytes :=
  if decide (Num c = 0) then [Byte.x68; Byte.x65] else [Byte.x79; Byte.x21].

(** Claim C1 as it is stated: [ReadArchive] returns
    [B[offset : min(offset+size, len(B))]], [B] being the file that the
    chunks [cs] make. *)
Definition reads_slice {World} `{!Codecs} (repository : Repository World)
    (arc : ItemData) (plain : Chunk -> bytes) (cs : list Chunk)
    (offset size : Z) (st : State World) : Prop :=
  let B := file_of plain cs in
  exists err st',
    ReadArchive repository arc offset size st
    = Some (Returned
              ((slice B offset (Z.min (offset + size) (Z.of_nat (length B))), err),
               st')).

(** ** Claim C9 as it is stated *)

(** What a decode returns to its caller: the data and the error. *)
Definition decode_output {World}
    (out : outcome ((bytes * Stats * option error) * State World))
    : option (bytes * option error) :=
  match out with
  | Returned ((dat, _, err), _) => Some (dat, err)
  | _ => None
  end.

(** The decode of [arc] produces the same output for every permutation of
    the stored chunk list. *)
Definition order_independent {World} `{!Codecs} (repository : Repository World)
    (arc : ItemData) (st : State World) : Prop :=
  forall arc',
    Type_ arc' = Type_ arc ->
    Permutation (Chunks arc) (Chunks arc') ->
    decode_output (DecodeArchiveData repository arc' st)
    = decode_output (DecodeArchiveData repository arc st).

(** If no chunk with [Num = i] exists for some [i] in [[0, len(chunks))],
    the decode fails with [ChunkError i]. *)
Definition missing_number_reported {World} `{!Codecs}
    (repository : Repository World) (arc : ItemData) (st : State World) : Prop :=
  forall i : nat,
    (i < length (Chunks arc))%nat ->
    (forall c, c ∈ Chunks arc -> Num c <> Z.of_nat i) ->
    exists dat stats st',
      DecodeArchiveData repository arc st
      = Returned ((dat, stats, Some (ChunkError (Z.of_nat i))), st').

Definition decodes_by_num_in_any_order {World} `{!Codecs}
    (repository : Repository World) (arc : ItemData) (st : State World) : Prop :=
  order_independent repository arc st /\ missing_number_reported repository arc st.

(** The chunk "y!" with the number 0, and the chunks "he" and "y!" with
    the numbers 5 and 2. *)
Definition chunk_y0 : Chunk :=
  mkChunk None 1 0 2 2 "y!" "y!" 0 CompressionNone EncryptionNone.
Definition chunk_he5 : Chunk :=
  mkChunk None 1 0 2 2 "he" "he" 5 CompressionNone EncryptionNone.
Definition chunk_y2 : Chunk :=
  mkChunk None 1 0 2 2 "y!" "y!" 2 CompressionNone EncryptionNone.

(** ** More archives for examples *)

(** A chunk that the repository [hey_repository] does not hold, and an
    archive that refers to it. *)
Definition chunk_lost : Chunk :=
  mkChunk None 1 0 2 2 "zz" "zz" 0 CompressionNone EncryptionNone.
Definition lost_archive : ItemData := mkItemData "lost" File [chunk_lost].
Definition hey_archive : ItemData := mkItemData "hey" File [chunk_y; chunk_he].

(** ** Sizes and statistics *)

(** The sum of the [OriginalSize]s of the chunks [cs]. *)
Definition size_sum (cs : list Chunk) : Z :=
  fold_right (fun c acc => OriginalSize c + acc) 0 cs.

(** The sum of the running totals [acc + l1], [acc + l1 + l2], ... of the
    lengths [lens]. *)
Fixpoint cumulative (lens : list Z) (acc : Z) : Z :=
  match lens with
  | [] => 0
  | l :: rest => (acc + l) + cumulative rest (acc + l)
  end.

(** The cache holds the plaintext of every chunk of [cs]. *)
Definition all_cached (plain : Chunk -> bytes) (cs : list Chunk)
    (cached : gmap string bytes) : Prop :=
  forall c, c ∈ cs -> cached !! ShaSum c = Some (plain c).

(** ** Reading from a Dropbox account *)

(** In the world [w], the account returns [data] for [path]: the download
    succeeds and the stream reads as [data], without an error. *)
Definition holds `{!StorageDropbox.Reads World} (w : World) (path : string)
    (data : bytes) : Prop :=
  exists obj w',
    StorageDropbox.Download path w = (Ok obj, w')
    /\ (StorageDropbox.ReadAll obj w').1 = (data, None).

(** Reading from the account in memory; its quota is used up to 10 bytes
    above the limit. *)
#[local] Instance memory_reads : StorageDropbox.Reads Account := {|
  StorageDropbox.Stream := bytes;
  StorageDropbox.Download := fun path w =>
    (match files w !! path with
     | Some b => Ok b
     | None => Err (ExternalError "not found")
     end, w);
  StorageDropbox.ReadAll := fun obj w => ((obj, None), w);
  StorageDropbox.GetAccountInfo := fun w =>
    (Ok (StorageDropbox.mkQuotaInfo 1000 10 1000), w)
|}.

(** ** Observing a restore *)

(** The calls that a restore makes, with their arguments. *)
Inductive Event :=
| Ev_MkdirAll (path : string) (perm : Z)
| Ev_Symlink (oldname newname : string)
| Ev_OpenFile (name : string) (flag perm : Z)
| Ev_Write (name : string) (b : bytes)
| Ev_Sync (name : string)
| Ev_Close (name : string)
| Ev_Chtimes (name : string) (atime mtime : Z)
| Ev_Lchown (name : string) (uid gid : Z)
| Ev_Send (prog : Progress).

(** A file system and a progress channel that keep, next to the world of
    the backends, the list of the calls made.  The error of each call is
    the one [oracle] gives for it; [dir] is [filepath.Dir]; a file is known
    by its name; the flags are those of Linux; the channel has a
    receiver. *)
Definition scripted {W} (oracle : Event -> option error) (ev : Event)
    : IO (W * list Event) (option error) :=
  fun wl => (oracle ev, (wl.1, wl.2 ++ [ev])).

#[local] Instance scripted_fs {W} (oracle : Event -> option error)
    (dir : string -> string) : FileSystem (W * list Event) := {|
  os_File := string;
  os_O_CREATE := 64;
  os_O_WRONLY := 1;
  os_MkdirAll := fun path perm => scripted oracle (Ev_MkdirAll path perm);
  os_Symlink := fun oldname newname => scripted oracle (Ev_Symlink oldname newname);
  os_OpenFile := fun name flag perm wl =>
    let '(err, wl) := scripted oracle (Ev_OpenFile name flag perm) wl in
    (match err with Some e => Err e | None => Ok name end, wl);
  File_Write := fun f b wl =>
    let '(err, wl) := scripted oracle (Ev_Write f b) wl in
    ((match err with Some _ => 0 | None => Z.of_nat (length b) end, err), wl);
  File_Sync := fun f => scripted oracle (Ev_Sync f);
  File_Close := fun f => scripted oracle (Ev_Close f);
  os_Chtimes := fun name atime mtime => scripted oracle (Ev_Chtimes name atime mtime);
  os_Lchown := fun name uid gid => scripted oracle (Ev_Lchown name uid gid);
  filepath_Dir := dir;
  chan_send := fun prog wl => (Returned (), (wl.1, wl.2 ++ [Ev_Send prog]))
|}.

(** Every chunk of [cs] loads and decodes, to the plaintext [plain c], and
    the load makes none of the calls of a restore. *)
Definition restores {W} `{!Codecs} (repository : Repository (W * list Event))
    (plain : Chunk -> bytes) (cs : list Chunk) : Prop :=
  forall c w log,
    c ∈ cs ->
    exists w', loadChunk repository c (w, log) = (Returned (Ok (plain c)), (w', log)).

(** The calls of the loop of a restore that writes the blocks [datas] to
    the file [f], [acc] bytes having been written before: each block is
    written and then reported, with the number of bytes written so far,
    modulo [2^64], as the size of the file and in the statistics. *)
Fixpoint writes_and_reports (f path : string) (storage : Z) (datas : list bytes)
    (acc : Z) : list Event :=
  match datas with
  | [] => []
  | d :: rest =>
      let acc := wrap_uint (acc + Z.of_nat (length d)) in
      Ev_Write f d
      :: Ev_Send (mkProgress path acc storage (mkStats 1 0 0 acc storage))
      :: writes_and_reports f path storage rest acc
  end.

(** Where a restore stops at the chunk number [k]: no chunk has this
    number; or the chunk does not load; or it loads and cannot be written,
    and then the call of [Write] is the last one made. *)
Inductive stops_at {W} `{!Codecs} (oracle : Event -> option error)
    (repository : Repository (W * list Event)) (arc : ItemData) (f : string)
    (k : Z) : error -> list Event -> Prop :=
| stops_missing :
    chunk_of_num (Chunks arc) k = None ->
    stops_at oracle repository arc f k (ChunkError k) []
| stops_unloadable c err :
    chunk_of_num (Chunks arc) k = Some c ->
    (forall w log, exists w',
        loadChunk repository c (w, log) = (Returned (Err err), (w', log))) ->
    stops_at oracle repository arc f k err []
| stops_unwritable c d err :
    chunk_of_num (Chunks arc) k = Some c ->
    (forall w log, exists w',
        loadChunk repository c (w, log) = (Returned (Ok d), (w', log))) ->
    oracle (Ev_Write f d) = Some err ->
    stops_at oracle repository arc f k err [Ev_Write f d].

(** A backend in a world that carries something else besides. *)
Definition aside {World L} (be : Backend World) : Backend (World * L) :=
  mkBackend
    (fun sha part total => beside (be_LoadChunk be sha part total))
    (fun sha part total data => beside (be_StoreChunk be sha part total data))
    (fun id => beside (be_LoadSnapshot be id))
    (fun id b => beside (be_SaveSnapshot be id b))
    (beside (be_InitRepository be))
    (beside (be_LoadRepository be))
    (fun b => beside (be_SaveRepository be b)).

(** The repository of the file "hey!" next to the list of calls, and the
    metadata of the file. *)
Definition hey_restore_repository : Repository (unit * list Event) :=
  mkRepository
    (mkBackendManager
       [aside (blob_backend {["he" := [Byte.x68; Byte.x65]; "y!" := [Byte.x79; Byte.x21]]})] 0)
    "secret".
Definition hey_item : ItemMeta := mkItemMeta 420 1000 501 20 "none" 4.

(** The calls that end the restore of a file. *)
Definition finishing (ev : Event) : bool :=
  match ev with
  | Ev_Sync _ | Ev_Close _ | Ev_Chtimes _ _ _ | Ev_Lchown _ _ _ => true
  | _ => false
  end.

(** An archive whose chunk list has the chunk number 0 twice and no chunk
    number 1. *)
Definition torn_archive : ItemData := mkItemData "torn" File [chunk_he; chunk_he].

(** * Properties *)

(** ** Machine integers *)

Lemma wrap_uint_small z : 0 <= z < uint_modulus -> wrap_uint z = z.
Proof. intros H. unfold wrap_uint. now apply Z.mod_small. Qed.

Lemma wrap_int_small z : - int_half <= z < int_half -> wrap_int z = z.
Proof.
  intros H. unfold wrap_int.
  rewrite Z.mod_small; [lia|]. unfold uint_modulus, int_half in *. lia.
Qed.

(** ** The backend manager: fan-out of loads and saves *)

Section FanOut.
Context {World : Type}.

Lemma all_fail_app {A} (xs ys : list (IO World (result A))) w w1 w2 :
  all_fail xs w w1 -> all_fail ys w1 w2 -> all_fail (xs ++ ys) w w2.
Proof.
  induction 1 as [|call rest w e wa wb Hcall Hrest IH]; simpl; [auto|].
  intros Hys. econstructor; eauto.
Qed.

Lemma range_first_success_fail {A} (calls : list (IO World (result A))) fail w w' :
  all_fail calls w w' -> range_first_success calls fail w = (Err fail, w').
Proof.
  induction 1 as [|call rest w e w1 w' Hcall _ IH]; simpl; [reflexivity|].
  now rewrite Hcall.
Qed.

Lemma range_first_success_skip {A} (pre rest : list (IO World (result A))) fail w w1 :
  all_fail pre w w1 ->
  range_first_success (pre ++ rest) fail w = range_first_success rest fail w1.
Proof.
  induction 1 as [|call pre w e wa wb Hcall _ IH]; simpl; [reflexivity|].
  now rewrite Hcall.
Qed.

Lemma range_first_success_inv {A} (calls : list (IO World (result A))) fail w r w' :
  range_first_success calls fail w = (r, w') ->
  match r with
  | Err e => e = fail /\ all_fail calls w w'
  | Ok d =>
      exists pre call post w1,
        calls = pre ++ call :: post /\ all_fail pre w w1 /\ call w1 = (Ok d, w')
  end.
Proof.
  revert w. induction calls as [|call rest IH]; simpl; intros w H.
  - inversion H; subst. split; [reflexivity | constructor].
  - destruct (call w) as [[d|e] w1] eqn:Hcall.
    + inversion H; subst. exists [], call, rest, w. repeat split; [constructor | assumption].
    + specialize (IH _ H). destruct r as [d|e'].
      * destruct IH as (pre & c & post & w2 & -> & Hpre & Hc).
        exists (call :: pre), c, post, w2. repeat split; [|assumption].
        econstructor; eauto.
      * destruct IH as [-> Hall]. split; [reflexivity|]. econstructor; eauto.
Qed.

Lemma range_first_success_spec {A} (bes : list (Backend World))
    (method : Backend World -> IO World (result A)) fail :
  first_success_of bes method fail (range_first_success (map method bes) fail).
Proof.
  repeat split.
  - intros pre be post d w w1 w2 -> Hpre Hbe.
    rewrite map_app. simpl. rewrite (range_first_success_skip _ _ _ _ _ Hpre).
    simpl. now rewrite Hbe.
  - intros w w'. apply range_first_success_fail.
  - now apply (range_first_success_inv _ _ _ (Err e)) in H.
  - now apply (range_first_success_inv _ _ _ (Err e)) in H.
  - intros w d w' H. apply (range_first_success_inv _ _ _ (Ok d)) in H.
    destruct H as (pre & call & post & w1 & Hsplit & Hpre & Hcall).
    apply map_eq_app in Hsplit.
    destruct Hsplit as (bpre & brest & -> & <- & Hrest).
    apply map_eq_cons in Hrest.
    destruct Hrest as (be & bpost & -> & <- & <-).
    now exists bpre, be, bpost, w1.
Qed.

Lemma range_until_error_ok (calls : list (IO World (option error))) w w' :
  all_succeed calls w w' -> range_until_error calls w = (None, w').
Proof.
  induction 1 as [|call rest w w1 w' Hcall _ IH]; simpl; [reflexivity|].
  now rewrite Hcall.
Qed.

Lemma range_until_error_skip (pre rest : list (IO World (option error))) w w1 :
  all_succeed pre w w1 ->
  range_until_error (pre ++ rest) w = range_until_error rest w1.
Proof.
  induction 1 as [|call pre w wa wb Hcall _ IH]; simpl; [reflexivity|].
  now rewrite Hcall.
Qed.

Lemma range_until_error_inv (calls : list (IO World (option error))) w r w' :
  range_until_error calls w = (r, w') ->
  match r with
  | None => all_succeed calls w w'
  | Some e =>
      exists pre call post w1,
        calls = pre ++ call :: post /\ all_succeed pre w w1 /\
        call w1 = (Some e, w')
  end.
Proof.
  revert w. induction calls as [|call rest IH]; simpl; intros w H.
  - inversion H; subst. constructor.
  - destruct (call w) as [[e|] w1] eqn:Hcall.
    + inversion H; subst. exists [], call, rest, w.
      repeat split; [constructor | assumption].
    + specialize (IH _ H). destruct r as [e|].
      * destruct IH as (pre & c & post & w2 & -> & Hpre & Hc).
        exists (call :: pre), c, post, w2. repeat split; [|assumption].
        econstructor; eauto.
      * econstructor; eauto.
Qed.

Lemma range_until_error_spec (bes : list (Backend World))
    (method : Backend World -> IO World (option error)) :
  all_or_first_error bes method (range_until_error (map method bes)).
Proof.
  repeat split.
  - intros w w'. apply range_until_error_ok.
  - intros pre be post e w w1 w2 -> Hpre Hbe.
    rewrite map_app. simpl. rewrite (range_until_error_skip _ _ _ _ Hpre).
    simpl. now rewrite Hbe.
  - intros w w' H. now apply (range_until_error_inv _ _ None) in H.
  - intros w e w' H. apply (range_until_error_inv _ _ (Some e)) in H.
    destruct H as (pre & call & post & w1 & Hsplit & Hpre & Hcall).
    apply map_eq_app in Hsplit.
    destruct Hsplit as (bpre & brest & -> & <- & Hrest).
    apply map_eq_cons in Hrest.
    destruct Hrest as (be & bpost & -> & <- & <-).
    now exists bpre, be, bpost, w1.
Qed.

End FanOut.

(** C6.  First-success fan-out for loads: [LoadChunk], [LoadSnapshot] and
    [LoadRepository] of the manager try the backends in list order and
    return what the first backend whose load succeeds returns (later
    backends are not called); they fail, with [ErrLoadChunkFailed],
    [ErrLoadSnapshotFailed] and [ErrLoadRepositoryFailed] respectively, if
    and only if the load of every backend fails. *)
Theorem loads_first_success {World} (backend : BackendManager World)
    (chunk : Chunk) (part : Z) (id : string) :
  first_success_of (Backends backend)
    (fun be => be_LoadChunk be (ShaSum chunk) part (DataParts chunk))
    ErrLoadChunkFailed (BackendManager.LoadChunk backend chunk part)
  /\ first_success_of (Backends backend)
       (fun be => be_LoadSnapshot be id)
       ErrLoadSnapshotFailed (BackendManager.LoadSnapshot backend id)
  /\ first_success_of (Backends backend)
       (fun be => be_LoadRepository be)
       ErrLoadRepositoryFailed (BackendManager.LoadRepository backend).
Proof.
  split; [|split]; apply range_first_success_spec.
Qed.

(** Three logging backends, the first of which is down: the chunk comes
    from the second, and the third is never called. *)
Lemma loads_first_success_witness :
  BackendManager.LoadChunk
    (mkBackendManager
       [logging_backend "a" false []; logging_backend "b" true [Byte.x01];
        logging_backend "c" true [Byte.x02]] 0)
    (mkChunk None 1 0 1 1 "0a" "0a" 0 CompressionNone EncryptionNone) 0 []
  = (Ok [Byte.x01], ["a"; "b"]).
Proof.
  match goal with
  | |- BackendManager.LoadChunk ?bm ?c ?p _ = _ =>
      destruct (loads_first_success bm c p "id") as [[H _] _]
  end.
  apply (H [logging_backend "a" false []] (logging_backend "b" true [Byte.x01])
           [logging_backend "c" true [Byte.x02]] _ _ ["a"]).
  - reflexivity.
  - econstructor; [reflexivity | constructor].
  - reflexivity.
Defined.

(** C7.  All-backend fan-out for metadata writes: [SaveSnapshot],
    [SaveRepository] and [InitRepository] of the manager call the
    operation on the backends in list order; at the first failure they
    return that backend's error at once, in the world this call leaves (no
    later backend is called); they return nil if and only if every backend
    returns nil. *)
Theorem saves_all_backends {World} (backend : BackendManager World)
    (id : string) (b : bytes) :
  all_or_first_error (Backends backend)
    (fun be => be_SaveSnapshot be id b) (BackendManager.SaveSnapshot backend id b)
  /\ all_or_first_error (Backends backend)
       (fun be => be_SaveRepository be b) (BackendManager.SaveRepository backend b)
  /\ all_or_first_error (Backends backend)
       (fun be => be_InitRepository be) (BackendManager.InitRepository backend).
Proof.
  split; [|split]; apply range_until_error_spec.
Qed.

(** Three logging backends, the second of which is down: the write stops
    there with its error, and the third is never called. *)
Lemma saves_all_backends_witness :
  BackendManager.SaveRepository
    (mkBackendManager
       [logging_backend "a" true []; logging_backend "b" false [];
        logging_backend "c" true []] 0)
    [Byte.x07] []
  = (Some (ExternalError "b"), ["a"; "b"]).
Proof.
  match goal with
  | |- BackendManager.SaveRepository ?bm ?b _ = _ =>
      destruct (saves_all_backends bm "id" b) as (_ & (_ & H & _) & _)
  end.
  apply (H [logging_backend "a" true []] (logging_backend "b" false [])
           [logging_backend "c" true []] _ _ ["a"]).
  - reflexivity.
  - econstructor; [reflexivity | constructor].
  - reflexivity.
Defined.

(** C10.  A manager without backends: [SaveSnapshot], [SaveRepository] and
    [InitRepository] return nil and leave the world as it is; [LoadChunk],
    [LoadSnapshot] and [LoadRepository] fail with [ErrLoadChunkFailed],
    [ErrLoadSnapshotFailed] and [ErrLoadRepositoryFailed]. *)
Theorem empty_manager {World} (cursor : Z) (chunk : Chunk) (part : Z)
    (id : string) (b : bytes) (w : World) :
  let backend := mkBackendManager [] cursor in
  BackendManager.SaveSnapshot backend id b w = (None, w)
  /\ BackendManager.SaveRepository backend b w = (None, w)
  /\ BackendManager.InitRepository backend w = (None, w)
  /\ BackendManager.LoadChunk backend chunk part w = (Err ErrLoadChunkFailed, w)
  /\ BackendManager.LoadSnapshot backend id w = (Err ErrLoadSnapshotFailed, w)
  /\ BackendManager.LoadRepository backend w = (Err ErrLoadRepositoryFailed, w).
Proof. repeat split. Qed.

(** ** The chunk decoder: transform and integrity check *)

Section DecodeChunk.
Context {World : Type} `{!Codecs}.

(** C5.  [decodeChunk] decrypts (only if the chunk is AES-encrypted, with
    the repository password), then gunzips (only if the chunk is
    gzip-compressed); an error of either step is returned as it is.  On the
    bytes [plain] that the two steps give, it fails with
    [CheckSumError "sha256" C.DecryptedShaSum computed] if and only if the
    hex SHA-256 [computed] of [plain] differs from [C.DecryptedShaSum], and
    returns [plain] otherwise. *)
Theorem decodeChunk_transform_and_check (repository : Repository World)
    (C : Chunk) (payload : bytes) :
  match read_transform (Password repository) C payload with
  | Err e => decodeChunk repository C payload = Err e
  | Ok plain =>
      let computed := sha256_hex plain in
      (decodeChunk repository C payload
         = Err (CheckSumError "sha256" (DecryptedShaSum C) computed)
       <-> computed <> DecryptedShaSum C)
      /\ (computed = DecryptedShaSum C ->
          decodeChunk repository C payload = Ok plain)
  end.
Proof.
  unfold read_transform, decodeChunk, gunzip.
  destruct (Encrypted C); simpl.
  all: match goal with
       | |- context [Decrypt ?p ?k] => destruct (Decrypt p k) as [p1|e]; [|reflexivity]
       | _ => idtac
       end.
  all: destruct (Compressed C); simpl.
  all: repeat match goal with
       | |- context [gzip_NewReader ?p] =>
           destruct (gzip_NewReader p) as [r|e]; [|reflexivity]
       | |- context [ioutil_ReadAll ?r] =>
           destruct (ioutil_ReadAll r) as [p2|e]; [|reflexivity]
       end.
  all: simpl; case_decide as Hsum; (split; [split|]); intros; congruence.
Qed.

End DecodeChunk.

(** ** The Dropbox backend: shards already stored *)

Section DropboxStoreChunk.
Context {World : Type} `{!StorageDropbox.Client World}.

(** C8.  [StoreChunk] of the Dropbox backend creates the chunk folder and
    asks for the metadata of the target path.  If a blob is found there
    whose byte length is [len(data)], nothing is uploaded (the world is the
    one the metadata call leaves) and the stored size returned is 0.  If
    no blob is found or its length differs, the shard is uploaded to the
    target path, over whatever is there. *)
Theorem dropbox_StoreChunk_dedup (backend : StorageDropbox.StorageDropbox)
    (sha_sum : string) (part total_parts : Z) (data : bytes) (w : World) :
  let target := StorageDropbox.chunkFileName backend sha_sum part total_parts in
  let w1 := snd (StorageDropbox.CreateFolder
                   (StorageDropbox.chunkDir backend sha_sum) w) in
  let found := fst (StorageDropbox.Metadata target w1) in
  let w2 := snd (StorageDropbox.Metadata target w1) in
  (forall entry,
      found = Ok entry ->
      StorageDropbox.Bytes entry = Z.of_nat (length data) ->
      StorageDropbox.StoreChunk backend sha_sum part total_parts data w
      = (Returned (0, None), w2))
  /\ ((forall entry,
          found = Ok entry ->
          StorageDropbox.Bytes entry <> Z.of_nat (length data)) ->
      StorageDropbox.StoreChunk backend sha_sum part total_parts data w
      = match StorageDropbox.UploadByChunk data (Z.of_nat (length data))
                target true EmptyString w2 with
        | (Some entry, err, w3) =>
            (Returned (wrap_uint (StorageDropbox.Bytes entry), err), w3)
        | (None, _, w3) => (Panicked None, w3)
        end).
Proof.
  unfold StorageDropbox.StoreChunk. simpl.
  destruct (StorageDropbox.CreateFolder _ w) as [r1 w1]. simpl.
  destruct (StorageDropbox.Metadata _ w1) as [m w2]. simpl.
  split.
  - intros entry -> Hlen. apply Z.eqb_eq in Hlen. now rewrite Hlen.
  - intros Hdiff. destruct m as [entry|e].
    + specialize (Hdiff entry eq_refl). apply Z.eqb_neq in Hdiff.
      rewrite Hdiff.
      destruct (StorageDropbox.UploadByChunk _ _ _ _ _ w2) as [[[entry'|] err] w3];
        reflexivity.
    + destruct (StorageDropbox.UploadByChunk _ _ _ _ _ w2) as [[[entry'|] err] w3];
        reflexivity.
Qed.

End DropboxStoreChunk.

(** In the account in memory: a shard of two bytes is stored twice.  The
    second call finds the blob of the first, uploads nothing and returns 0. *)
Lemma dropbox_StoreChunk_dedup_witness :
  let backend := StorageDropbox.mkStorageDropbox "/repo" "/repo/chunks"
                   "/repo/snapshots" "/repo/repository.knox" in
  let data := [Byte.x68; Byte.x69] in
  let stored :=
    mkAccount {["/repo/chunks/ab/abcd.0_1" := data]} ["/repo/chunks/ab/abcd.0_1"] in
  StorageDropbox.StoreChunk backend "abcd" 0 1 data (mkAccount ∅ [])
    = (Returned (2, None), stored)
  /\ StorageDropbox.StoreChunk backend "abcd" 0 1 data stored
     = (Returned (0, None), stored).
Proof.
  intros backend data stored. split.
  - rewrite (proj2 (dropbox_StoreChunk_dedup backend "abcd" 0 1 data (mkAccount ∅ []))).
    + vm_compute. reflexivity.
    + intros entry H. vm_compute in H. discriminate H.
  - rewrite (proj1 (dropbox_StoreChunk_dedup backend "abcd" 0 1 data stored)
               (StorageDropbox.mkEntry 2)).
    + reflexivity.
    + vm_compute. reflexivity.
    + reflexivity.
Defined.

(** ** The store command: validation of the failure tolerance *)

Section StoreCommand.
Context {World : Type} `{!CmdStore.Env World}.
Implicit Types (cmd : CmdStore.CmdStore) (repository : Repository World).

Let backends repository : Z :=
  Z.of_nat (length (Backends (Repository_Backend repository))).

(** A tolerance equal to the number of backends is refused, in the world
    that [os.Getwd] leaves: [snapshot.Add] is not called. *)
Lemma store_tolerance_equal cmd repository targets w wd w1 :
  CmdStore.os_Getwd w = (Ok wd, w1) ->
  backends repository < uint_modulus ->
  CmdStore.FailureTolerance cmd = backends repository ->
  CmdStore.store cmd repository targets w = (Some ErrRedundancyAmount, w1).
Proof.
  unfold CmdStore.store, backends. intros -> Hn ->.
  rewrite (wrap_uint_small (Z.of_nat _)) by lia.
  now rewrite Z.sub_diag.
Qed.

(** A tolerance below the number of backends is accepted: [snapshot.Add]
    is called with [data_parts = N - t] and [parity_parts = t]. *)
Lemma store_tolerance_below cmd repository targets w wd w1 :
  CmdStore.os_Getwd w = (Ok wd, w1) ->
  backends repository < uint_modulus ->
  0 <= CmdStore.FailureTolerance cmd < backends repository ->
  CmdStore.store cmd repository targets w
  = CmdStore.snapshot_Add wd targets repository
      (bool_decide (CmdStore.strings_ToLower (CmdStore.Compression cmd) = "gzip"))
      (bool_decide (CmdStore.strings_ToLower (CmdStore.Encryption cmd) <> "none"))
      (backends repository - CmdStore.FailureTolerance cmd)
      (CmdStore.FailureTolerance cmd) w1.
Proof.
  unfold CmdStore.store, backends. intros -> Hn Ht.
  rewrite (wrap_uint_small (Z.of_nat _)) by lia.
  rewrite (wrap_uint_small (_ - _)) by lia.
  destruct (Z.leb_spec (Z.of_nat (length (Backends (Repository_Backend repository)))
                        - CmdStore.FailureTolerance cmd) 0); [lia | reflexivity].
Qed.

(** A tolerance above the number of backends is accepted as well: the
    difference of the two [uint]s wraps around, and [snapshot.Add] is
    called with [data_parts = 2^64 + N - t]. *)
Lemma store_tolerance_above cmd repository targets w wd w1 :
  CmdStore.os_Getwd w = (Ok wd, w1) ->
  backends repository < CmdStore.FailureTolerance cmd < uint_modulus ->
  CmdStore.store cmd repository targets w
  = CmdStore.snapshot_Add wd targets repository
      (bool_decide (CmdStore.strings_ToLower (CmdStore.Compression cmd) = "gzip"))
      (bool_decide (CmdStore.strings_ToLower (CmdStore.Encryption cmd) <> "none"))
      (uint_modulus + backends repository - CmdStore.FailureTolerance cmd)
      (CmdStore.FailureTolerance cmd) w1.
Proof.
  unfold CmdStore.store, backends. intros -> Ht.
  rewrite (wrap_uint_small (Z.of_nat _)) by lia.
  assert (Hw : wrap_uint (Z.of_nat (length (Backends (Repository_Backend repository)))
                          - CmdStore.FailureTolerance cmd)
               = uint_modulus
                 + Z.of_nat (length (Backends (Repository_Backend repository)))
                 - CmdStore.FailureTolerance cmd).
  { unfold wrap_uint. symmetry. apply (Z.mod_unique _ _ (-1)); lia. }
  rewrite Hw.
  destruct (Z.leb_spec (uint_modulus
                        + Z.of_nat (length (Backends (Repository_Backend repository)))
                        - CmdStore.FailureTolerance cmd) 0); [lia | reflexivity].
Qed.

End StoreCommand.

(** C4, at three backends and a failure tolerance of four: [store] does
    not return [ErrRedundancyAmount]; it calls [snapshot.Add] with
    [data_parts = 2^64 - 1] and [parity_parts = 4] and returns nil. *)
Theorem store_three_backends_tolerance_four :
  let repository :=
    mkRepository
      (mkBackendManager
         [unreachable_backend; unreachable_backend; unreachable_backend] 0) "secret" in
  CmdStore.store (CmdStore.mkCmdStore "nightly" "none" "aes" 4) repository ["/etc"] []
  = (None, [(18446744073709551615, 4)]).
Proof. vm_compute. reflexivity. Qed.

(** ** The backend manager: round-robin placement of shards *)

Lemma cursor_step (N last : Z) :
  0 <= last < N -> N < int_half - 1 ->
  (if N <? wrap_int (wrap_int (last + 1) + 1) then 0 else wrap_int (last + 1))
  = (last + 1) mod N.
Proof.
  intros Hl HN.
  rewrite (wrap_int_small (last + 1)) by (unfold int_half in *; lia).
  rewrite wrap_int_small by (unfold int_half in *; lia).
  destruct (Z.ltb_spec N (last + 1 + 1)).
  - assert (last + 1 = N) as -> by lia. now rewrite Z.mod_same by lia.
  - now rewrite Z.mod_small by lia.
Qed.

Lemma received_targets i log :
  received i log = Z.of_nat (length (filter (fun x => x = i) (map stored_on log))).
Proof.
  unfold received. f_equal.
  induction log as [|e log IH]; [reflexivity|].
  simpl. rewrite !filter_cons. simpl.
  destruct (decide (stored_on e = i)); simpl; now rewrite IH.
Qed.

Lemma div_succ (x N : Z) :
  0 < N ->
  (x + 1) / N = x / N + (if decide ((x + 1) mod N = 0) then 1 else 0).
Proof.
  intros HN. destruct (decide ((x + 1) mod N = 0)) as [H0|H0].
  - symmetry. apply (Z.div_unique _ _ _ 0); [lia|].
    pose proof (Z.div_mod (x + 1) N ltac:(lia)) as E. rewrite H0 in E.
    pose proof (Z.div_mod x N ltac:(lia)) as E'.
    pose proof (Z.mod_pos_bound x N HN).
    assert ((x + 1) / N = x / N + 1) by nia. nia.
  - symmetry. apply (Z.div_unique _ _ _ ((x + 1) mod N)).
    + left. apply Z.mod_pos_bound; lia.
    + pose proof (Z.div_mod (x + 1) N ltac:(lia)) as E.
      pose proof (Z.div_mod x N ltac:(lia)) as E'.
      pose proof (Z.mod_pos_bound x N HN).
      pose proof (Z.mod_pos_bound (x + 1) N HN).
      assert ((x + 1) / N = x / N) by nia. nia.
Qed.

Lemma count_targets (N : nat) (c : Z) (i M : nat) :
  (0 < N)%nat -> (i < N)%nat ->
  Z.of_nat (length (filter (fun x => x = i) (targets N c M)))
  = (Z.of_nat M + (Z.of_nat N - 1 - (Z.of_nat i - (c + 1)) mod Z.of_nat N))
      / Z.of_nat N.
Proof.
  intros HN Hi.
  pose proof (Z.mod_pos_bound (Z.of_nat i - (c + 1)) (Z.of_nat N) ltac:(lia)) as Ht.
  induction M as [|M IH].
  - simpl. symmetry. apply Z.div_small. lia.
  - unfold targets in *. rewrite seq_S, map_app, filter_app, length_app.
    rewrite Nat2Z.inj_add, IH. clear IH. simpl.
    rewrite Nat2Z.inj_succ.
    replace (Z.succ (Z.of_nat M) + (Z.of_nat N - 1 - (Z.of_nat i - (c + 1)) mod Z.of_nat N))
      with (Z.of_nat M + (Z.of_nat N - 1 - (Z.of_nat i - (c + 1)) mod Z.of_nat N) + 1) by lia.
    rewrite div_succ by lia. f_equal.
    rewrite filter_cons, filter_nil.
    pose proof (Z.mod_pos_bound (c + 1 + Z.of_nat M) (Z.of_nat N) ltac:(lia)) as Hm.
    assert (Heq : (Z.of_nat M + (Z.of_nat N - 1 - (Z.of_nat i - (c + 1)) mod Z.of_nat N) + 1)
                    mod Z.of_nat N
                  = ((c + 1 + Z.of_nat M) mod Z.of_nat N - Z.of_nat i) mod Z.of_nat N).
    { rewrite Zminus_mod_idemp_l.
      replace (Z.of_nat M + (Z.of_nat N - 1 - (Z.of_nat i - (c + 1)) mod Z.of_nat N) + 1)
        with (Z.of_nat M - (Z.of_nat i - (c + 1)) mod Z.of_nat N + 1 * Z.of_nat N) by lia.
      rewrite Z.mod_add by lia. rewrite Zminus_mod_idemp_r. f_equal. lia. }
    rewrite Heq.
    destruct (decide (Z.to_nat ((c + 1 + Z.of_nat M) mod Z.of_nat N) = i)) as [E|E].
    + assert ((c + 1 + Z.of_nat M) mod Z.of_nat N = Z.of_nat i) as -> by lia.
      rewrite Z.sub_diag, Z.mod_0_l by lia. reflexivity.
    + destruct (decide (((c + 1 + Z.of_nat M) mod Z.of_nat N - Z.of_nat i) mod Z.of_nat N = 0))
        as [E0|E0]; [|reflexivity].
      exfalso. apply E.
      apply Z.mod_divide in E0; [|lia]. destruct E0 as [q Hq].
      assert (q = 0) by nia. lia.
Qed.

Lemma received_bounds (N : nat) (c : Z) (i M : nat) (log : list Stored) :
  (0 < N)%nat -> (i < N)%nat ->
  map stored_on log = targets N c M ->
  Z.of_nat M / Z.of_nat N <= received i log
  <= (Z.of_nat M + Z.of_nat N - 1) / Z.of_nat N.
Proof.
  intros HN Hi Hlog. rewrite received_targets, Hlog, count_targets by assumption.
  pose proof (Z.mod_pos_bound (Z.of_nat i - (c + 1)) (Z.of_nat N) ltac:(lia)) as Ht.
  split; apply Z.div_le_mono; lia.
Qed.

Lemma chunk_calls_length N c chunk shards : forall m j,
  length (chunk_calls N c chunk m j shards) = length shards.
Proof. induction shards as [|data rest IH]; intros m j; simpl; [|rewrite IH]; reflexivity. Qed.

Lemma round_robin_calls_length N c (S : nat) chunks : forall m,
  Forall (fun chunk => exists shards, Data chunk = Some shards /\ length shards = S)
         chunks ->
  length (round_robin_calls N c m chunks) = (length chunks * S)%nat.
Proof.
  induction chunks as [|chunk rest IH]; intros m Hall; [reflexivity|].
  apply Forall_cons in Hall. destruct Hall as [(shards & Hdata & Hlen) Hall].
  simpl. rewrite Hdata, length_app, chunk_calls_length, IH by assumption.
  simpl. lia.
Qed.

Lemma chunk_calls_on N c chunk shards : forall m j,
  map stored_on (chunk_calls N c chunk m j shards)
  = map (fun k : nat => Z.to_nat ((c + 1 + Z.of_nat k) mod Z.of_nat N))
        (seq m (length shards)).
Proof.
  induction shards as [|data rest IH]; intros m j; simpl; [reflexivity|].
  now rewrite IH.
Qed.

Lemma round_robin_calls_on N c chunks : forall m,
  map stored_on (round_robin_calls N c m chunks)
  = map (fun k : nat => Z.to_nat ((c + 1 + Z.of_nat k) mod Z.of_nat N))
        (seq m (length (round_robin_calls N c m chunks))).
Proof.
  induction chunks as [|chunk rest IH]; intros m; simpl; [reflexivity|].
  rewrite map_app, length_app, seq_app, map_app, chunk_calls_on, chunk_calls_length.
  now rewrite IH.
Qed.

Lemma chunk_calls_shift N c (m0 : nat) chunk shards :
  (0 < N)%nat ->
  forall m j,
    chunk_calls N ((c + Z.of_nat m0) mod Z.of_nat N) chunk m j shards
    = chunk_calls N c chunk (m0 + m) j shards.
Proof.
  intros HN. induction shards as [|data rest IH]; intros m j; simpl; [reflexivity|].
  rewrite IH, Nat.add_succ_r. f_equal. f_equal. f_equal.
  replace ((c + Z.of_nat m0) mod Z.of_nat N + 1 + Z.of_nat m)
    with ((c + Z.of_nat m0) mod Z.of_nat N + (1 + Z.of_nat m)) by lia.
  rewrite Z.add_mod_idemp_l by lia. f_equal. lia.
Qed.

(** The calls that were made reach the backends in round-robin order, also
    when the last of them failed. *)
Lemma stored_until_targets N c err chunks log :
  stored_until err (round_robin_calls N c 0 chunks) log ->
  map stored_on log = targets N c (length log).
Proof.
  set (expected := round_robin_calls N c 0 chunks).
  assert (Hon : map stored_on expected = targets N c (length expected))
    by apply round_robin_calls_on.
  destruct err as [e|]; simpl.
  - intros (m & s & Hs & ->).
    assert (Hm : (m < length expected)%nat) by (eapply lookup_lt_Some; exact Hs).
    rewrite map_app, length_app, length_take. simpl.
    change [stored_on s] with (map stored_on [s]). rewrite <- map_app.
    rewrite <- (take_S_r expected m s Hs).
    rewrite <- firstn_map, Hon. unfold targets.
    rewrite firstn_map, take_seq. f_equal. f_equal. lia.
  - intros ->. exact Hon.
Qed.

Section RoundRobinSource.
Context {World : Type}.
Variable bes : list (Backend World).
Let N := length bes.
Hypothesis some_backend : (0 < N)%nat.
Hypothesis backends_fit : Z.of_nat N < int_half - 1.

(** The loop of [StoreChunk], with its cursor that is advanced and reset,
    places the shards as [round_robin] says. *)
Lemma StoreChunk_range_round_robin chunk (c : Z) shards :
  forall (j : nat) w,
    BackendManager.StoreChunk_range bes chunk (Z.of_nat j) shards
      ((c + Z.of_nat j) mod Z.of_nat N) w
    = (let '((k, err), w') := round_robin bes chunk c j shards w in
       (Returned ((c + Z.of_nat k) mod Z.of_nat N, stored_size chunk err), w')).
Proof.
  induction shards as [|data rest IH]; intros j w; [reflexivity|].
  pose proof (Z.mod_pos_bound (c + Z.of_nat j) (Z.of_nat N) ltac:(lia)) as Hlast.
  pose proof (Z.mod_pos_bound (c + 1 + Z.of_nat j) (Z.of_nat N) ltac:(lia)) as Hidx.
  simpl. fold N. rewrite cursor_step by assumption.
  assert (Hnext : ((c + Z.of_nat j) mod Z.of_nat N + 1) mod Z.of_nat N
                  = (c + 1 + Z.of_nat j) mod Z.of_nat N).
  { rewrite Z.add_mod_idemp_l by lia. f_equal. lia. }
  rewrite Hnext. unfold go_index.
  destruct (Z.ltb_spec ((c + 1 + Z.of_nat j) mod Z.of_nat N) 0); [lia|].
  destruct (lookup_lt_is_Some_2 bes (Z.to_nat ((c + 1 + Z.of_nat j) mod Z.of_nat N)))
    as [be ->]; [fold N; lia|].
  destruct (be_StoreChunk be (ShaSum chunk) (Z.of_nat j) (DataParts chunk) data w)
    as [[n|e] w1].
  - replace (Z.of_nat j + 1) with (Z.of_nat (S j)) by lia.
    replace ((c + 1 + Z.of_nat j) mod Z.of_nat N)
      with ((c + Z.of_nat (S j)) mod Z.of_nat N) by (f_equal; lia).
    apply IH.
  - replace (c + 1 + Z.of_nat j) with (c + Z.of_nat (S j)) by lia. reflexivity.
Qed.

End RoundRobinSource.

Section RoundRobin.
Context {World : Type}.
Variable bes : list (Backend World).
Let N := length bes.
Hypothesis some_backend : (0 < N)%nat.
Hypothesis backends_fit : Z.of_nat N < int_half - 1.

Lemma round_robin_observed chunk shards :
  forall (c : Z) (j : nat) w log,
    exists err w' new,
      round_robin (imap observed bes) chunk c j shards (w, log)
      = (((j + length new)%nat, err), (w', log ++ new))
      /\ stored_until err (chunk_calls N c chunk j j shards) new
      /\ (accepting bes -> err = None).
Proof.
  induction shards as [|data rest IH]; intros c j w log.
  - exists None, w, []. simpl. rewrite Nat.add_0_r, app_nil_r. auto.
  - pose proof (Z.mod_pos_bound (c + 1 + Z.of_nat j) (Z.of_nat N) ltac:(lia)) as Hidx.
    cbn [round_robin chunk_calls]. rewrite length_imap. fold N.
    set (idx := Z.to_nat ((c + 1 + Z.of_nat j) mod Z.of_nat N)).
    destruct (lookup_lt_is_Some_2 bes idx) as [be Hbe]; [unfold idx; fold N; lia|].
    rewrite list_lookup_imap, Hbe. cbn [fmap option_fmap option_map observed be_StoreChunk fst snd].
    destruct (be_StoreChunk be (ShaSum chunk) (Z.of_nat j) (DataParts chunk) data w)
      as [[n|e] w1] eqn:Hstore; cbn [error_of].
    + destruct (IH c (S j) w1
                  (log ++ [mkStored idx (ShaSum chunk) (Z.of_nat j) (DataParts chunk)
                             data None]))
        as (err & w' & new & Hrun & Huntil & Hacc).
      exists err, w',
        (mkStored idx (ShaSum chunk) (Z.of_nat j) (DataParts chunk) data None :: new).
      split; [|split].
      * rewrite Hrun, <- app_assoc. simpl length.
        replace (S j + length new)%nat with (j + S (length new))%nat by lia.
        reflexivity.
      * destruct err as [e|]; simpl in *.
        -- destruct Huntil as (m & s & Hs & ->). exists (S m), s.
           split; [exact Hs | reflexivity].
        -- now rewrite Huntil.
      * exact Hacc.
    + exists (Some e), w1,
        [mkStored idx (ShaSum chunk) (Z.of_nat j) (DataParts chunk) data (Some e)].
      split; [|split].
      * simpl length. replace (j + 1)%nat with (S j) by lia. reflexivity.
      * exists 0%nat, (mkStored idx (ShaSum chunk) (Z.of_nat j) (DataParts chunk)
                         data None).
        split; reflexivity.
      * intros Hacc.
        destruct (Hacc be (ShaSum chunk) (Z.of_nat j) (DataParts chunk) data w)
          as (n & w'' & Hok); [apply list_elem_of_lookup; eauto|].
        rewrite Hstore in Hok. discriminate Hok.
Qed.

Variable c : Z.

Lemma StoreChunk_observed chunk shards (m0 : nat) w log :
  Data chunk = Some shards ->
  exists r w' new,
    BackendManager.StoreChunk
      (mkBackendManager (imap observed bes) ((c + Z.of_nat m0) mod Z.of_nat N))
      chunk (w, log)
    = (Returned
         (mkBackendManager (imap observed bes)
            ((c + Z.of_nat (m0 + length new)) mod Z.of_nat N), r),
       (w', log ++ new))
    /\ stored_until (error_of r) (chunk_calls N c chunk m0 0 shards) new
    /\ (accepting bes -> error_of r = None).
Proof.
  intros Hdata. unfold BackendManager.StoreChunk. rewrite Hdata.
  cbn [Backends lastUsedBackend].
  pose proof (StoreChunk_range_round_robin (imap observed bes)) as Hspec.
  rewrite length_imap in Hspec. fold N in Hspec.
  specialize (Hspec some_backend backends_fit chunk
                ((c + Z.of_nat m0) mod Z.of_nat N) shards 0%nat (w, log)).
  change (Z.of_nat 0) with 0 in Hspec.
  rewrite Z.add_0_r, Z.mod_mod in Hspec by lia.
  rewrite Hspec. clear Hspec.
  destruct (round_robin_observed chunk shards ((c + Z.of_nat m0) mod Z.of_nat N)
              0%nat w log) as (err & w' & new & -> & Huntil & Hacc).
  exists (stored_size chunk err), w', new.
  assert (Herr : error_of (stored_size chunk err) = err) by (now destruct err).
  rewrite Herr. split; [|split].
  - rewrite Z.add_mod_idemp_l by lia.
    replace (c + Z.of_nat m0 + Z.of_nat (0 + length new))
      with (c + Z.of_nat (m0 + length new)) by lia.
    reflexivity.
  - rewrite chunk_calls_shift, Nat.add_0_r in Huntil by assumption. exact Huntil.
  - exact Hacc.
Qed.

Lemma store_chunks_observed chunks :
  Forall (fun chunk => Data chunk <> None) chunks ->
  forall (m0 : nat) w log,
    exists err w' new,
      store_chunks
        (mkBackendManager (imap observed bes) ((c + Z.of_nat m0) mod Z.of_nat N))
        chunks (w, log)
      = (Returned
           (mkBackendManager (imap observed bes)
              ((c + Z.of_nat (m0 + length new)) mod Z.of_nat N), err),
         (w', log ++ new))
      /\ stored_until err (round_robin_calls N c m0 chunks) new
      /\ (accepting bes -> err = None).
Proof.
  induction 1 as [|chunk rest Hdata _ IH]; intros m0 w log.
  - exists None, w, []. simpl. rewrite Nat.add_0_r, app_nil_r. auto.
  - destruct (Data chunk) as [shards|] eqn:Hd; [|contradiction].
    destruct (StoreChunk_observed chunk shards m0 w log Hd)
      as (r & w1 & new1 & Hrun1 & Hu1 & Hacc1).
    cbn [store_chunks round_robin_calls]. rewrite Hrun1, Hd. cbn [default id].
    destruct r as [n|e]; cbn [error_of] in *.
    + simpl in Hu1. subst new1. rewrite chunk_calls_length.
      destruct (IH (m0 + length shards)%nat w1
                  (log ++ chunk_calls N c chunk m0 0 shards))
        as (err & w' & new & Hrun & Hu & Hacc).
      exists err, w', (chunk_calls N c chunk m0 0 shards ++ new).
      split; [|split].
      * rewrite Hrun, <- app_assoc, length_app, chunk_calls_length.
        do 5 f_equal. lia.
      * destruct err as [e|]; simpl in *.
        -- destruct Hu as (m & s & Hs & ->).
           exists (length (chunk_calls N c chunk m0 0 shards) + m)%nat, s. split.
           ++ rewrite lookup_app_r by lia. rewrite <- Hs. f_equal. lia.
           ++ rewrite firstn_app_2, <- app_assoc. reflexivity.
        -- now rewrite Hu.
      * exact Hacc.
    + exists (Some e), w1, new1. split; [reflexivity|]. split.
      * destruct Hu1 as (m & s & Hs & ->). exists m, s. split.
        -- now apply lookup_app_l_Some.
        -- rewrite take_app_le; [reflexivity|].
           apply lookup_lt_Some in Hs. lia.
      * intros Hacc. specialize (Hacc1 Hacc). discriminate Hacc1.
Qed.

End RoundRobin.

(** C3.  Round-robin placement.  On a manager of [N >= 1] backends with the
    cursor [c], [0 <= c < N]:
    (1) [StoreChunk] does what [round_robin] says: it hands shard [j] of
    the chunk, in shard order, to the backend [(c + 1 + j) mod N], with the
    content address, [j], the number of data parts and the bytes of the
    shard; it stops at the first store that fails and returns the error of
    that store, and the size of the chunk when none fails; it leaves the
    world that these calls leave and the cursor [(c + k) mod N], [k] being
    the number of shards handed over: the index of the last backend used.
    (2) Whatever the backends answer, storing chunks one after the other
    makes the calls of [round_robin_calls], shard number [m] of all the
    shards going to the backend [(c + 1 + m) mod N], up to the first call
    that a backend refuses, whose error is the result; with [M] calls made
    the cursor is [(c + M) mod N] and every backend has received between
    [floor(M/N)] and [ceil(M/N)] of them; nothing fails when the backends
    accept every shard.
    (3) When the backends accept every shard, storing [K] chunks of [S]
    shards each succeeds and makes exactly the [K * S] calls of
    [round_robin_calls]: every backend receives between [floor(K*S/N)] and
    [ceil(K*S/N)] shards and the cursor is [(c + K*S) mod N]. *)
Theorem StoreChunk_round_robin {World} (bes : list (Backend World)) (c : Z) :
  let N := length bes in
  (1 <= N)%nat ->
  Z.of_nat N < int_half - 1 ->
  0 <= c < Z.of_nat N ->
  (forall chunk shards w,
      Data chunk = Some shards ->
      BackendManager.StoreChunk (mkBackendManager bes c) chunk w
      = (let '((k, err), w') := round_robin bes chunk c 0 shards w in
         (Returned (mkBackendManager bes ((c + Z.of_nat k) mod Z.of_nat N),
                    stored_size chunk err), w')))
  /\ (forall chunks w,
         Forall (fun chunk => Data chunk <> None) chunks ->
         exists backend' err w' log,
           store_chunks (mkBackendManager (imap observed bes) c) chunks (w, [])
           = (Returned (backend', err), (w', log))
           /\ Backends backend' = imap observed bes
           /\ lastUsedBackend backend'
              = (c + Z.of_nat (length log)) mod Z.of_nat N
           /\ stored_until err (round_robin_calls N c 0 chunks) log
           /\ map stored_on log = targets N c (length log)
           /\ (forall i, (i < N)%nat ->
                 Z.of_nat (length log) / Z.of_nat N <= received i log
                 <= (Z.of_nat (length log) + Z.of_nat N - 1) / Z.of_nat N)
           /\ (accepting bes -> err = None))
  /\ (forall (S : nat) chunks w,
         Forall (fun chunk =>
                   exists shards, Data chunk = Some shards /\ length shards = S)
                chunks ->
         accepting bes ->
         let total := Z.of_nat (length chunks * S) in
         let log := round_robin_calls N c 0 chunks in
         exists backend' w',
           store_chunks (mkBackendManager (imap observed bes) c) chunks (w, [])
           = (Returned (backend', None), (w', log))
           /\ Z.of_nat (length log) = total
           /\ lastUsedBackend backend' = (c + total) mod Z.of_nat N
           /\ forall i, (i < N)%nat ->
                total / Z.of_nat N <= received i log
                <= (total + Z.of_nat N - 1) / Z.of_nat N).
Proof.
  intros N HN Hfit Hc.
  assert (Hmany : forall chunks w,
             Forall (fun chunk => Data chunk <> None) chunks ->
             exists err w' log,
               store_chunks (mkBackendManager (imap observed bes) c) chunks (w, [])
               = (Returned
                    (mkBackendManager (imap observed bes)
                       ((c + Z.of_nat (length log)) mod Z.of_nat N), err),
                  (w', log))
               /\ stored_until err (round_robin_calls N c 0 chunks) log
               /\ (accepting bes -> err = None)).
  { intros chunks w Hall.
    destruct (store_chunks_observed bes HN Hfit c chunks Hall 0%nat w [])
      as (err & w' & log & Hrun & Huntil & Hacc).
    change (Z.of_nat 0) with 0 in Hrun.
    rewrite Z.add_0_r, Z.mod_small in Hrun by (fold N; lia).
    exists err, w', log. auto. }
  split; [|split].
  - intros chunk shards w Hdata.
    unfold BackendManager.StoreChunk. rewrite Hdata. cbn [Backends lastUsedBackend].
    pose proof (StoreChunk_range_round_robin bes HN Hfit chunk c shards 0%nat w)
      as Hspec.
    change (Z.of_nat 0) with 0 in Hspec.
    rewrite Z.add_0_r, Z.mod_small in Hspec by (fold N; lia).
    rewrite Hspec. fold N.
    destruct (round_robin bes chunk c 0 shards w) as [[k err] w']. reflexivity.
  - intros chunks w Hall.
    destruct (Hmany chunks w Hall) as (err & w' & log & Hrun & Huntil & Hacc).
    pose proof (stored_until_targets N c err chunks log Huntil) as Hon.
    eexists _, err, w', log. split; [exact Hrun|].
    repeat split; try assumption.
    + eapply received_bounds; eauto.
    + eapply received_bounds; eauto.
  - intros S chunks w Hall Hacc total log.
    destruct (Hmany chunks w) as (err & w' & log' & Hrun & Huntil & Hnone).
    { eapply Forall_impl; [exact Hall|]. intros chunk (shards & -> & _). discriminate. }
    rewrite (Hnone Hacc) in *. simpl in Huntil. subst log'.
    pose proof (round_robin_calls_length N c S chunks 0%nat Hall) as Hlen.
    pose proof (stored_until_targets N c None chunks log eq_refl) as Hon.
    fold log in Hrun, Hlen. unfold total.
    eexists _, w'. split; [exact Hrun|]. rewrite <- Hlen.
    repeat split.
    + eapply received_bounds; eauto.
    + eapply received_bounds; eauto.
Qed.

(** Three backends that accept every shard, from the cursor 0.  One chunk
    of two shards: the shards go to the backends "b" and "c", and the
    cursor is left at 2.  Two such chunks: the shards go to the backends 1,
    2, 0, 1, each with its part number and bytes; every backend receives
    one or two of the four shards and the cursor ends at 1. *)
Lemma StoreChunk_round_robin_witness :
  let bes := [logging_backend "a" true []; logging_backend "b" true [];
              logging_backend "c" true []] in
  let chunk := mkChunk (Some [[Byte.x01]; [Byte.x02]]) 1 1 2 2 "ab" "ab" 0
                 CompressionNone EncryptionNone in
  let log := [mkStored 1 "ab" 0 1 [Byte.x01] None;
              mkStored 2 "ab" 1 1 [Byte.x02] None;
              mkStored 0 "ab" 0 1 [Byte.x01] None;
              mkStored 1 "ab" 1 1 [Byte.x02] None] in
  BackendManager.StoreChunk (mkBackendManager bes 0) chunk []
  = (Returned (mkBackendManager bes 2, Ok 2), ["b"; "c"])
  /\ exists backend' w',
      store_chunks (mkBackendManager (imap observed bes) 0) [chunk; chunk] ([], [])
      = (Returned (backend', None), (w', log))
      /\ Z.of_nat (length log) = 4
      /\ lastUsedBackend backend' = (0 + 4) mod 3
      /\ forall i, (i < 3)%nat -> 4 / 3 <= received i log <= (4 + 3 - 1) / 3.
Proof.
  intros bes chunk log.
  destruct (StoreChunk_round_robin bes 0) as (Hone & _ & Hmany).
  - simpl. lia.
  - vm_compute. reflexivity.
  - simpl. lia.
  - split.
    + rewrite (Hone chunk [[Byte.x01]; [Byte.x02]] [] eq_refl). reflexivity.
    + apply (Hmany 2%nat [chunk; chunk] []).
      * repeat constructor; exists [[Byte.x01]; [Byte.x02]]; split; reflexivity.
      * intros be sha part total data w Hin.
        repeat (apply elem_of_cons in Hin; destruct Hin as [->|Hin]);
          try (eexists _, _; reflexivity).
        inversion Hin.
Defined.

(** ** The chunk loader: erasure tolerance *)

Lemma avail_count_nonneg avail first n : 0 <= avail_count avail first n.
Proof.
  revert first. induction n as [|n IH]; intros first; simpl; [lia|].
  specialize (IH (first + 1)). destruct (avail first); lia.
Qed.

Lemma present_nonneg pars : 0 <= present pars.
Proof. unfold present. lia. Qed.

Lemma present_replicate n : present (replicate n None) = 0.
Proof.
  unfold present. induction n as [|n IH]; [reflexivity|].
  simpl. rewrite filter_cons.
  destruct (decide (is_Some (@None bytes))) as [[? H]|_]; [discriminate H | exact IH].
Qed.

Lemma present_insert (pars : list (option bytes)) (i : nat) b :
  pars !! i = Some None ->
  present (<[i := Some b]> pars) = present pars + 1.
Proof.
  unfold present. revert i. induction pars as [|s pars IH]; intros i Hi.
  - discriminate Hi.
  - destruct i as [|i]; simpl in *.
    + inversion Hi; subst. rewrite !filter_cons.
      destruct (decide (is_Some (Some b))) as [_|H]; [|exfalso; apply H; eauto].
      destruct (decide (is_Some (@None bytes))) as [[? H]|_]; [discriminate H|].
      simpl. lia.
    + rewrite !filter_cons. specialize (IH i Hi).
      destruct (decide (is_Some s)); simpl; lia.
Qed.

Section LoadChunk.
Context {World : Type} `{!Codecs}.
Variables (repository : Repository World) (chunk : Chunk).
Variables (avail : Z -> option bytes) (enc : rs_Encoder).
Hypothesis Havail : shards_available repository chunk avail.

Lemma load_available i w b :
  avail i = Some b ->
  exists w',
    BackendManager.LoadChunk (Repository_Backend repository) chunk i w = (Ok b, w').
Proof.
  intros Hi. pose proof (Havail i w) as Hld. rewrite Hi in Hld.
  destruct (BackendManager.LoadChunk _ chunk i w) as [r w']. simpl in Hld. subst.
  now exists w'.
Qed.

Lemma load_missing i w :
  avail i = None ->
  exists e w',
    BackendManager.LoadChunk (Repository_Backend repository) chunk i w = (Err e, w').
Proof.
  intros Hi. pose proof (Havail i w) as Hld. rewrite Hi in Hld.
  destruct (BackendManager.LoadChunk _ chunk i w) as [r w']. simpl in Hld.
  destruct Hld as [e ->]. now exists e, w'.
Qed.

Lemma loadChunk_loop_too_few n :
  forall i pars parsFound parsMissing w,
    0 <= i -> i + Z.of_nat n < uint_modulus ->
    0 <= parsFound ->
    parsFound + avail_count avail i n < DataParts chunk ->
    DataParts chunk < uint_modulus ->
    exists w',
      loadChunk_loop n i enc repository chunk pars parsFound parsMissing w
      = (Err (DataReconstructionError chunk
                (parsFound + avail_count avail i n)
                (DataParts chunk - (parsFound + avail_count avail i n))), w').
Proof.
  induction n as [|n IH]; intros i pars pf pm w Hi Hin Hpf Hfew Hd.
  - simpl. rewrite Z.add_0_r. rewrite wrap_uint_small by (simpl in Hfew; lia).
    now exists w.
  - simpl in *. rewrite (wrap_uint_small i) by lia.
    pose proof (avail_count_nonneg avail (i + 1) n) as Hrest.
    destruct (avail i) as [b|] eqn:Hav.
    + destruct (load_available i w b Hav) as (w1 & ->).
      rewrite (wrap_uint_small (pf + 1)) by lia.
      destruct (Z.leb_spec (DataParts chunk) (pf + 1)); [lia|].
      destruct (IH (i + 1) (<[Z.to_nat i := Some b]> pars) (pf + 1) pm w1)
        as (w' & ->); try lia.
      exists w'. do 3 f_equal; lia.
    + destruct (load_missing i w Hav) as (e & w1 & ->).
      destruct (IH (i + 1) (<[Z.to_nat i := None]> pars) pf (wrap_int (pm + 1)) w1)
        as (w' & ->); try lia.
      exists w'. do 3 f_equal; lia.
Qed.

Variables (total : nat) (buf : bytes).
Hypothesis total_fits : Z.of_nat total < int_half.
Hypothesis Hrecovers : recovers enc avail total (DataParts chunk) (Size chunk) buf.

Lemma loadChunk_loop_enough n :
  forall (i : nat) pars parsFound parsMissing w,
    (i + n = total)%nat ->
    length pars = total ->
    (forall (j : nat) b, pars !! j = Some (Some b) -> avail (Z.of_nat j) = Some b) ->
    (forall j : nat, (i <= j < total)%nat -> pars !! j = Some None) ->
    present pars = parsFound ->
    parsFound + parsMissing = Z.of_nat i ->
    0 <= parsFound < DataParts chunk ->
    0 <= parsMissing ->
    (parsMissing = 0 ->
     forall j : nat, (j < i)%nat -> exists b, pars !! j = Some (Some b)) ->
    DataParts chunk <= parsFound + avail_count avail (Z.of_nat i) n ->
    exists w',
      loadChunk_loop n (Z.of_nat i) enc repository chunk pars parsFound
        parsMissing w
      = (decodeChunk repository chunk buf, w').
Proof.
  induction n as [|n IH];
    intros i pars pf pm w Hin Hlen Hcons Hrest Hpres Hsum Hpf Hpm Hlead Henough.
  - simpl in Henough. lia.
  - simpl in *. unfold int_half, uint_modulus in *.
    rewrite (wrap_uint_small (Z.of_nat i)) by (unfold uint_modulus; lia).
    rewrite Nat2Z.id.
    replace (Z.of_nat i + 1) with (Z.of_nat (S i)) in * by lia.
    destruct (avail (Z.of_nat i)) as [b|] eqn:Hav.
    + destruct (load_available _ w b Hav) as (w1 & ->).
      rewrite (wrap_uint_small (pf + 1)) by (unfold uint_modulus; lia).
      set (pars1 := <[i := Some b]> pars).
      assert (Hlen1 : length pars1 = total) by (unfold pars1; now rewrite length_insert).
      assert (Hcons1 : forall (j : nat) b', pars1 !! j = Some (Some b') ->
                                            avail (Z.of_nat j) = Some b').
      { intros j b' Hj. unfold pars1 in Hj. destruct (decide (i = j)) as [<-|Hne].
        - rewrite list_lookup_insert_eq in Hj by lia. congruence.
        - rewrite list_lookup_insert_ne in Hj by assumption. eauto. }
      assert (Hpres1 : present pars1 = pf + 1).
      { unfold pars1. rewrite present_insert; [lia|]. apply Hrest. lia. }
      assert (Hlead1 : pm = 0 -> forall j : nat, (j < S i)%nat ->
                                 exists b', pars1 !! j = Some (Some b')).
      { intros Hz j Hj. unfold pars1. destruct (decide (i = j)) as [<-|Hne].
        - exists b. rewrite list_lookup_insert_eq by lia. reflexivity.
        - rewrite list_lookup_insert_ne by assumption. apply Hlead; [assumption | lia]. }
      destruct (Z.leb_spec (DataParts chunk) (pf + 1)) as [Hreach|Hbelow].
      * destruct (Hrecovers pars1 Hlen1 Hcons1 ltac:(lia))
          as [(pars' & Hrec & Hjoin) Hjoin0].
        destruct (Z.ltb_spec 0 pm) as [Hmiss|Hnone].
        -- rewrite Hrec, Hjoin. now exists w1.
        -- rewrite Hjoin0; [now exists w1|].
           intros j Hj. apply Hlead1; lia.
      * apply IH; try assumption; try lia.
        intros j Hj. unfold pars1. rewrite list_lookup_insert_ne by lia.
        apply Hrest. lia.
    + destruct (load_missing _ w Hav) as (e & w1 & ->).
      rewrite list_insert_id by (apply Hrest; lia).
      rewrite (wrap_int_small (pm + 1)) by (unfold int_half; lia).
      apply IH; try assumption; try lia.
      intros j Hj. apply Hrest. lia.
Qed.

End LoadChunk.

(** C2, as the code has it.  For a chunk of shape [(d, p)], [d >= 1] and
    [p >= 1], whose shards can or cannot be loaded as [avail] says:
    if at least [d] of the [d + p] shards can be loaded and the coder gets
    the encoded payload [buf] back from any [d] of them, [loadChunk] returns
    what [decodeChunk] makes of [buf], the output of [Join] for
    [chunk.Size] bytes (after [Reconstruct] when a load has failed);
    if fewer than [d] shards can be loaded, it fails with a
    [DataReconstructionError] whose [BlocksFound] is the number [found] of
    shards loaded and whose [FailedBackends] is [d - found], the number of
    shards that were still needed. *)
Theorem loadChunk_erasure_tolerance {World} `{!Codecs}
    (repository : Repository World) (chunk : Chunk)
    (avail : Z -> option bytes) (enc : rs_Encoder) (w : World) :
  let d := DataParts chunk in
  let p := ParityParts chunk in
  let total := Z.to_nat (d + p) in
  let found := avail_count avail 0 total in
  0 < d -> 0 < p -> d + p < int_half ->
  reedsolomon_New d p = Ok enc ->
  shards_available repository chunk avail ->
  (forall buf,
      d <= found ->
      recovers enc avail total d (Size chunk) buf ->
      exists w',
        loadChunk repository chunk w
        = (Returned (decodeChunk repository chunk buf), w'))
  /\ (found < d ->
      exists w',
        loadChunk repository chunk w
        = (Returned (Err (DataReconstructionError chunk found (d - found))), w')).
Proof.
  intros d p total found Hd Hp Hfit Hnew Havail.
  assert (Hhead :
             loadChunk repository chunk w
             = (let '(r, w') :=
                  loadChunk_loop total 0 enc repository chunk
                    (replicate total None) 0 0 w in
                (Returned r, w'))).
  { unfold loadChunk. fold d p.
    destruct (Z.ltb_spec 0 p); [|lia].
    unfold int_half, uint_modulus in *.
    rewrite !wrap_int_small by (unfold int_half; lia). rewrite Hnew.
    rewrite (wrap_uint_small (d + p)) by (unfold uint_modulus; lia).
    rewrite wrap_int_small by (unfold int_half; lia).
    destruct (Z.ltb_spec (d + p) 0); [lia | reflexivity]. }
  split.
  - intros buf Henough Hrec.
    destruct (loadChunk_loop_enough repository chunk avail enc Havail total buf
                ltac:(lia) Hrec total 0%nat (replicate total None) 0 0 w)
      as (w' & Hloop); try lia.
    + apply length_replicate.
    + intros j b Hj. apply lookup_replicate in Hj. destruct Hj as [Hj _]. discriminate Hj.
    + intros j Hj. apply lookup_replicate. split; [reflexivity | lia].
    + apply present_replicate.
    + exact Henough.
    + exists w'. rewrite Hhead. change (Z.of_nat 0) with 0 in Hloop.
      now rewrite Hloop.
  - intros Hfew.
    destruct (loadChunk_loop_too_few repository chunk avail enc Havail total 0
                (replicate total None) 0 0 w) as (w' & Hloop);
      try (unfold int_half, uint_modulus in *; lia).
    exists w'. rewrite Hhead, Hloop. reflexivity.
Qed.

(** A chunk of shape (1, 2) under the copying coder, the first shard lost:
    the chunk is read from the second. *)
Lemma loadChunk_erasure_tolerance_witness :
  let data := [Byte.x68; Byte.x69] in
  let shards := [None; Some data; Some data] in
  let repository := mkRepository (mkBackendManager [shard_backend shards] 0) "secret" in
  let chunk := mkChunk None 1 2 2 2 "hi" "hi" 0 CompressionNone EncryptionNone in
  exists w', loadChunk repository chunk () = (Returned (Ok data), w').
Proof.
  intros data shards repository chunk.
  pose (avail := fun i : Z =>
                   match go_index shards i with Some (Some b) => Some b | _ => None end).
  destruct (loadChunk_erasure_tolerance repository chunk avail
              ((1, 2) : @rs_Encoder copy_codecs) ()) as [Hok _].
  - reflexivity.
  - reflexivity.
  - reflexivity.
  - reflexivity.
  - intros i w. unfold avail, BackendManager.LoadChunk. simpl.
    destruct (go_index shards i) as [[b|]|]; simpl; eauto.
  - apply (Hok data).
    + vm_compute. discriminate.
    + intros pars Hlen Hcons Hpres.
      destruct pars as [|s0 [|s1 [|s2 [|? ?]]]]; try discriminate Hlen.
      assert (H0 : s0 = None).
      { destruct s0 as [b|]; [|reflexivity].
        specialize (Hcons 0%nat b eq_refl). discriminate Hcons. }
      assert (H1 : s1 = None \/ s1 = Some data).
      { destruct s1 as [b|]; [right | now left].
        specialize (Hcons 1%nat b eq_refl). inversion Hcons. reflexivity. }
      assert (H2 : s2 = None \/ s2 = Some data).
      { destruct s2 as [b|]; [right | now left].
        specialize (Hcons 2%nat b eq_refl). inversion Hcons. reflexivity. }
      subst s0. split.
      * destruct H1 as [-> | ->], H2 as [-> | ->];
          [ exfalso; apply Hpres; reflexivity
          | exists [None; None; Some data]
          | exists [None; Some data; None]
          | exists [None; Some data; Some data] ];
          split; reflexivity.
      * intros Hlead. destruct (Hlead 0%nat ltac:(simpl; lia)) as [b Hb].
        discriminate Hb.
Defined.

(** C2 as stated fails: a chunk of shape (2, 1) of which the backend holds
    the first shard only.  One load succeeds and two fail; the error is
    [DataReconstructionError] with [BlocksFound = 1] and
    [FailedBackends = 1], not 2. *)
Lemma loadChunk_failed_backends_counterexample :
  let shards := [Some [Byte.x68]; None; None] in
  let repository := mkRepository (mkBackendManager [shard_backend shards] 0) "secret" in
  let chunk := mkChunk None 2 1 2 2 "hi" "hi" 0 CompressionNone EncryptionNone in
  (loadChunk repository chunk ()).1
  = Returned (Err (DataReconstructionError chunk 1 1))
  /\ ~ reconstruction_error_counts_loads repository chunk ().
Proof.
  intros shards repository chunk. split.
  - vm_compute. reflexivity.
  - unfold reconstruction_error_counts_loads. vm_compute. intros H. discriminate H.
Qed.

(** ** Looking chunks up by their number *)

Lemma indexOfChunk_range_find chunks : forall base i,
  match chunk_of_num chunks i with
  | Some c =>
      exists k : nat,
        indexOfChunk_range chunks base i = Ok (base + Z.of_nat k)
        /\ chunks !! k = Some c
  | None => indexOfChunk_range chunks base i = Err (ChunkError i)
  end.
Proof.
  unfold chunk_of_num.
  induction chunks as [|c chunks IH]; intros base i; simpl; [reflexivity|].
  destruct (Z.eqb_spec (Num c) i) as [Heq|Hne].
  - exists 0%nat. split; [f_equal; lia | reflexivity].
  - specialize (IH (base + 1) i).
    destruct (find (fun c => Num c =? i) chunks) as [c'|]; [|assumption].
    destruct IH as (k & -> & Hk). exists (S k). split; [f_equal; lia | assumption].
Qed.

(** The two lines [idx, err := indexOfChunk(arc, i)] and
    [chunk := arc.Chunks[idx]]. *)
Lemma indexOfChunk_found arc i c :
  chunk_of_num (Chunks arc) i = Some c ->
  exists idx, indexOfChunk arc i = Ok idx /\ go_index (Chunks arc) idx = Some c.
Proof.
  intros Hfind. pose proof (indexOfChunk_range_find (Chunks arc) 0 i) as H.
  rewrite Hfind in H. destruct H as (k & Hidx & Hk).
  exists (Z.of_nat k). split; [exact Hidx|].
  unfold go_index. destruct (Z.ltb_spec (Z.of_nat k) 0); [lia|].
  now rewrite Nat2Z.id.
Qed.

Lemma indexOfChunk_missing arc i :
  chunk_of_num (Chunks arc) i = None ->
  indexOfChunk arc i = Err (ChunkError i).
Proof.
  intros Hfind. pose proof (indexOfChunk_range_find (Chunks arc) 0 i) as H.
  now rewrite Hfind in H.
Qed.

Lemma chunk_of_num_Some chunks i c :
  chunk_of_num chunks i = Some c -> c ∈ chunks /\ Num c = i.
Proof.
  unfold chunk_of_num. intros H. apply find_some in H. destruct H as [Hin Hnum].
  split; [now apply list_elem_of_In | lia].
Qed.

Lemma chunk_of_num_None chunks i :
  chunk_of_num chunks i = None -> forall c, c ∈ chunks -> Num c <> i.
Proof.
  unfold chunk_of_num. intros H c Hin.
  apply list_elem_of_In in Hin.
  pose proof (find_none _ _ H c Hin) as Hc. simpl in Hc. lia.
Qed.

Lemma Num_inj_of_NoDup chunks c1 c2 :
  NoDup (map Num chunks) -> c1 ∈ chunks -> c2 ∈ chunks -> Num c1 = Num c2 -> c1 = c2.
Proof.
  induction chunks as [|c chunks IH]; intros Hnd H1 H2 Heq.
  - inversion H1.
  - simpl in Hnd. apply NoDup_cons in Hnd. destruct Hnd as [Hnot Hnd].
    apply elem_of_cons in H1. apply elem_of_cons in H2.
    destruct H1 as [->|H1], H2 as [->|H2]; auto.
    + exfalso. apply Hnot. rewrite Heq. apply list_elem_of_fmap. eauto.
    + exfalso. apply Hnot. rewrite <- Heq. apply list_elem_of_fmap. eauto.
Qed.

(** Under distinct numbers the lookup does not depend on the order in
    which the chunks are stored. *)
Lemma chunk_of_num_Permutation chunks chunks' i :
  Permutation chunks chunks' ->
  NoDup (map Num chunks) ->
  chunk_of_num chunks i = chunk_of_num chunks' i.
Proof.
  intros Hperm Hnd.
  destruct (chunk_of_num chunks i) as [c|] eqn:H1,
           (chunk_of_num chunks' i) as [c'|] eqn:H2; try reflexivity.
  - apply chunk_of_num_Some in H1, H2. destruct H1 as [Hin1 Hn1], H2 as [Hin2 Hn2].
    f_equal. apply (Num_inj_of_NoDup chunks); try assumption; [|congruence].
    now rewrite Hperm.
  - apply chunk_of_num_Some in H1. destruct H1 as [Hin1 Hn1].
    exfalso. apply (chunk_of_num_None _ _ H2 c); [|assumption]. now rewrite <- Hperm.
  - apply chunk_of_num_Some in H2. destruct H2 as [Hin2 Hn2].
    exfalso. apply (chunk_of_num_None _ _ H1 c'); [|assumption]. now rewrite Hperm.
Qed.

Lemma numbered_NoDup cs : numbered cs -> NoDup (map Num cs).
Proof.
  intros Hnum. apply NoDup_alt. intros i j x Hi Hj.
  change (map Num cs) with (Num <$> cs) in Hi, Hj.
  rewrite list_lookup_fmap in Hi, Hj.
  destruct (cs !! i) as [ci|] eqn:Hci; [|discriminate Hi].
  destruct (cs !! j) as [cj|] eqn:Hcj; [|discriminate Hj].
  apply Hnum in Hci, Hcj. simpl in Hi, Hj. inversion Hi. inversion Hj. lia.
Qed.

Lemma chunk_of_num_numbered cs (i : nat) :
  numbered cs -> chunk_of_num cs (Z.of_nat i) = cs !! i.
Proof.
  intros Hnum.
  destruct (chunk_of_num cs (Z.of_nat i)) as [c|] eqn:Hfind.
  - apply chunk_of_num_Some in Hfind. destruct Hfind as [Hin Hn].
    apply list_elem_of_lookup in Hin. destruct Hin as [j Hj].
    pose proof (Hnum j c Hj). assert (j = i) by lia. now subst.
  - destruct (cs !! i) as [c|] eqn:Hi; [|reflexivity].
    exfalso. apply (chunk_of_num_None _ _ Hfind c).
    + apply list_elem_of_lookup. eauto.
    + now apply Hnum.
Qed.

(** An archive whose chunk list is a permutation of the numbered [cs]. *)
Lemma chunk_of_num_archive arc cs (i : nat) :
  Permutation (Chunks arc) cs -> numbered cs ->
  chunk_of_num (Chunks arc) (Z.of_nat i) = cs !! i.
Proof.
  intros Hperm Hnum. rewrite <- (chunk_of_num_numbered cs i Hnum).
  symmetry. apply chunk_of_num_Permutation.
  - now symmetry.
  - now apply numbered_NoDup.
Qed.

(** ** Whole-archive decoding *)

Section DecodeArchiveData.
Context {World : Type} `{!Codecs}.
Variable repository : Repository World.

Lemma DecodeArchiveData_loop_ext arc arc' :
  (forall j, chunk_of_num (Chunks arc) j = chunk_of_num (Chunks arc') j) ->
  forall n i dat stats st,
    DecodeArchiveData_loop n i repository arc dat stats st
    = DecodeArchiveData_loop n i repository arc' dat stats st.
Proof.
  intros Hsame. induction n as [|n IH]; intros i dat stats st; simpl; [reflexivity|].
  destruct (chunk_of_num (Chunks arc) i) as [c|] eqn:Hfind.
  - destruct (indexOfChunk_found arc i c Hfind) as (idx & -> & ->).
    rewrite Hsame in Hfind.
    destruct (indexOfChunk_found arc' i c Hfind) as (idx' & -> & ->).
    destruct (mutex_locked st); [reflexivity|].
    destruct (cache st !! ShaSum c) as [cacheData|]; [apply IH|].
    destruct (loadChunk repository c (world st)) as [[[finalData|err]|e|] w];
      try reflexivity.
    apply IH.
  - rewrite (indexOfChunk_missing arc i Hfind).
    rewrite Hsame in Hfind. now rewrite (indexOfChunk_missing arc' i Hfind).
Qed.

Lemma cache_coherent_insert plain cs cached c :
  content_addressed plain cs -> c ∈ cs ->
  cache_coherent plain cs cached ->
  cache_coherent plain cs (<[ShaSum c := plain c]> cached).
Proof.
  intros Haddr Hc Hcoh c2 d Hc2 Hlook.
  destruct (decide (ShaSum c = ShaSum c2)) as [Heq|Hne].
  - rewrite Heq, lookup_insert_eq in Hlook. inversion Hlook; subst.
    now apply Haddr.
  - rewrite lookup_insert_ne in Hlook by assumption. eauto.
Qed.

Section Decodes.
Variables (arc : ItemData) (cs : list Chunk) (plain : Chunk -> bytes).
Hypothesis Hperm : Permutation (Chunks arc) cs.
Hypothesis Hnum : numbered cs.
Hypothesis Hfits : Z.of_nat (length cs) < uint_modulus.
Hypothesis Hdec : decodes_to repository plain cs.
Hypothesis Haddr : content_addressed plain cs.

Lemma DecodeArchiveData_loop_decodes n :
  forall (i : nat) dat stats st,
    (i + n = length cs)%nat ->
    ready plain cs st ->
    exists stats' st',
      DecodeArchiveData_loop n (Z.of_nat i) repository arc dat stats st
      = Returned ((dat ++ file_of plain (drop i cs), stats', None), st')
      /\ ready plain cs st'.
Proof.
  induction n as [|n IH]; intros i dat stats st Hin [Hfree Hcoh].
  - simpl. rewrite drop_ge by lia. unfold file_of. simpl. rewrite app_nil_r.
    eexists _, st. split; [reflexivity | now split].
  - simpl.
    destruct (lookup_lt_is_Some_2 cs i ltac:(lia)) as [c Hc].
    assert (Hin_cs : c ∈ cs) by (apply list_elem_of_lookup; eauto).
    pose proof (chunk_of_num_archive arc cs i Hperm Hnum) as Hfind.
    rewrite Hc in Hfind.
    destruct (indexOfChunk_found arc _ c Hfind) as (idx & -> & ->).
    rewrite Hfree.
    rewrite (wrap_uint_small (Z.of_nat i + 1)) by lia.
    replace (Z.of_nat i + 1) with (Z.of_nat (S i)) by lia.
    rewrite (drop_S _ _ _ Hc). unfold file_of. simpl. fold (file_of plain (drop (S i) cs)).
    rewrite app_assoc.
    destruct (cache st !! ShaSum c) as [cacheData|] eqn:Hcache.
    + rewrite (Hcoh c cacheData Hin_cs Hcache). apply IH; [lia|]. now split.
    + destruct (Hdec c (world st) Hin_cs) as (w' & ->).
      apply IH; [lia|]. split; [reflexivity|]. simpl.
      now apply cache_coherent_insert.
Qed.

End Decodes.

Lemma chunk_of_num_exists chunks i :
  (exists c, c ∈ chunks /\ Num c = i) ->
  exists c, chunk_of_num chunks i = Some c /\ c ∈ chunks.
Proof.
  intros (c & Hin & Hn). destruct (chunk_of_num chunks i) as [c'|] eqn:Hfind.
  - exists c'. split; [reflexivity|]. now apply chunk_of_num_Some in Hfind.
  - exfalso. now apply (chunk_of_num_None _ _ Hfind c).
Qed.

Lemma chunk_of_num_absent chunks i :
  (forall c, c ∈ chunks -> Num c <> i) -> chunk_of_num chunks i = None.
Proof.
  intros Hno. destruct (chunk_of_num chunks i) as [c|] eqn:Hfind; [|reflexivity].
  apply chunk_of_num_Some in Hfind. destruct Hfind as [Hin Hn].
  exfalso. now apply (Hno c).
Qed.

Lemma DecodeArchiveData_loop_missing arc plain (i : nat) :
  Z.of_nat (length (Chunks arc)) < uint_modulus ->
  (i < length (Chunks arc))%nat ->
  (forall c, c ∈ Chunks arc -> Num c <> Z.of_nat i) ->
  (forall j : nat, (j < i)%nat -> exists c, c ∈ Chunks arc /\ Num c = Z.of_nat j) ->
  decodes_to repository plain (Chunks arc) ->
  forall n (j : nat) dat stats st,
    (j <= i < j + n)%nat ->
    mutex_locked st = false ->
    exists dat' stats' st',
      DecodeArchiveData_loop n (Z.of_nat j) repository arc dat stats st
      = Returned ((dat', stats', Some (ChunkError (Z.of_nat i))), st').
Proof.
  intros Hfits Hi Hno Hbelow Hdec.
  induction n as [|n IH]; intros j dat stats st Hj Hfree; [lia|].
  simpl. destruct (decide (j = i)) as [->|Hne].
  - rewrite (indexOfChunk_missing arc _ (chunk_of_num_absent _ _ Hno)).
    now eexists _, _, _.
  - destruct (chunk_of_num_exists (Chunks arc) (Z.of_nat j) (Hbelow j ltac:(lia)))
      as (c & Hfind & Hin).
    destruct (indexOfChunk_found arc _ c Hfind) as (idx & -> & ->).
    rewrite Hfree.
    rewrite (wrap_uint_small (Z.of_nat j + 1)) by lia.
    replace (Z.of_nat j + 1) with (Z.of_nat (S j)) by lia.
    destruct (cache st !! ShaSum c) as [cacheData|].
    + apply IH; [lia | reflexivity].
    + destruct (Hdec c (world st) Hin) as (w' & ->). apply IH; [lia | reflexivity].
Qed.

Lemma DecodeArchiveData_loop_success_found arc n :
  forall i dat stats st dat' stats' st',
    0 <= i -> i + Z.of_nat n < uint_modulus ->
    DecodeArchiveData_loop n i repository arc dat stats st
    = Returned ((dat', stats', None), st') ->
    forall j, i <= j < i + Z.of_nat n ->
              exists c, chunk_of_num (Chunks arc) j = Some c.
Proof.
  induction n as [|n IH]; intros i dat stats st dat' stats' st' Hi Hfit Hrun j Hj;
    [lia|].
  simpl in Hrun.
  destruct (chunk_of_num (Chunks arc) i) as [c|] eqn:Hfind.
  - destruct (indexOfChunk_found arc i c Hfind) as (idx & Hidx & Hat).
    rewrite Hidx, Hat in Hrun.
    destruct (decide (j = i)) as [->|Hne]; [eauto|].
    rewrite (wrap_uint_small (i + 1)) in Hrun by lia.
    destruct (mutex_locked st); [discriminate Hrun|].
    destruct (cache st !! ShaSum c) as [cacheData|].
    + eapply IH; [| |exact Hrun|]; lia.
    + destruct (loadChunk repository c (world st)) as [[[finalData|err]|pe|] w];
        try discriminate Hrun.
      eapply IH; [| |exact Hrun|]; lia.
  - rewrite (indexOfChunk_missing arc i Hfind) in Hrun. discriminate Hrun.
Qed.

(** A decode that succeeds has found a chunk for every number below
    [len(chunks)]: the numbers of the chunks are distinct. *)
Lemma DecodeArchiveData_success_NoDup arc st dat stats st' :
  Type_ arc = File ->
  Z.of_nat (length (Chunks arc)) < uint_modulus ->
  DecodeArchiveData repository arc st = Returned ((dat, stats, None), st') ->
  (forall j : nat, (j < length (Chunks arc))%nat ->
                   exists c, chunk_of_num (Chunks arc) (Z.of_nat j) = Some c)
  /\ NoDup (map Num (Chunks arc)).
Proof.
  intros Htype Hfits Hrun. unfold DecodeArchiveData in Hrun. rewrite Htype in Hrun.
  destruct (decide (File = File)) as [_|Hne]; [|now destruct Hne].
  assert (Hall : forall j : nat, (j < length (Chunks arc))%nat ->
                   exists c, chunk_of_num (Chunks arc) (Z.of_nat j) = Some c).
  { intros j Hj.
    eapply (DecodeArchiveData_loop_success_found arc _ 0);
      [| |exact Hrun|]; lia. }
  split; [exact Hall|].
  apply NoDup_ListNoDup.
  apply NoDup_incl_NoDup with (l := map Z.of_nat (seq 0 (length (Chunks arc)))).
  - apply NoDup_ListNoDup. apply (NoDup_fmap_2 Z.of_nat). apply NoDup_seq.
  - rewrite !length_map, length_seq. lia.
  - intros x Hx. apply in_map_iff in Hx. destruct Hx as (j & <- & Hj).
    apply in_seq in Hj. destruct (Hall j ltac:(lia)) as [c Hc].
    apply chunk_of_num_Some in Hc. destruct Hc as [Hin Hn].
    apply in_map_iff. exists c. split; [assumption | now apply list_elem_of_In].
Qed.

End DecodeArchiveData.

(** C9.  Whole-archive decoding looks chunks up by [Num].
    (1) A decode that succeeds returns the same data, statistics, cache and
    world for every permutation of the stored chunk list.  (2) When the
    numbers of the chunks are distinct, the result is the same for every
    permutation also when the decode fails.  (3) When the stored list is a
    permutation of chunks numbered [0 .. len-1] that decode, the data
    returned is the concatenation of their plaintexts in [Num] order.
    (4) When no chunk has the number [i], for an [i < len(chunks)], the
    decode does not succeed; (5) it fails with [ChunkError i] when [i] is
    the least such number and the chunks decode. *)
Theorem DecodeArchiveData_by_num {World} `{!Codecs} (repository : Repository World) :
  (forall arc arc' st dat stats st',
      Type_ arc = Type_ arc' ->
      Permutation (Chunks arc) (Chunks arc') ->
      Z.of_nat (length (Chunks arc)) < uint_modulus ->
      DecodeArchiveData repository arc st = Returned ((dat, stats, None), st') ->
      DecodeArchiveData repository arc' st = Returned ((dat, stats, None), st'))
  /\ (forall arc arc' st,
         Type_ arc = Type_ arc' ->
         Permutation (Chunks arc) (Chunks arc') ->
         NoDup (map Num (Chunks arc)) ->
         DecodeArchiveData repository arc st = DecodeArchiveData repository arc' st)
  /\ (forall arc cs plain st,
         Type_ arc = File ->
         Permutation (Chunks arc) cs ->
         numbered cs ->
         Z.of_nat (length cs) < uint_modulus ->
         decodes_to repository plain cs ->
         content_addressed plain cs ->
         ready plain cs st ->
         exists stats st',
           DecodeArchiveData repository arc st
           = Returned ((file_of plain cs, stats, None), st')
           /\ ready plain cs st')
  /\ (forall arc st (i : nat) dat stats st',
         Type_ arc = File ->
         Z.of_nat (length (Chunks arc)) < uint_modulus ->
         (i < length (Chunks arc))%nat ->
         (forall c, c ∈ Chunks arc -> Num c <> Z.of_nat i) ->
         DecodeArchiveData repository arc st <> Returned ((dat, stats, None), st'))
  /\ (forall arc plain st (i : nat),
         Type_ arc = File ->
         Z.of_nat (length (Chunks arc)) < uint_modulus ->
         (i < length (Chunks arc))%nat ->
         (forall c, c ∈ Chunks arc -> Num c <> Z.of_nat i) ->
         (forall j : nat, (j < i)%nat ->
                          exists c, c ∈ Chunks arc /\ Num c = Z.of_nat j) ->
         decodes_to repository plain (Chunks arc) ->
         mutex_locked st = false ->
         exists dat stats st',
           DecodeArchiveData repository arc st
           = Returned ((dat, stats, Some (ChunkError (Z.of_nat i))), st')).
Proof.
  assert (Horder : forall arc arc' st,
             Type_ arc = Type_ arc' ->
             Permutation (Chunks arc) (Chunks arc') ->
             NoDup (map Num (Chunks arc)) ->
             DecodeArchiveData repository arc st
             = DecodeArchiveData repository arc' st).
  { intros arc arc' st Htype Hperm Hnd. unfold DecodeArchiveData.
    rewrite <- Htype, (Permutation_length Hperm).
    destruct (decide (Type_ arc = File)); [|reflexivity].
    apply DecodeArchiveData_loop_ext. intros j.
    now apply chunk_of_num_Permutation. }
  split; [|split; [exact Horder|split; [|split]]].
  - intros arc arc' st dat stats st' Htype Hperm Hfits Hrun.
    destruct (decide (Type_ arc = File)) as [Hfile|Hother].
    + rewrite <- (Horder arc arc' st Htype Hperm); [exact Hrun|].
      now apply (DecodeArchiveData_success_NoDup repository arc st dat stats st').
    + unfold DecodeArchiveData in *. rewrite <- Htype.
      destruct (decide (Type_ arc = File)); [contradiction | exact Hrun].
  - intros arc cs plain st Htype Hperm Hnum Hfits Hdec Haddr Hready.
    unfold DecodeArchiveData. rewrite Htype, (Permutation_length Hperm).
    destruct (decide (File = File)) as [_|Hne]; [|now destruct Hne].
    destruct (DecodeArchiveData_loop_decodes repository arc cs plain Hperm Hnum
                Hfits Hdec Haddr (length cs) 0%nat [] (mkStats 0 0 0 0 0) st
                eq_refl Hready) as (stats' & st' & Hrun & Hready').
    exists stats', st'. split; [exact Hrun | exact Hready'].
  - intros arc st i dat stats st' Htype Hfits Hi Hno Hrun.
    destruct (DecodeArchiveData_success_NoDup repository arc st dat stats st'
                Htype Hfits Hrun) as [Hall _].
    destruct (Hall i Hi) as [c Hc]. apply chunk_of_num_Some in Hc.
    destruct Hc as [Hin Hn]. now apply (Hno c).
  - intros arc plain st i Htype Hfits Hi Hno Hbelow Hdec Hfree.
    unfold DecodeArchiveData. rewrite Htype.
    destruct (decide (File = File)) as [_|Hne]; [|now destruct Hne].
    apply (DecodeArchiveData_loop_missing repository arc plain i Hfits Hi Hno
             Hbelow Hdec (length (Chunks arc)) 0%nat); [lia | exact Hfree].
Qed.

Lemma hey_decodes : decodes_to hey_repository hey_plain [chunk_he; chunk_y].
Proof.
  intros c w Hin. exists w. destruct w.
  apply elem_of_cons in Hin. destruct Hin as [->|Hin]; [reflexivity|].
  apply elem_of_cons in Hin. destruct Hin as [->|Hin]; [reflexivity|].
  inversion Hin.
Qed.

Lemma hey_numbered : numbered [chunk_he; chunk_y].
Proof.
  intros i c Hi. destruct i as [|[|i]]; simpl in Hi; inversion Hi; reflexivity.
Qed.

Lemma hey_content_addressed : content_addressed hey_plain [chunk_he; chunk_y].
Proof.
  intros c1 c2 H1 H2 Hsha.
  apply elem_of_cons in H1. apply elem_of_cons in H2.
  destruct H1 as [->|H1], H2 as [->|H2]; try reflexivity.
  - apply elem_of_cons in H2. destruct H2 as [->|H2]; [discriminate Hsha | inversion H2].
  - apply elem_of_cons in H1. destruct H1 as [->|H1]; [discriminate Hsha | inversion H1].
  - apply elem_of_cons in H1. apply elem_of_cons in H2.
    destruct H1 as [->|H1], H2 as [->|H2]; try reflexivity;
      try inversion H1; inversion H2.
Qed.

Lemma hey_ready : ready hey_plain [chunk_he; chunk_y] (mkState ∅ false ()).
Proof.
  split; [reflexivity|]. intros c d _ Hlook. simpl in Hlook.
  rewrite lookup_empty in Hlook. discriminate Hlook.
Qed.

(** The file "hey!" whose two chunks are stored in the order 1, 0: the
    result is that of the order 0, 1, and the data is "hey!". *)
Lemma DecodeArchiveData_by_num_witness :
  let stored := mkItemData "hey" File [chunk_y; chunk_he] in
  let sorted := mkItemData "hey" File [chunk_he; chunk_y] in
  let st := mkState ∅ false () in
  DecodeArchiveData hey_repository stored st
  = DecodeArchiveData hey_repository sorted st
  /\ exists stats st',
      DecodeArchiveData hey_repository stored st
      = Returned (([Byte.x68; Byte.x65; Byte.x79; Byte.x21], stats, None), st').
Proof.
  intros stored sorted st.
  destruct (DecodeArchiveData_by_num hey_repository) as (_ & Horder & Hdata & _).
  split.
  - apply Horder.
    + reflexivity.
    + apply perm_swap.
    + simpl. apply NoDup_cons. split; [|apply NoDup_singleton].
      intros Hin. apply list_elem_of_singleton in Hin. discriminate Hin.
  - destruct (Hdata stored [chunk_he; chunk_y] hey_plain st) as (stats & st' & Hrun & _).
    + reflexivity.
    + apply perm_swap.
    + exact hey_numbered.
    + reflexivity.
    + exact hey_decodes.
    + exact hey_content_addressed.
    + exact hey_ready.
    + exists stats, st'. exact Hrun.
Defined.

(** C9 as stated fails.  With the chunk number 0 twice in the list, the
    decode returns the plaintext of the one that is stored first, before it
    fails on the number 1: a permutation changes the output.  With the
    numbers 5 and 2, the numbers 0 and 1 are both missing, and the decode
    fails with [ChunkError 0]: the missing number 1 is not the one that is
    reported. *)
Lemma DecodeArchiveData_by_num_counterexample :
  let twins := mkItemData "twins" File [chunk_he; chunk_y0] in
  let swapped := mkItemData "twins" File [chunk_y0; chunk_he] in
  let gaps := mkItemData "gaps" File [chunk_he5; chunk_y2] in
  let st := mkState ∅ false () in
  decode_output (DecodeArchiveData hey_repository twins st)
  = Some ([Byte.x68; Byte.x65], Some (ChunkError 1))
  /\ decode_output (DecodeArchiveData hey_repository swapped st)
     = Some ([Byte.x79; Byte.x21], Some (ChunkError 1))
  /\ ~ order_independent hey_repository twins st
  /\ decode_output (DecodeArchiveData hey_repository gaps st)
     = Some ([], Some (ChunkError 0))
  /\ ~ missing_number_reported hey_repository gaps st
  /\ ~ decodes_by_num_in_any_order hey_repository twins st
  /\ ~ decodes_by_num_in_any_order hey_repository gaps st.
Proof.
  intros twins swapped gaps st.
  assert (Htwins : decode_output (DecodeArchiveData hey_repository twins st)
                   = Some ([Byte.x68; Byte.x65], Some (ChunkError 1)))
    by (vm_compute; reflexivity).
  assert (Hswapped : decode_output (DecodeArchiveData hey_repository swapped st)
                     = Some ([Byte.x79; Byte.x21], Some (ChunkError 1)))
    by (vm_compute; reflexivity).
  assert (Hgaps : DecodeArchiveData hey_repository gaps st
                  = Returned (([], mkStats 0 0 0 0 0, Some (ChunkError 0)), st))
    by (vm_compute; reflexivity).
  assert (Horder : ~ order_independent hey_repository twins st).
  { intros Hall. specialize (Hall swapped eq_refl (perm_swap _ _ _)).
    rewrite Htwins, Hswapped in Hall. discriminate Hall. }
  assert (Hmissing : ~ missing_number_reported hey_repository gaps st).
  { intros Hall. destruct (Hall 1%nat) as (dat & stats & st' & Hrun).
    - simpl. lia.
    - intros c Hc.
      apply elem_of_cons in Hc. destruct Hc as [->|Hc]; [discriminate|].
      apply elem_of_cons in Hc. destruct Hc as [->|Hc]; [discriminate|].
      inversion Hc.
    - rewrite Hgaps in Hrun. discriminate Hrun. }
  split; [exact Htwins|]. split; [exact Hswapped|]. split; [exact Horder|].
  split; [now rewrite Hgaps|]. split; [exact Hmissing|].
  split; [intros [H1 _]; now apply Horder | intros [_ H2]; now apply Hmissing].
Qed.

(** ** Random access *)

Lemma file_of_app plain (xs ys : list Chunk) :
  file_of plain (xs ++ ys) = file_of plain xs ++ file_of plain ys.
Proof. unfold file_of. now rewrite map_app, concat_app. Qed.

Lemma file_of_take_drop plain (cs : list Chunk) k :
  file_of plain cs = file_of plain (take k cs) ++ file_of plain (drop k cs).
Proof. now rewrite <- file_of_app, take_drop. Qed.

Lemma file_of_take_S plain (cs : list Chunk) k c :
  cs !! k = Some c ->
  file_of plain (take (S k) cs) = file_of plain (take k cs) ++ plain c.
Proof.
  intros Hk. rewrite (take_S_r _ _ _ Hk), file_of_app.
  unfold file_of at 2. simpl. now rewrite app_nil_r.
Qed.

Lemma file_of_drop plain (cs : list Chunk) k c :
  cs !! k = Some c ->
  file_of plain (drop k cs) = plain c ++ file_of plain (drop (S k) cs).
Proof. intros Hk. now rewrite (drop_S _ _ _ Hk). Qed.

Section RandomAccess.
Context {World : Type} `{!Codecs}.
Variables (repository : Repository World) (arc : ItemData).
Variables (cs : list Chunk) (plain : Chunk -> bytes).
Hypothesis Hperm : Permutation (Chunks arc) cs.
Hypothesis Hnum : numbered cs.
Hypothesis Hdec : decodes_to repository plain cs.
Hypothesis Haddr : content_addressed plain cs.
Hypothesis Hsizes :
  forall c, c ∈ cs ->
            OriginalSize c = Z.of_nat (length (plain c)) /\ 0 < OriginalSize c.
Hypothesis Hfits : Z.of_nat (length (file_of plain cs)) < int_half.

Let flen (l : list Chunk) : Z := Z.of_nat (length (file_of plain l)).

Lemma chunks_fit : Z.of_nat (length cs) <= flen cs.
Proof using Hsizes.
  clear Hfits Hperm Hnum Hdec Haddr. unfold flen.
  induction cs as [|c l IH]; [simpl; lia|].
  unfold file_of in *. simpl. rewrite length_app.
  destruct (Hsizes c ltac:(left)) as [Hlen Hpos].
  assert (IH' : Z.of_nat (length l) <= Z.of_nat (length (concat (map plain l)))).
  { apply IH. intros c' Hc'. apply Hsizes. now right. }
  simpl length. lia.
Qed.

Lemma readArchiveChunk_ready (k : nat) c st :
  cs !! k = Some c ->
  ready plain cs st ->
  exists st',
    readArchiveChunk repository arc (Z.of_nat k) st
    = Returned ((plain c, None), st')
    /\ ready plain cs st'.
Proof using Hperm Hnum Hdec Haddr.
  intros Hk [Hfree Hcoh].
  assert (Hin : c ∈ cs) by (apply list_elem_of_lookup; eauto).
  pose proof (chunk_of_num_archive arc cs k Hperm Hnum) as Hfind. rewrite Hk in Hfind.
  unfold readArchiveChunk.
  destruct (indexOfChunk_found arc _ c Hfind) as (idx & -> & ->).
  rewrite Hfree.
  destruct (cache st !! ShaSum c) as [cacheData|] eqn:Hcache.
  - rewrite (Hcoh c cacheData Hin Hcache). eexists. split; [reflexivity|].
    now split.
  - destruct (Hdec c (world st) Hin) as (w' & ->). eexists. split; [reflexivity|].
    split; [reflexivity|]. simpl. now apply cache_coherent_insert.
Qed.

Lemma readArchiveChunk_past (k : nat) st :
  cs !! k = None ->
  readArchiveChunk repository arc (Z.of_nat k) st
  = Returned (([], Some (ChunkError (Z.of_nat k))), st).
Proof using Hperm Hnum.
  intros Hk.
  pose proof (chunk_of_num_archive arc cs k Hperm Hnum) as Hfind. rewrite Hk in Hfind.
  unfold readArchiveChunk. now rewrite (indexOfChunk_missing arc _ Hfind).
Qed.

Lemma chunkForOffset_loop_spec offset n :
  forall (i : nat) acc,
    (i + n = length cs)%nat ->
    acc = flen (take i cs) ->
    acc <= offset ->
    (flen cs <= offset ->
     chunkForOffset_loop n (Z.of_nat i) arc offset acc = Returned (Err EOF))
    /\ (offset < flen cs ->
        exists (k : nat) c,
          cs !! k = Some c
          /\ flen (take k cs) <= offset < flen (take k cs) + Z.of_nat (length (plain c))
          /\ chunkForOffset_loop n (Z.of_nat i) arc offset acc
             = Returned (Ok (Z.of_nat k, offset - flen (take k cs)))).
Proof using Hperm Hnum Hsizes Hfits.
  induction n as [|n IH]; intros i acc Hin Hacc Hle.
  - assert (Hall : take i cs = cs) by (apply take_ge; lia).
    rewrite Hall in Hacc. split; [reflexivity | lia].
  - destruct (lookup_lt_is_Some_2 cs i ltac:(lia)) as [c Hc].
    assert (Hin_cs : c ∈ cs) by (apply list_elem_of_lookup; eauto).
    destruct (Hsizes c Hin_cs) as [Hsize Hpos].
    pose proof (chunk_of_num_archive arc cs i Hperm Hnum) as Hfind. rewrite Hc in Hfind.
    assert (Hnext : flen (take (S i) cs) = acc + Z.of_nat (length (plain c))).
    { unfold flen in *. rewrite (file_of_take_S _ _ _ _ Hc), length_app. lia. }
    assert (Hbound : flen (take (S i) cs) <= flen cs).
    { unfold flen. rewrite (file_of_take_drop plain cs (S i)) at 1.
      rewrite length_app. lia. }
    pose proof chunks_fit as Hcount.
    simpl. unfold int_half, uint_modulus, flen in *.
    rewrite (wrap_uint_small (Z.of_nat i)) by (unfold uint_modulus; lia).
    destruct (indexOfChunk_found arc _ c Hfind) as (idx & -> & ->).
    rewrite Hsize.
    rewrite (wrap_int_small (acc + _)) by (unfold int_half; lia).
    destruct (Z.ltb_spec offset (acc + Z.of_nat (length (plain c)))) as [Hhere|Hlater].
    + split; [lia|]. intros _. exists i, c. split; [assumption|]. split; [lia|].
      rewrite wrap_int_small by (unfold int_half; lia).
      rewrite (Hnum i c Hc). subst acc. reflexivity.
    + replace (Z.of_nat i + 1) with (Z.of_nat (S i)) by lia.
      apply IH; lia.
Qed.

Lemma ReadArchive_loop_done fuel size neededPart internalOffset dat st :
  size <= Z.of_nat (length dat) ->
  ReadArchive_loop fuel repository arc size neededPart internalOffset dat st
  = Some (Returned ((dat, None), st)).
Proof.
  intros Hfull. destruct fuel; simpl;
    destruct (Z.ltb_spec (Z.of_nat (length dat)) size); (lia || reflexivity).
Qed.

Lemma slice_from_ok {A} (b : list A) (o : Z) :
  0 <= o <= Z.of_nat (length b) -> slice_from b o = Some (drop (Z.to_nat o) b).
Proof.
  intros Ho. unfold slice_from.
  destruct (Z.ltb_spec o 0); [lia|].
  destruct (Z.ltb_spec (Z.of_nat (length b)) o); [lia | reflexivity].
Qed.

Lemma slice_to_ok {A} (b : list A) (o : Z) :
  0 <= o <= Z.of_nat (length b) -> slice_to b o = Some (take (Z.to_nat o) b).
Proof.
  intros Ho. unfold slice_to.
  destruct (Z.ltb_spec o 0); [lia|].
  destruct (Z.ltb_spec (Z.of_nat (length b)) o); [lia | reflexivity].
Qed.

(** The bytes of the file from the place [o] of chunk [k] on. *)
Let rest_from (k : nat) (o : Z) : bytes :=
  drop (Z.to_nat o) (file_of plain (drop k cs)).

Lemma rest_from_chunk k o c :
  cs !! k = Some c -> 0 <= o <= Z.of_nat (length (plain c)) ->
  rest_from k o = drop (Z.to_nat o) (plain c) ++ rest_from (S k) 0.
Proof.
  intros Hk Ho. unfold rest_from.
  rewrite (file_of_drop _ _ _ _ Hk), drop_app_le by lia. reflexivity.
Qed.

Lemma rest_from_end k o : cs !! k = None -> rest_from k o = [].
Proof.
  intros Hk. unfold rest_from. apply lookup_ge_None in Hk.
  rewrite (drop_ge cs k) by lia. unfold file_of. simpl. now rewrite drop_nil.
Qed.

Lemma ReadArchive_loop_reads size fuel :
  forall (k : nat) o dat st,
    ready plain cs st ->
    0 <= o ->
    (forall c, cs !! k = Some c -> o < Z.of_nat (length (plain c))) ->
    Z.of_nat (length dat) <= size ->
    size <= Z.of_nat (length dat) + Z.of_nat (length (rest_from k o)) ->
    size - Z.of_nat (length dat) <= Z.of_nat fuel ->
    exists st',
      ReadArchive_loop fuel repository arc size (Z.of_nat k) o dat st
      = Some (Returned ((take (Z.to_nat size) (dat ++ rest_from k o), None), st'))
      /\ ready plain cs st'.
Proof using Hperm Hnum Hdec Haddr Hsizes Hfits.
  induction fuel as [|fuel IH]; intros k o dat st Hready Ho Hinside Hdat Henough Hfuel.
  - exists st. rewrite ReadArchive_loop_done by lia.
    rewrite take_app_le, take_ge by lia. now split.
  - destruct (Z.ltb_spec (Z.of_nat (length dat)) size) as [Hmore|Hfull].
    2:{ exists st. rewrite ReadArchive_loop_done by lia.
        rewrite take_app_le, take_ge by lia. now split. }
    destruct (cs !! k) as [c|] eqn:Hk.
    2:{ rewrite (rest_from_end k o Hk) in Henough. simpl in Henough. lia. }
    assert (Hin_cs : c ∈ cs) by (apply list_elem_of_lookup; eauto).
    destruct (Hsizes c Hin_cs) as [Hsize Hpos].
    specialize (Hinside c eq_refl).
    destruct (readArchiveChunk_ready k c st Hk Hready) as (st1 & Hread & Hready1).
    pose proof chunks_fit as Hcount.
    assert (Hklt : (k < length cs)%nat) by (apply lookup_lt_Some in Hk; lia).
    rewrite (rest_from_chunk k o c Hk) in * by lia.
    rewrite length_app in Henough.
    remember (drop (Z.to_nat o) (plain c)) as d eqn:Ed.
    assert (Hd : Z.of_nat (length d) = Z.of_nat (length (plain c)) - o).
    { subst d. rewrite length_drop. lia. }
    simpl. destruct (Z.ltb_spec (Z.of_nat (length dat)) size); [|lia].
    rewrite Hread. simpl.
    destruct (Z.eqb_spec (Z.of_nat (length (plain c))) 0); [lia|].
    rewrite slice_from_ok by lia. rewrite <- Ed.
    destruct (Z.eqb_spec (Z.of_nat (length d)) 0); [lia|].
    unfold int_half, uint_modulus, flen in *.
    rewrite (wrap_uint_small (Z.of_nat k + 1)) by (unfold uint_modulus; lia).
    replace (Z.of_nat k + 1) with (Z.of_nat (S k)) by lia.
    assert (Hnext : forall c', cs !! S k = Some c' -> 0 < Z.of_nat (length (plain c'))).
    { intros c' Hc'. destruct (Hsizes c') as [E1 E2]; [|lia].
      apply list_elem_of_lookup. eauto. }
    destruct (Z.ltb_spec size (Z.of_nat (length d) + Z.of_nat (length dat)))
      as [Hcut|Hwhole].
    + rewrite slice_to_ok by lia.
      destruct (IH (S k) 0 (dat ++ take (Z.to_nat (size - Z.of_nat (length dat))) d) st1)
        as (st' & Hrun & Hready'); try assumption; try lia.
      * rewrite length_app, length_take. lia.
      * rewrite length_app, length_take. lia.
      * rewrite length_app, length_take. lia.
      * exists st'. split; [|assumption]. rewrite Hrun. do 3 f_equal.
        rewrite (take_app_le (dat ++ _)) by (rewrite length_app, length_take; lia).
        rewrite (take_ge (dat ++ _)) by (rewrite length_app, length_take; lia).
        rewrite take_app_ge by lia. f_equal.
        f_equal. rewrite take_app_le by lia. f_equal. lia.
    + destruct (IH (S k) 0 (dat ++ d) st1) as (st' & Hrun & Hready');
        try assumption; try lia.
      * rewrite length_app. lia.
      * rewrite length_app. lia.
      * rewrite length_app. lia.
      * exists st'. split; [|assumption]. rewrite Hrun. now rewrite <- app_assoc.
Qed.

Lemma ReadArchive_loop_past size fuel :
  forall (k : nat) o dat st,
    ready plain cs st ->
    0 <= o ->
    (forall c, cs !! k = Some c -> o < Z.of_nat (length (plain c))) ->
    (k <= length cs)%nat ->
    Z.of_nat (length dat) + Z.of_nat (length (rest_from k o)) < size ->
    size - Z.of_nat (length dat) <= Z.of_nat fuel ->
    ReadArchive_loop fuel repository arc size (Z.of_nat k) o dat st
    = Some (Panicked (Some (ChunkError (Z.of_nat (length cs))))).
Proof using Hperm Hnum Hdec Haddr Hsizes Hfits.
  induction fuel as [|fuel IH]; intros k o dat st Hready Ho Hinside Hk_le Hshort Hfuel.
  - lia.
  - simpl. destruct (Z.ltb_spec (Z.of_nat (length dat)) size); [|lia].
    destruct (cs !! k) as [c|] eqn:Hk.
    + assert (Hin_cs : c ∈ cs) by (apply list_elem_of_lookup; eauto).
      destruct (Hsizes c Hin_cs) as [Hsize Hpos].
      specialize (Hinside c eq_refl).
      destruct (readArchiveChunk_ready k c st Hk Hready) as (st1 & Hread & Hready1).
      pose proof chunks_fit as Hcount.
      assert (Hklt : (k < length cs)%nat) by (apply lookup_lt_Some in Hk; lia).
      rewrite (rest_from_chunk k o c Hk) in * by lia.
      rewrite length_app in Hshort.
      remember (drop (Z.to_nat o) (plain c)) as d eqn:Ed.
      assert (Hd : Z.of_nat (length d) = Z.of_nat (length (plain c)) - o).
      { subst d. rewrite length_drop. lia. }
      rewrite Hread. simpl.
      destruct (Z.eqb_spec (Z.of_nat (length (plain c))) 0); [lia|].
      rewrite slice_from_ok by lia. rewrite <- Ed.
      destruct (Z.eqb_spec (Z.of_nat (length d)) 0); [lia|].
      unfold int_half, uint_modulus, flen in *.
      rewrite (wrap_uint_small (Z.of_nat k + 1)) by (unfold uint_modulus; lia).
      replace (Z.of_nat k + 1) with (Z.of_nat (S k)) by lia.
      destruct (Z.ltb_spec size (Z.of_nat (length d) + Z.of_nat (length dat))); [lia|].
      apply IH; try assumption; try lia.
      * intros c' Hc'. destruct (Hsizes c') as [E1 E2]; [|lia].
        apply list_elem_of_lookup. eauto.
      * rewrite length_app. lia.
      * rewrite length_app. lia.
    + assert (k = length cs) as -> by (apply lookup_ge_None in Hk; lia).
      rewrite (readArchiveChunk_past _ st Hk). reflexivity.
Qed.

End RandomAccess.

Section ReadArchiveTotal.
Context {World : Type} `{!Codecs}.
Variables (repository : Repository World) (arc : ItemData).

Lemma ReadArchive_loop_total size fuel :
  forall neededPart internalOffset dat st,
    size - Z.of_nat (length dat) <= Z.of_nat fuel ->
    ReadArchive_loop fuel repository arc size neededPart internalOffset dat st
    <> None.
Proof.
  induction fuel as [|fuel IH]; intros k o dat st Hfuel; simpl.
  - destruct (Z.ltb_spec (Z.of_nat (length dat)) size); [lia | discriminate].
  - destruct (Z.ltb_spec (Z.of_nat (length dat)) size); [|discriminate].
    destruct (readArchiveChunk repository arc k st) as [[[b err] st1]|e|];
      try discriminate.
    destruct (bool_decide (err <> None) || (Z.of_nat (length b) =? 0));
      [discriminate|].
    destruct (slice_from b o) as [d|]; [|discriminate].
    destruct (Z.eqb_spec (Z.of_nat (length d)) 0) as [Hempty|Hfull];
      [rewrite orb_true_r; discriminate|].
    destruct (bool_decide (err <> None)); [discriminate|]. simpl.
    destruct (Z.ltb_spec size (Z.of_nat (length d) + Z.of_nat (length dat))).
    + unfold slice_to.
      destruct ((size - Z.of_nat (length dat) <? 0)
                || (Z.of_nat (length d) <? size - Z.of_nat (length dat)));
        [discriminate|].
      apply IH. rewrite length_app, length_take. lia.
    + apply IH. rewrite length_app. lia.
Qed.

(** [ReadArchive] never runs out of fuel: its loop ends, by a return or a
    panic, after at most [size] iterations. *)
Lemma ReadArchive_total offset size st :
  ReadArchive repository arc offset size st <> None.
Proof.
  unfold ReadArchive. destruct (decide (Type_ arc = File)); [|discriminate].
  destruct (chunkForOffset arc offset) as [[[neededPart internalOffset]|err]|pe|];
    try discriminate.
  apply ReadArchive_loop_total. simpl. lia.
Qed.

End ReadArchiveTotal.

Lemma drop_file_of plain (cs : list Chunk) (k : nat) (offset : Z) :
  Z.of_nat (length (file_of plain (take k cs))) <= offset ->
  drop (Z.to_nat offset) (file_of plain cs)
  = drop (Z.to_nat (offset - Z.of_nat (length (file_of plain (take k cs)))))
      (file_of plain (drop k cs)).
Proof.
  intros Hle. rewrite (file_of_take_drop plain cs k) at 1.
  rewrite drop_app_ge by lia. f_equal. lia.
Qed.

(** C1, as the code has it.  Let the stored chunks of a File archive be a
    permutation of chunks numbered [0 .. n-1] that decode to non-empty
    plaintexts of their [OriginalSize], and let [B] be the concatenation of
    these plaintexts in [Num] order.  For [0 <= offset] and [0 <= size]:
    a read that ends inside the file, [offset < len(B)] and
    [offset + size <= len(B)], returns [B[offset : offset+size]] and no
    error; a read at or past the end, [len(B) <= offset], returns no data
    and [EOF], from [chunkForOffset]; a read that starts inside the file
    and ends past it panics, with the [ChunkError] of the chunk after the
    last. *)
Theorem ReadArchive_random_access {World} `{!Codecs}
    (repository : Repository World) (arc : ItemData) (cs : list Chunk)
    (plain : Chunk -> bytes) (offset size : Z) (st : State World) :
  let B := file_of plain cs in
  Type_ arc = File ->
  Permutation (Chunks arc) cs ->
  numbered cs ->
  decodes_to repository plain cs ->
  content_addressed plain cs ->
  (forall c, c ∈ cs ->
             OriginalSize c = Z.of_nat (length (plain c)) /\ 0 < OriginalSize c) ->
  Z.of_nat (length B) < int_half ->
  ready plain cs st ->
  0 <= offset -> 0 <= size ->
  (offset < Z.of_nat (length B) -> offset + size <= Z.of_nat (length B) ->
   exists st',
     ReadArchive repository arc offset size st
     = Some (Returned ((slice B offset (offset + size), None), st'))
     /\ ready plain cs st')
  /\ (Z.of_nat (length B) <= offset ->
      ReadArchive repository arc offset size st
      = Some (Returned (([], Some EOF), st)))
  /\ (offset < Z.of_nat (length B) < offset + size ->
      ReadArchive repository arc offset size st
      = Some (Panicked (Some (ChunkError (Z.of_nat (length cs)))))).
Proof.
  intros B Htype Hperm Hnum Hdec Haddr Hsizes Hfits Hready Hoff Hsize.
  unfold ReadArchive, chunkForOffset. rewrite Htype, (Permutation_length Hperm).
  destruct (decide (File = File)) as [_|Hne]; [|now destruct Hne].
  destruct (chunkForOffset_loop_spec arc cs plain Hperm Hnum Hsizes Hfits offset
              (length cs) 0%nat 0 eq_refl eq_refl Hoff) as [Heof Hin].
  fold B in Heof, Hin. change (Z.of_nat 0) with 0 in Heof, Hin.
  split; [|split].
  - intros Hinside Hend.
    destruct (Hin Hinside) as (k & c & Hk & Hbounds & ->).
    destruct (ReadArchive_loop_reads repository arc cs plain Hperm Hnum Hdec Haddr
                Hsizes Hfits size (Z.to_nat size) k
                (offset - Z.of_nat (length (file_of plain (take k cs)))) [] st)
      as (st' & Hrun & Hready'); try assumption; try (simpl; lia).
    + intros c' Hc'. rewrite Hk in Hc'. inversion Hc'; subst. lia.
    + rewrite <- drop_file_of by lia. fold B. rewrite length_drop. simpl. lia.
    + exists st'. split; [|assumption]. rewrite Hrun.
      rewrite <- drop_file_of by lia. fold B. unfold slice. simpl.
      repeat f_equal. lia.
  - intros Hpast. now rewrite (Heof Hpast).
  - intros [Hinside Hend].
    destruct (Hin Hinside) as (k & c & Hk & Hbounds & ->).
    apply (ReadArchive_loop_past repository arc cs plain Hperm Hnum Hdec Haddr
             Hsizes Hfits); try assumption; try (simpl; lia).
    + intros c' Hc'. rewrite Hk in Hc'. inversion Hc'; subst. lia.
    + apply lookup_lt_Some in Hk. lia.
    + rewrite <- drop_file_of by lia. fold B. rewrite length_drop. simpl. lia.
Qed.

Lemma hey_sizes c :
  c ∈ [chunk_he; chunk_y] ->
  OriginalSize c = Z.of_nat (length (hey_plain c)) /\ 0 < OriginalSize c.
Proof.
  intros Hin.
  apply elem_of_cons in Hin. destruct Hin as [->|Hin]; [split; reflexivity|].
  apply elem_of_cons in Hin. destruct Hin as [->|Hin]; [split; reflexivity|].
  inversion Hin.
Qed.

(** The file "hey!" whose chunks are stored in the order 1, 0: the two
    bytes from offset 1 on are "ey", read across the two chunks. *)
Lemma ReadArchive_random_access_witness :
  let stored := mkItemData "hey" File [chunk_y; chunk_he] in
  exists st',
    ReadArchive hey_repository stored 1 2 (mkState ∅ false ())
    = Some (Returned (([Byte.x65; Byte.x79], None), st')).
Proof.
  intros stored.
  destruct (ReadArchive_random_access hey_repository stored [chunk_he; chunk_y]
              hey_plain 1 2 (mkState ∅ false ())) as (Hread & _ & _).
  - reflexivity.
  - apply perm_swap.
  - exact hey_numbered.
  - exact hey_decodes.
  - exact hey_content_addressed.
  - exact hey_sizes.
  - reflexivity.
  - exact hey_ready.
  - lia.
  - lia.
  - destruct Hread as (st' & Hrun & _); [simpl; lia | simpl; lia |].
    exists st'. exact Hrun.
Defined.

(** C1 as stated fails: three bytes are asked for at offset 2 of the
    four-byte file "hey!".  The claim gives the two bytes [B[2:4]];
    [ReadArchive] panics when it looks for a third chunk. *)
Lemma ReadArchive_short_read_counterexample :
  let stored := mkItemData "hey" File [chunk_y; chunk_he] in
  let st := mkState ∅ false () in
  ReadArchive hey_repository stored 2 3 st
  = Some (Panicked (Some (ChunkError 2)))
  /\ ~ reads_slice hey_repository stored hey_plain [chunk_he; chunk_y] 2 3 st.
Proof.
  intros stored st. split.
  - vm_compute. reflexivity.
  - intros (err & st' & Hrun).
    assert (Hpanic : ReadArchive hey_repository stored 2 3 st
                     = Some (Panicked (Some (ChunkError 2))))
      by (vm_compute; reflexivity).
    rewrite Hpanic in Hrun. discriminate Hrun.
Qed.

(** * Further properties of the read path *)

(** ** Lookup by number *)

Lemma indexOfChunk_range_first chunks : forall base n,
  match indexOfChunk_range chunks base n with
  | Ok idx =>
      exists (k : nat) c,
        idx = base + Z.of_nat k
        /\ chunks !! k = Some c /\ Num c = n
        /\ forall (j : nat) c', (j < k)%nat -> chunks !! j = Some c' -> Num c' <> n
  | Err e => e = ChunkError n /\ forall c, c ∈ chunks -> Num c <> n
  end.
Proof.
  induction chunks as [|c chunks IH]; intros base n; simpl.
  - split; [reflexivity|]. intros c Hc. inversion Hc.
  - destruct (Z.eqb_spec (Num c) n) as [Heq|Hne].
    + exists 0%nat, c. repeat split; [lia | assumption | intros j c' Hj; lia].
    + specialize (IH (base + 1) n).
      destruct (indexOfChunk_range chunks (base + 1) n) as [idx|e].
      * destruct IH as (k & c1 & -> & Hk & Hn & Hfirst).
        exists (S k), c1. repeat split; [lia | assumption | assumption |].
        intros j c' Hj Hc'. destruct j as [|j]; simpl in Hc'.
        -- inversion Hc'; subst. assumption.
        -- apply (Hfirst j); [lia | assumption].
      * destruct IH as [-> Hnone]. split; [reflexivity|].
        intros c' Hc'. apply elem_of_cons in Hc'.
        destruct Hc' as [->|Hc']; [assumption | now apply Hnone].
Qed.

(** X1.  [indexOfChunk] returns the index of the first chunk of the list
    whose [Num] is the number asked for; the index is within the list, so
    that [arc.Chunks[idx]] cannot fail.  It returns [ChunkError] of that
    number exactly when no chunk of the list has it. *)
Theorem indexOfChunk_first_match (arc : ItemData) (n : Z) :
  match indexOfChunk arc n with
  | Ok idx =>
      0 <= idx < Z.of_nat (length (Chunks arc))
      /\ (exists c, go_index (Chunks arc) idx = Some c /\ Num c = n)
      /\ forall j c', 0 <= j < idx -> go_index (Chunks arc) j = Some c' -> Num c' <> n
  | Err e => e = ChunkError n /\ forall c, c ∈ Chunks arc -> Num c <> n
  end.
Proof.
  unfold indexOfChunk.
  pose proof (indexOfChunk_range_first (Chunks arc) 0 n) as H.
  destruct (indexOfChunk_range (Chunks arc) 0 n) as [idx|e]; [|exact H].
  destruct H as (k & c & -> & Hk & Hn & Hfirst).
  pose proof (lookup_lt_Some _ _ _ Hk) as Hlt.
  split; [lia|]. split.
  - exists c. split; [|assumption]. unfold go_index.
    destruct (Z.ltb_spec (0 + Z.of_nat k) 0); [lia|].
    replace (Z.to_nat (0 + Z.of_nat k)) with k by lia. assumption.
  - intros j c' Hj Hc'. unfold go_index in Hc'.
    destruct (Z.ltb_spec j 0); [lia|].
    apply (Hfirst (Z.to_nat j) c'); [lia | assumption].
Qed.

(** ** The chunk loader: integrity of what it returns *)

Section LoadChunkIntegrity.
Context {World : Type} `{!Codecs}.
Variable repository : Repository World.

Lemma decodeChunk_verified chunk payload plain :
  decodeChunk repository chunk payload = Ok plain ->
  sha256_hex plain = DecryptedShaSum chunk.
Proof.
  unfold decodeChunk. intros Hdec.
  destruct (if decide (Encrypted chunk = EncryptionAES)
            then Decrypt payload (Password repository) else Ok payload)
    as [p1|e1]; [|discriminate Hdec].
  destruct (if decide (Compressed chunk = CompressionGZip)
            then match gzip_NewReader p1 with
                 | Err err => Err err
                 | Ok zipreader => ioutil_ReadAll zipreader
                 end
            else Ok p1) as [p2|e2]; [|discriminate Hdec].
  simpl in Hdec. destruct (decide (DecryptedShaSum chunk = sha256_hex p2)) as [Hsum|Hsum];
    [|discriminate Hdec].
  inversion Hdec; subst. now symmetry.
Qed.

Lemma loadChunk_loop_verified chunk enc n :
  forall i pars parsFound parsMissing w plain w',
    loadChunk_loop n i enc repository chunk pars parsFound parsMissing w
    = (Ok plain, w') ->
    sha256_hex plain = DecryptedShaSum chunk.
Proof.
  induction n as [|n IH]; intros i pars pf pm w plain w' Hrun; simpl in Hrun.
  - inversion Hrun.
  - destruct (BackendManager.LoadChunk _ chunk (wrap_uint i) w) as [[b|cerr] w1].
    + destruct (DataParts chunk <=? wrap_uint (pf + 1)); [|eauto].
      destruct (if 0 <? pm then rs_Reconstruct enc (<[Z.to_nat i:=Some b]> pars)
                else (<[Z.to_nat i:=Some b]> pars, None)) as [pars' [rerr|]];
        [eauto|].
      destruct (rs_Join enc pars' (Size chunk)) as [buf|jerr]; [|eauto].
      inversion Hrun as [[Hdec Hw]]. eapply decodeChunk_verified; eauto.
    + eauto.
Qed.

(** X2.  Whatever the backends, the cipher, gzip and the coder return: a
    plaintext that [loadChunk] returns has the hex SHA-256 that the chunk
    record gives as [DecryptedShaSum], on the path with parity and on the
    path without. *)
Theorem loadChunk_verified (chunk : Chunk) (w w' : World) (plain : bytes) :
  loadChunk repository chunk w = (Returned (Ok plain), w') ->
  sha256_hex plain = DecryptedShaSum chunk.
Proof.
  unfold loadChunk. intros Hrun.
  destruct (0 <? ParityParts chunk).
  - destruct (reedsolomon_New _ _) as [enc|err]; [|inversion Hrun].
    destruct (wrap_int (wrap_uint (DataParts chunk + ParityParts chunk)) <? 0);
      [inversion Hrun|].
    destruct (loadChunk_loop _ 0 enc repository chunk _ 0 0 w) as [r w1] eqn:Hloop.
    inversion Hrun; subst. eapply loadChunk_loop_verified; eauto.
  - destruct (BackendManager.LoadChunk _ chunk 0 w) as [[data|err] w1];
      [|inversion Hrun].
    inversion Hrun as [[Hdec Hw]]. eapply decodeChunk_verified; eauto.
Qed.

End LoadChunkIntegrity.

(** The chunk "he" of the example repository: the plaintext returned is the
    one whose digest the chunk record names. *)
Lemma loadChunk_verified_witness :
  @sha256_hex copy_codecs [Byte.x68; Byte.x65] = DecryptedShaSum chunk_he.
Proof.
  apply (loadChunk_verified hey_repository chunk_he () ()). reflexivity.
Defined.

(** ** The chunk loader: a coder that fails *)

Section LoadChunkCoderFails.
Context {World : Type} `{!Codecs}.
Variables (repository : Repository World) (chunk : Chunk) (enc : rs_Encoder).
Variable total : Z.
Hypothesis Hloads :
  forall i w, 0 <= i < total ->
    exists b,
      (BackendManager.LoadChunk (Repository_Backend repository) chunk i w).1 = Ok b.
Hypothesis Hjoin : forall pars, exists e, rs_Join enc pars (Size chunk) = Err e.

Lemma loadChunk_loop_join_fails n :
  forall i pars parsFound w,
    0 <= i -> i + Z.of_nat n = total -> total < uint_modulus ->
    0 <= parsFound -> parsFound + Z.of_nat n < uint_modulus ->
    exists w',
      loadChunk_loop n i enc repository chunk pars parsFound 0 w
      = (Err (DataReconstructionError chunk (parsFound + Z.of_nat n)
                (wrap_uint (DataParts chunk - (parsFound + Z.of_nat n)))), w').
Proof using Hloads Hjoin.
  induction n as [|n IH]; intros i pars pf w Hi Hin Htotal Hpf Hfit.
  - simpl. rewrite Z.add_0_r. now exists w.
  - simpl loadChunk_loop. rewrite (wrap_uint_small i) by lia.
    destruct (Hloads i w ltac:(lia)) as [b Hb].
    destruct (BackendManager.LoadChunk _ chunk i w) as [r w1]. simpl in Hb. subst r.
    rewrite (wrap_uint_small (pf + 1)) by lia.
    assert (Hnext : exists w',
               loadChunk_loop n (i + 1) enc repository chunk
                 (<[Z.to_nat i := Some b]> pars) (pf + 1) 0 w1
               = (Err (DataReconstructionError chunk (pf + Z.of_nat (S n))
                         (wrap_uint (DataParts chunk - (pf + Z.of_nat (S n))))), w')).
    { destruct (IH (i + 1) (<[Z.to_nat i := Some b]> pars) (pf + 1) w1)
        as (w' & ->); try lia.
      exists w'. do 3 f_equal; [lia | f_equal; lia]. }
    destruct (Z.leb_spec (DataParts chunk) (pf + 1)); [|exact Hnext].
    change (0 <? 0) with false. cbv iota.
    destruct (Hjoin (<[Z.to_nat i := Some b]> pars)) as [e ->]. exact Hnext.
Qed.

End LoadChunkCoderFails.

(** X3.  When every shard of a chunk of shape [(d, p)] loads and [Join]
    fails each time it is tried, [loadChunk] gives up after the last shard
    with a [DataReconstructionError] whose [BlocksFound] is [d + p] and
    whose [FailedBackends], the unsigned difference [d - BlocksFound], has
    wrapped around to [2^64 - p]. *)
Theorem loadChunk_coder_fails {World} `{!Codecs} (repository : Repository World)
    (chunk : Chunk) (enc : rs_Encoder) (w : World) :
  let d := DataParts chunk in
  let p := ParityParts chunk in
  0 < d -> 0 < p -> d + p < int_half ->
  reedsolomon_New d p = Ok enc ->
  (forall i w, 0 <= i < d + p ->
     exists b,
       (BackendManager.LoadChunk (Repository_Backend repository) chunk i w).1 = Ok b) ->
  (forall pars, exists e, rs_Join enc pars (Size chunk) = Err e) ->
  exists w',
    loadChunk repository chunk w
    = (Returned (Err (DataReconstructionError chunk (d + p) (uint_modulus - p))), w').
Proof.
  intros d p Hd Hp Hfit Hnew Hloads Hjoin.
  unfold loadChunk. fold d p.
  destruct (Z.ltb_spec 0 p); [|lia].
  unfold int_half, uint_modulus in *.
  rewrite !wrap_int_small by (unfold int_half; lia). rewrite Hnew.
  rewrite (wrap_uint_small (d + p)) by (unfold uint_modulus; lia).
  rewrite wrap_int_small by (unfold int_half; lia).
  destruct (Z.ltb_spec (d + p) 0); [lia|].
  destruct (loadChunk_loop_join_fails repository chunk enc (d + p) Hloads Hjoin
              (Z.to_nat (d + p)) 0 (replicate (Z.to_nat (d + p)) None) 0 w)
    as (w' & ->); try (unfold uint_modulus; lia).
  exists w'. rewrite Z.add_0_l, Z2Nat.id by lia. do 4 f_equal.
  unfold wrap_uint, uint_modulus. fold d.
  symmetry. apply (Z.mod_unique _ _ (-1)); lia.
Qed.

(** A chunk of shape (2, 1) under the copying coder, which joins chunks of
    shape (1, p) only: all three shards load, and the error counts three
    blocks found and [2^64 - 1] failed backends. *)
Lemma loadChunk_coder_fails_witness :
  let shards := [Some [Byte.x68]; Some [Byte.x69]; Some [Byte.x01]] in
  let repository := mkRepository (mkBackendManager [shard_backend shards] 0) "secret" in
  let chunk := mkChunk None 2 1 2 2 "hi" "hi" 0 CompressionNone EncryptionNone in
  exists w',
    loadChunk repository chunk ()
    = (Returned (Err (DataReconstructionError chunk 3 18446744073709551615)), w').
Proof.
  intros shards repository chunk.
  apply (loadChunk_coder_fails repository chunk ((2, 1) : @rs_Encoder copy_codecs) ()).
  - reflexivity.
  - reflexivity.
  - reflexivity.
  - reflexivity.
  - intros i w Hi. unfold BackendManager.LoadChunk. simpl.
    assert (Hcases : i = 0 \/ i = 1 \/ i = 2) by (simpl in Hi; lia).
    destruct Hcases as [-> | [-> | ->]]; simpl; eauto.
  - intros pars. simpl. eauto.
Defined.

(** ** The chunk cache and its mutex *)

Section ChunkCache.
Context {World : Type} `{!Codecs}.
Variables (repository : Repository World) (arc : ItemData).

Lemma indexOfChunk_Ok_found n idx :
  indexOfChunk arc n = Ok idx ->
  exists c, chunk_of_num (Chunks arc) n = Some c /\ go_index (Chunks arc) idx = Some c.
Proof.
  intros Hidx. destruct (chunk_of_num (Chunks arc) n) as [c|] eqn:Hfind.
  - destruct (indexOfChunk_found arc n c Hfind) as (idx' & Hidx' & Hat).
    rewrite Hidx in Hidx'. inversion Hidx'; subst. eauto.
  - rewrite (indexOfChunk_missing arc n Hfind) in Hidx. discriminate Hidx.
Qed.

(** X4.  A chunk that [readArchiveChunk] has returned is in the cache: the
    same call made again returns the same bytes, loads nothing and leaves
    the cache, the mutex and the world as they are. *)
Theorem readArchiveChunk_again (n : Z) (st st1 : State World) (d : bytes) :
  readArchiveChunk repository arc n st = Returned ((d, None), st1) ->
  readArchiveChunk repository arc n st1 = Returned ((d, None), st1).
Proof.
  unfold readArchiveChunk.
  destruct (indexOfChunk arc n) as [idx|e]; [|discriminate].
  destruct (go_index (Chunks arc) idx) as [c|]; [|discriminate].
  destruct (mutex_locked st); [discriminate|].
  destruct (cache st !! ShaSum c) as [cacheData|] eqn:Hcache.
  - intros Hrun. inversion Hrun; subst. simpl. now rewrite Hcache.
  - destruct (loadChunk repository c (world st)) as [[[finalData|err]|pe|] w];
      try discriminate.
    intros Hrun. inversion Hrun; subst. simpl. now rewrite lookup_insert_eq.
Qed.

(** X5.  When [readArchiveChunk] finds the chunk but fails to load it, it
    returns with the mutex held: from then on every [readArchiveChunk] for
    a chunk of the archive blocks, and so does [DecodeArchiveData] of a File
    archive that has a chunk number 0. *)
Theorem readArchiveChunk_failure_keeps_mutex (n idx : Z) (st st1 : State World)
    (dat : bytes) (err : error) :
  indexOfChunk arc n = Ok idx ->
  readArchiveChunk repository arc n st = Returned ((dat, Some err), st1) ->
  mutex_locked st1 = true
  /\ (forall m idx', indexOfChunk arc m = Ok idx' ->
                     readArchiveChunk repository arc m st1 = Blocked)
  /\ (forall idx0, Type_ arc = File -> indexOfChunk arc 0 = Ok idx0 ->
                   DecodeArchiveData repository arc st1 = Blocked).
Proof.
  intros Hidx. unfold readArchiveChunk at 1. rewrite Hidx.
  destruct (indexOfChunk_Ok_found n idx Hidx) as (c & _ & ->).
  destruct (mutex_locked st); [discriminate|].
  destruct (cache st !! ShaSum c) as [cacheData|]; [discriminate|].
  destruct (loadChunk repository c (world st)) as [[[finalData|lerr]|pe|] w];
    try discriminate.
  intros Hrun. inversion Hrun; subst. split; [reflexivity|]. split.
  - intros m idx' Hm. unfold readArchiveChunk. rewrite Hm.
    destruct (indexOfChunk_Ok_found m idx' Hm) as (c' & _ & ->). reflexivity.
  - intros idx0 Htype H0. unfold DecodeArchiveData. rewrite Htype.
    destruct (decide (File = File)) as [_|Hne]; [|now destruct Hne].
    destruct (indexOfChunk_Ok_found 0 idx0 H0) as (c' & Hfind & Hat).
    apply chunk_of_num_Some in Hfind. destruct Hfind as [Hin _].
    assert (Hlen : exists n', length (Chunks arc) = S n').
    { clear -Hin. destruct (Chunks arc); [inversion Hin | simpl; eauto]. }
    destruct Hlen as [n' ->]. simpl. rewrite H0, Hat. reflexivity.
Qed.

End ChunkCache.

(** The chunk "he" of the example repository, read twice. *)
Lemma readArchiveChunk_again_witness :
  let st1 := mkState {["he" := [Byte.x68; Byte.x65]]} false () in
  readArchiveChunk hey_repository hey_archive 0 st1
  = Returned (([Byte.x68; Byte.x65], None), st1).
Proof.
  intros st1.
  apply (readArchiveChunk_again hey_repository hey_archive 0 (mkState ∅ false ())).
  vm_compute. reflexivity.
Defined.

(** An archive whose only chunk is not in the repository: the read fails
    with the manager's error, and the next read blocks. *)
Lemma readArchiveChunk_failure_keeps_mutex_witness :
  let st1 := mkState ∅ true () in
  readArchiveChunk hey_repository lost_archive 0 (mkState ∅ false ())
  = Returned (([], Some ErrLoadChunkFailed), st1)
  /\ readArchiveChunk hey_repository lost_archive 0 st1 = Blocked
  /\ DecodeArchiveData hey_repository lost_archive st1 = Blocked.
Proof.
  intros st1.
  assert (Hrun : readArchiveChunk hey_repository lost_archive 0 (mkState ∅ false ())
                 = Returned (([], Some ErrLoadChunkFailed), st1))
    by (vm_compute; reflexivity).
  destruct (readArchiveChunk_failure_keeps_mutex hey_repository lost_archive 0 0
              (mkState ∅ false ()) st1 [] ErrLoadChunkFailed eq_refl Hrun)
    as (_ & Hread & Hdecode).
  split; [exact Hrun|]. split.
  - apply (Hread 0 0). reflexivity.
  - apply (Hdecode 0); reflexivity.
Defined.

(** ** Random access: how a read ends *)

Section ReadArchiveEnds.
Context {World : Type} `{!Codecs}.
Variables (repository : Repository World) (arc : ItemData).

Lemma ReadArchive_loop_length size fuel :
  forall neededPart internalOffset dat0 st dat err st',
    Z.of_nat (length dat0) <= size ->
    ReadArchive_loop fuel repository arc size neededPart internalOffset dat0 st
    = Some (Returned ((dat, err), st')) ->
    err = None /\ Z.of_nat (length dat) = size.
Proof.
  induction fuel as [|fuel IH]; intros k o dat0 st dat err st' Hle Hrun;
    simpl in Hrun.
  - destruct (Z.ltb_spec (Z.of_nat (length dat0)) size); [discriminate Hrun|].
    inversion Hrun; subst. split; [reflexivity | lia].
  - destruct (Z.ltb_spec (Z.of_nat (length dat0)) size) as [Hmore|Hfull].
    2:{ inversion Hrun; subst. split; [reflexivity | lia]. }
    destruct (readArchiveChunk repository arc k st) as [[[b rerr] st1]|pe|];
      try discriminate Hrun.
    destruct (bool_decide (rerr <> None) || (Z.of_nat (length b) =? 0));
      [discriminate Hrun|].
    destruct (slice_from b o) as [d|]; [|discriminate Hrun].
    destruct (bool_decide (rerr <> None) || (Z.of_nat (length d) =? 0));
      [discriminate Hrun|].
    destruct (Z.ltb_spec size (Z.of_nat (length d) + Z.of_nat (length dat0))).
    + unfold slice_to in Hrun.
      destruct ((size - Z.of_nat (length dat0) <? 0)
                || (Z.of_nat (length d) <? size - Z.of_nat (length dat0)));
        [discriminate Hrun|].
      apply IH in Hrun; [assumption|]. rewrite length_app, length_take. lia.
    + apply IH in Hrun; [assumption|]. rewrite length_app. lia.
Qed.

(** X6.  [ReadArchive] of a File archive never returns a short read: when
    it returns without an error, for a [size >= 0], the data has exactly
    [size] bytes.  (A read that cannot be filled ends in a panic or in the
    error of [chunkForOffset].) *)
Theorem ReadArchive_exact_length (offset size : Z) (st st' : State World)
    (dat : bytes) :
  Type_ arc = File ->
  0 <= size ->
  ReadArchive repository arc offset size st = Some (Returned ((dat, None), st')) ->
  Z.of_nat (length dat) = size.
Proof.
  intros Htype Hsize. unfold ReadArchive. rewrite Htype.
  destruct (decide (File = File)) as [_|Hne]; [|now destruct Hne].
  destruct (chunkForOffset arc offset) as [[[neededPart internalOffset]|err]|pe|];
    try discriminate.
  intros Hrun. apply ReadArchive_loop_length in Hrun; [tauto | simpl; lia].
Qed.

(** X7.  A negative offset never yields data: for a File archive that has a
    chunk number 0 and a [size > 0], [chunkForOffset] resolves the offset
    to chunk 0 with the negative offset as internal offset, and
    [ReadArchive] panics (or blocks on the mutex); it does not return. *)
Theorem ReadArchive_negative_offset (offset size : Z) (st : State World) (c : Chunk) :
  Type_ arc = File ->
  chunk_of_num (Chunks arc) 0 = Some c ->
  0 <= OriginalSize c < int_half ->
  - int_half <= offset < 0 ->
  0 < size ->
  chunkForOffset arc offset = Returned (Ok (0, offset))
  /\ ((exists e, ReadArchive repository arc offset size st = Some (Panicked e))
      \/ ReadArchive repository arc offset size st = Some Blocked).
Proof.
  intros Htype Hfind Hsize Hoff Hpos.
  assert (Hresolve : chunkForOffset arc offset = Returned (Ok (0, offset))).
  { unfold chunkForOffset.
    pose proof (chunk_of_num_Some _ _ _ Hfind) as [Hin Hnum].
    assert (Hlen : exists n', length (Chunks arc) = S n').
    { clear -Hin. destruct (Chunks arc); [inversion Hin | simpl; eauto]. }
    destruct Hlen as [n' ->]. simpl chunkForOffset_loop.
    change (wrap_uint 0) with 0.
    destruct (indexOfChunk_found arc 0 c Hfind) as (idx & -> & ->).
    rewrite Z.add_0_l, (wrap_int_small (OriginalSize c)) by lia.
    destruct (Z.ltb_spec offset (OriginalSize c)); [|lia].
    rewrite Z.sub_0_r, wrap_int_small by lia. now rewrite Hnum. }
  split; [exact Hresolve|].
  unfold ReadArchive. rewrite Htype, Hresolve.
  destruct (decide (File = File)) as [_|Hne]; [|now destruct Hne].
  destruct (Z.to_nat size) as [|fuel] eqn:Hfuel; [lia|].
  simpl. destruct (Z.ltb_spec (Z.of_nat 0) size); [|lia].
  destruct (readArchiveChunk repository arc 0 st) as [[[b rerr] st1]|pe|];
    [|left; eauto|now right].
  left. destruct (bool_decide (rerr <> None) || (Z.of_nat (length b) =? 0));
    [eauto|].
  unfold slice_from. destruct (Z.ltb_spec offset 0); [|lia]. simpl. eauto.
Qed.

End ReadArchiveEnds.

(** The file "hey!" read at offset 1 for two bytes. *)
Lemma ReadArchive_exact_length_witness :
  Z.of_nat (length [Byte.x65; Byte.x79]) = 2.
Proof.
  apply (ReadArchive_exact_length hey_repository hey_archive 1 2
           (mkState ∅ false ())
           (mkState {["he" := [Byte.x68; Byte.x65]; "y!" := [Byte.x79; Byte.x21]]}
              false ())).
  - reflexivity.
  - lia.
  - vm_compute. reflexivity.
Defined.

(** The file "hey!" read at offset -1: the slice [b[-1:]] panics. *)
Lemma ReadArchive_negative_offset_witness :
  chunkForOffset hey_archive (-1) = Returned (Ok (0, -1))
  /\ ((exists e, ReadArchive hey_repository hey_archive (-1) 2 (mkState ∅ false ())
                 = Some (Panicked e))
      \/ ReadArchive hey_repository hey_archive (-1) 2 (mkState ∅ false ())
         = Some Blocked).
Proof.
  apply (ReadArchive_negative_offset hey_repository hey_archive (-1) 2
           (mkState ∅ false ()) chunk_he).
  - reflexivity.
  - reflexivity.
  - vm_compute. split; [discriminate | reflexivity].
  - vm_compute. split; [discriminate | reflexivity].
  - lia.
Defined.

(** ** Resolving an offset *)

Lemma size_sum_app xs ys : size_sum (xs ++ ys) = size_sum xs + size_sum ys.
Proof.
  unfold size_sum. induction xs as [|c xs IH]; simpl; [reflexivity|].
  rewrite IH. lia.
Qed.

Lemma size_sum_nonneg cs :
  (forall c, c ∈ cs -> 0 <= OriginalSize c) -> 0 <= size_sum cs.
Proof.
  induction cs as [|c cs IH]; intros Hnn; simpl; [reflexivity|].
  pose proof (Hnn c ltac:(left)).
  assert (0 <= size_sum cs) by (apply IH; intros c' Hc'; apply Hnn; now right).
  unfold size_sum in *. simpl. lia.
Qed.

Lemma size_sum_take_S cs (k : nat) c :
  cs !! k = Some c ->
  size_sum (take (S k) cs) = size_sum (take k cs) + OriginalSize c.
Proof.
  intros Hk. rewrite (take_S_r _ _ _ Hk), size_sum_app.
  unfold size_sum at 2. simpl. lia.
Qed.

Lemma size_sum_take_le cs (k : nat) :
  (forall c, c ∈ cs -> 0 <= OriginalSize c) ->
  size_sum (take k cs) <= size_sum cs.
Proof.
  intros Hnn. rewrite <- (take_drop k cs) at 2. rewrite size_sum_app.
  assert (0 <= size_sum (drop k cs)); [|lia].
  apply size_sum_nonneg. intros c Hc. apply Hnn.
  apply list_elem_of_lookup in Hc. destruct Hc as [j Hj].
  rewrite lookup_drop in Hj. apply list_elem_of_lookup. eauto.
Qed.

Section ChunkForOffset.
Variables (arc : ItemData) (cs : list Chunk) (offset : Z).
Hypothesis Hfound :
  forall j : nat, (j < length cs)%nat ->
                  chunk_of_num (Chunks arc) (Z.of_nat j) = cs !! j.
Hypothesis Hnonneg : forall c, c ∈ cs -> 0 <= OriginalSize c.
Hypothesis Hfits : size_sum cs < int_half.

Lemma chunkForOffset_loop_general n :
  forall (i : nat) acc,
    (i <= length cs)%nat ->
    acc = size_sum (take i cs) ->
    acc <= offset ->
    Z.of_nat (i + n) < uint_modulus ->
    (offset < size_sum cs -> (length cs <= i + n)%nat ->
     exists (k : nat) c,
       cs !! k = Some c
       /\ size_sum (take k cs) <= offset < size_sum (take k cs) + OriginalSize c
       /\ chunkForOffset_loop n (Z.of_nat i) arc offset acc
          = Returned (Ok (Z.of_nat k, offset - size_sum (take k cs))))
    /\ (size_sum cs <= offset -> (i + n = length cs)%nat ->
        chunkForOffset_loop n (Z.of_nat i) arc offset acc = Returned (Err EOF))
    /\ (size_sum cs <= offset -> (length cs < i + n)%nat ->
        chunk_of_num (Chunks arc) (Z.of_nat (length cs)) = None ->
        chunkForOffset_loop n (Z.of_nat i) arc offset acc
        = Returned (Err (SeekError offset))).
Proof using Hfound Hnonneg Hfits.
  induction n as [|n IH]; intros i acc Hi Hacc Hle Hrange.
  - assert (Hfull : (length cs <= i + 0)%nat -> acc = size_sum cs).
    { intros Hge. rewrite Hacc, take_ge by lia. reflexivity. }
    split; [|split].
    + intros Hin Hge. specialize (Hfull Hge). lia.
    + reflexivity.
    + intros _ Hlt. lia.
  - simpl chunkForOffset_loop.
    rewrite (wrap_uint_small (Z.of_nat i)) by lia.
    destruct (decide (i = length cs)) as [->|Hne].
    + assert (Hfull : acc = size_sum cs) by (rewrite Hacc, take_ge by lia; reflexivity).
      split; [|split].
      * intros Hin _. lia.
      * intros _ Hlen. lia.
      * intros _ _ Hgap. now rewrite (indexOfChunk_missing arc _ Hgap).
    + destruct (lookup_lt_is_Some_2 cs i ltac:(lia)) as [c Hc].
      assert (Hin_cs : c ∈ cs) by (apply list_elem_of_lookup; eauto).
      pose proof (Hfound i ltac:(lia)) as Hfind. rewrite Hc in Hfind.
      pose proof (chunk_of_num_Some _ _ _ Hfind) as [_ Hnum].
      destruct (indexOfChunk_found arc _ c Hfind) as (idx & -> & ->).
      pose proof (Hnonneg c Hin_cs) as Hsize.
      pose proof (size_sum_take_S cs i c Hc) as Hnext.
      pose proof (size_sum_take_le cs (S i) Hnonneg) as Hbound.
      pose proof (size_sum_nonneg (take i cs)) as Hprefix.
      assert (0 <= acc).
      { rewrite Hacc. apply Hprefix. intros c' Hc'. apply Hnonneg.
        apply list_elem_of_lookup in Hc'. destruct Hc' as [j Hj].
        apply lookup_take_Some in Hj. apply list_elem_of_lookup. exists j. tauto. }
      unfold int_half, uint_modulus in *.
      rewrite (wrap_int_small (acc + OriginalSize c)) by (unfold int_half; lia).
      destruct (Z.ltb_spec offset (acc + OriginalSize c)) as [Hhere|Hlater].
      * split; [|split; intros; lia].
        intros _ _. exists i, c. split; [assumption|]. split; [lia|].
        rewrite wrap_int_small by (unfold int_half; lia).
        rewrite Hnum, Hacc. reflexivity.
      * replace (Z.of_nat i + 1) with (Z.of_nat (S i)) by lia.
        destruct (IH (S i) (acc + OriginalSize c)) as (IH1 & IH2 & IH3); try lia.
        split; [|split].
        -- intros Hin Hge. apply IH1; [assumption | lia].
        -- intros Hpast Hlen. apply IH2; [assumption | lia].
        -- intros Hpast Hlen Hgap. apply IH3; [assumption | lia | assumption].
Qed.

End ChunkForOffset.

(** X8.  [chunkForOffset] on an archive whose lookups for the numbers
    [0 .. m-1] find the chunks [cs] (of [OriginalSize >= 0], with a sum
    below [2^63]).  An offset [0 <= offset] below the sum resolves to the
    chunk [k] that holds it, with the internal offset
    [offset - (size of the chunks before k)]; chunks of size 0 are passed
    over.  An offset at or past the sum gives [EOF] when [cs] are all the
    chunks, and [SeekError{offset}] when the archive has more chunks but
    none with the number [m]. *)
Theorem chunkForOffset_resolves (arc : ItemData) (cs : list Chunk) (offset : Z) :
  (forall j : nat, (j < length cs)%nat ->
                   chunk_of_num (Chunks arc) (Z.of_nat j) = cs !! j) ->
  (forall c, c ∈ cs -> 0 <= OriginalSize c) ->
  size_sum cs < int_half ->
  Z.of_nat (length (Chunks arc)) < uint_modulus ->
  (length cs <= length (Chunks arc))%nat ->
  0 <= offset ->
  (offset < size_sum cs ->
   exists (k : nat) c,
     cs !! k = Some c
     /\ size_sum (take k cs) <= offset < size_sum (take k cs) + OriginalSize c
     /\ chunkForOffset arc offset
        = Returned (Ok (Z.of_nat k, offset - size_sum (take k cs))))
  /\ (size_sum cs <= offset -> length cs = length (Chunks arc) ->
      chunkForOffset arc offset = Returned (Err EOF))
  /\ (size_sum cs <= offset -> (length cs < length (Chunks arc))%nat ->
      chunk_of_num (Chunks arc) (Z.of_nat (length cs)) = None ->
      chunkForOffset arc offset = Returned (Err (SeekError offset))).
Proof.
  intros Hfound Hnonneg Hfits Hlen Hcs Hoff. unfold chunkForOffset.
  destruct (chunkForOffset_loop_general arc cs offset Hfound Hnonneg Hfits
              (length (Chunks arc)) 0%nat 0) as (H1 & H2 & H3);
    try (simpl; lia); try reflexivity.
  change (Z.of_nat 0) with 0 in *. split; [|split].
  - intros Hin. apply H1; [assumption | simpl; lia].
  - intros Hpast Heq. apply H2; [assumption | simpl; lia].
  - intros Hpast Hlt Hgap. apply H3; [assumption | simpl; lia | assumption].
Qed.

(** The file "hey!": offset 3 is byte 1 of chunk 1. *)
Lemma chunkForOffset_resolves_witness :
  chunkForOffset hey_archive 3 = Returned (Ok (1, 1)).
Proof.
  destruct (chunkForOffset_resolves hey_archive [chunk_he; chunk_y] 3)
    as (Hin & _ & _).
  - intros j Hj. destruct j as [|[|j]]; [reflexivity | reflexivity | simpl in Hj; lia].
  - intros c Hc. apply elem_of_cons in Hc. destruct Hc as [->|Hc]; [simpl; lia|].
    apply elem_of_cons in Hc. destruct Hc as [->|Hc]; [simpl; lia | inversion Hc].
  - reflexivity.
  - reflexivity.
  - simpl. lia.
  - lia.
  - destruct Hin as (k & c & Hk & Hbounds & Hrun); [vm_compute; reflexivity|].
    destruct k as [|[|k]]; simpl in Hk; inversion Hk; subst c.
    + vm_compute in Hbounds. destruct Hbounds as [_ Hb]. discriminate Hb.
    + exact Hrun.
Defined.

(** ** Whole-archive decoding: statistics and the cache *)

Lemma wrap_uint_range z : 0 <= wrap_uint z < uint_modulus.
Proof. unfold wrap_uint, uint_modulus. apply Z.mod_pos_bound. lia. Qed.

Lemma wrap_uint_add_r x y : wrap_uint (x + wrap_uint y) = wrap_uint (x + y).
Proof. unfold wrap_uint. apply Zplus_mod_idemp_r. Qed.

Lemma wrap_uint_add_l x y : wrap_uint (wrap_uint x + y) = wrap_uint (x + y).
Proof. unfold wrap_uint. apply Zplus_mod_idemp_l. Qed.

Lemma wrap_uint_running a b c :
  wrap_uint (wrap_uint (a + wrap_uint b) + c) = wrap_uint (a + (b + c)).
Proof.
  rewrite wrap_uint_add_l.
  replace (a + wrap_uint b + c) with (a + c + wrap_uint b) by lia.
  rewrite wrap_uint_add_r. f_equal. lia.
Qed.

Section DecodeStatistics.
Context {World : Type} `{!Codecs}.
Variables (repository : Repository World) (arc : ItemData).
Variables (cs : list Chunk) (plain : Chunk -> bytes).
Hypothesis Hperm : Permutation (Chunks arc) cs.
Hypothesis Hnum : numbered cs.
Hypothesis Hfits : Z.of_nat (length cs) < uint_modulus.
Hypothesis Hdec : decodes_to repository plain cs.
Hypothesis Haddr : content_addressed plain cs.

Local Abbreviation lengths l := (map (fun c => Z.of_nat (length (plain c))) l).

Lemma DecodeArchiveData_loop_statistics n :
  forall (i : nat) dat stats st,
    (i + n = length cs)%nat ->
    ready plain cs st ->
    exists st',
      DecodeArchiveData_loop n (Z.of_nat i) repository arc dat stats st
      = Returned
          ((dat ++ file_of plain (drop i cs),
            mkStats (wrap_uint (Stats_Files stats + 1)) (Stats_Dirs stats)
              (Stats_SymLinks stats)
              (if n is O then Stats_Size stats
               else wrap_uint (Stats_Size stats
                               + cumulative (lengths (drop i cs))
                                   (Z.of_nat (length dat))))
              (if n is O then Stats_StorageSize stats
               else wrap_uint (Stats_StorageSize stats
                               + cumulative (lengths (drop i cs))
                                   (Z.of_nat (length dat)))),
            None), st')
      /\ ready plain cs st'
      /\ (forall c, c ∈ cs -> cache st !! ShaSum c = Some (plain c) ->
                    cache st' !! ShaSum c = Some (plain c))
      /\ all_cached plain (drop i cs) (cache st')
      /\ (all_cached plain (drop i cs) (cache st) ->
          cache st' = cache st /\ world st' = world st).
Proof using Hperm Hnum Hfits Hdec Haddr.
  induction n as [|n IH]; intros i dat stats st Hin [Hfree Hcoh].
  - simpl. rewrite drop_ge by lia. unfold file_of. simpl. rewrite app_nil_r.
    exists st. split; [reflexivity|]. split; [now split|]. split; [auto|].
    split; [intros c Hc; inversion Hc | auto].
  - simpl DecodeArchiveData_loop.
    destruct (lookup_lt_is_Some_2 cs i ltac:(lia)) as [c Hc].
    assert (Hin_cs : c ∈ cs) by (apply list_elem_of_lookup; eauto).
    pose proof (chunk_of_num_archive arc cs i Hperm Hnum) as Hfind.
    rewrite Hc in Hfind.
    destruct (indexOfChunk_found arc _ c Hfind) as (idx & -> & ->).
    rewrite Hfree.
    rewrite (wrap_uint_small (Z.of_nat i + 1)) by lia.
    replace (Z.of_nat i + 1) with (Z.of_nat (S i)) by lia.
    rewrite (drop_S _ _ _ Hc). unfold file_of. simpl map. simpl concat.
    fold (file_of plain (drop (S i) cs)). rewrite app_assoc.
    set (dat1 := dat ++ plain c).
    set (len1 := Z.of_nat (length dat1)).
    assert (Hlen1 : Z.of_nat (length dat) + Z.of_nat (length (plain c)) = len1).
    { unfold len1, dat1. rewrite length_app. lia. }
    assert (Hstep : forall st1,
               ready plain cs st1 ->
               (forall c', c' ∈ cs -> cache st !! ShaSum c' = Some (plain c') ->
                           cache st1 !! ShaSum c' = Some (plain c')) ->
               cache st1 !! ShaSum c = Some (plain c) ->
               (all_cached plain (c :: drop (S i) cs) (cache st) ->
                cache st1 = cache st /\ world st1 = world st) ->
               exists st',
                 DecodeArchiveData_loop n (Z.of_nat (S i)) repository arc dat1
                   (mkStats (Stats_Files stats) (Stats_Dirs stats)
                      (Stats_SymLinks stats)
                      (wrap_uint (Stats_Size stats + wrap_uint len1))
                      (wrap_uint (Stats_StorageSize stats + wrap_uint len1))) st1
                 = Returned
                     ((dat1 ++ file_of plain (drop (S i) cs),
                       mkStats (wrap_uint (Stats_Files stats + 1)) (Stats_Dirs stats)
                         (Stats_SymLinks stats)
                         (wrap_uint (Stats_Size stats
                                     + cumulative
                                         (Z.of_nat (length (plain c))
                                            :: lengths (drop (S i) cs))
                                         (Z.of_nat (length dat))))
                         (wrap_uint (Stats_StorageSize stats
                                     + cumulative
                                         (Z.of_nat (length (plain c))
                                            :: lengths (drop (S i) cs))
                                         (Z.of_nat (length dat)))),
                       None), st')
                 /\ ready plain cs st'
                 /\ (forall c', c' ∈ cs -> cache st !! ShaSum c' = Some (plain c') ->
                                cache st' !! ShaSum c' = Some (plain c'))
                 /\ all_cached plain (c :: drop (S i) cs) (cache st')
                 /\ (all_cached plain (c :: drop (S i) cs) (cache st) ->
                     cache st' = cache st /\ world st' = world st)).
    { intros st1 Hready1 Hkeep Hhere Hsame.
      destruct (IH (S i) dat1
                  (mkStats (Stats_Files stats) (Stats_Dirs stats) (Stats_SymLinks stats)
                     (wrap_uint (Stats_Size stats + wrap_uint len1))
                     (wrap_uint (Stats_StorageSize stats + wrap_uint len1))) st1
                  ltac:(lia) Hready1)
        as (st' & Hrun & Hready' & Hkeep' & Hrest & Hsame').
      exists st'. split; [|split; [assumption|split; [|split]]].
      - rewrite Hrun. simpl Stats_Files. simpl Stats_Dirs. simpl Stats_SymLinks.
        simpl Stats_Size. simpl Stats_StorageSize. simpl cumulative.
        rewrite Hlen1. fold len1.
        destruct n as [|n'].
        + assert (Hnil : drop (S i) cs = []) by (apply drop_ge; lia).
          rewrite Hnil. change (cumulative (lengths []) len1) with 0.
          rewrite !Z.add_0_r, !wrap_uint_add_r. reflexivity.
        + rewrite !wrap_uint_running. reflexivity.
      - intros c' Hc' Hold. apply Hkeep'; [assumption|]. now apply Hkeep.
      - intros c' Hc'. apply elem_of_cons in Hc'. destruct Hc' as [->|Hc'].
        + apply Hkeep'; assumption.
        + now apply Hrest.
      - intros Hall. destruct (Hsame Hall) as [Hc1 Hw1].
        destruct Hsame' as [Hc2 Hw2].
        + intros c' Hc'. rewrite Hc1. apply Hall. now right.
        + split; congruence. }
    destruct (cache st !! ShaSum c) as [cacheData|] eqn:Hcache.
    + rewrite (Hcoh c cacheData Hin_cs Hcache).
      rewrite (Hcoh c cacheData Hin_cs Hcache) in Hcache.
      apply Hstep; simpl; auto. now split.
    + destruct (Hdec c (world st) Hin_cs) as (w' & ->).
      apply Hstep; simpl.
      * split; [reflexivity|]. simpl. now apply cache_coherent_insert.
      * intros c' Hc' Hold. destruct (decide (ShaSum c = ShaSum c')) as [Heq|Hne].
        -- rewrite Heq in Hcache. congruence.
        -- now rewrite lookup_insert_ne.
      * apply lookup_insert_eq.
      * intros Hall. rewrite (Hall c ltac:(left)) in Hcache. discriminate Hcache.
Qed.

End DecodeStatistics.

(** X9.  The statistics of a decode that succeeds.  For a File archive
    whose stored chunks are a permutation of chunks numbered [0 .. n-1]
    that decode: [Files] is 1, [Dirs] and [SymLinks] are 0, and [Size] and
    [StorageSize] are both the sum, modulo [2^64], of the lengths that the
    data had after each chunk was appended: [l1 + (l1+l2) + ...], not the
    length of the file. *)
Theorem DecodeArchiveData_statistics {World} `{!Codecs}
    (repository : Repository World) (arc : ItemData) (cs : list Chunk)
    (plain : Chunk -> bytes) (st : State World) :
  Type_ arc = File ->
  Permutation (Chunks arc) cs ->
  numbered cs ->
  Z.of_nat (length cs) < uint_modulus ->
  decodes_to repository plain cs ->
  content_addressed plain cs ->
  ready plain cs st ->
  let total :=
    wrap_uint (cumulative (map (fun c => Z.of_nat (length (plain c))) cs) 0) in
  exists st',
    DecodeArchiveData repository arc st
    = Returned ((file_of plain cs, mkStats 1 0 0 total total, None), st').
Proof.
  intros Htype Hperm Hnum Hfits Hdec Haddr Hready total.
  unfold DecodeArchiveData. rewrite Htype, (Permutation_length Hperm).
  destruct (decide (File = File)) as [_|Hne]; [|now destruct Hne].
  destruct (DecodeArchiveData_loop_statistics repository arc cs plain Hperm Hnum
              Hfits Hdec Haddr (length cs) 0%nat [] (mkStats 0 0 0 0 0) st
              eq_refl Hready) as (st' & Hrun & _).
  exists st'. change (Z.of_nat 0) with 0 in Hrun. rewrite Hrun.
  simpl. do 3 f_equal. unfold total.
  destruct (length cs) eqn:Hlen.
  - apply length_zero_iff_nil in Hlen. subst cs. reflexivity.
  - reflexivity.
Qed.

(** X10.  A decode that succeeds fills the cache: decoding the same archive
    again returns the same data and statistics from the cache alone, and
    leaves the cache, the mutex and the world behind the backends as they
    are. *)
Theorem DecodeArchiveData_again {World} `{!Codecs}
    (repository : Repository World) (arc : ItemData) (cs : list Chunk)
    (plain : Chunk -> bytes) (st : State World) :
  Type_ arc = File ->
  Permutation (Chunks arc) cs ->
  numbered cs ->
  Z.of_nat (length cs) < uint_modulus ->
  decodes_to repository plain cs ->
  content_addressed plain cs ->
  ready plain cs st ->
  exists stats st',
    DecodeArchiveData repository arc st
    = Returned ((file_of plain cs, stats, None), st')
    /\ all_cached plain cs (cache st')
    /\ DecodeArchiveData repository arc st'
       = Returned ((file_of plain cs, stats, None), st').
Proof.
  intros Htype Hperm Hnum Hfits Hdec Haddr Hready.
  unfold DecodeArchiveData. rewrite Htype, (Permutation_length Hperm).
  destruct (decide (File = File)) as [_|Hne]; [|now destruct Hne].
  destruct (DecodeArchiveData_loop_statistics repository arc cs plain Hperm Hnum
              Hfits Hdec Haddr (length cs) 0%nat [] (mkStats 0 0 0 0 0) st
              eq_refl Hready) as (st1 & Hrun & Hready1 & _ & Hall & _).
  destruct (DecodeArchiveData_loop_statistics repository arc cs plain Hperm Hnum
              Hfits Hdec Haddr (length cs) 0%nat [] (mkStats 0 0 0 0 0) st1
              eq_refl Hready1) as (st2 & Hrun2 & Hready2 & _ & _ & Hsame).
  change (Z.of_nat 0) with 0 in *. rewrite drop_0 in *.
  eexists _, st1. split; [exact Hrun|]. split; [exact Hall|].
  rewrite Hrun2. do 2 f_equal.
  destruct (Hsame Hall) as [Hcache Hworld].
  destruct Hready1 as [Hfree1 _], Hready2 as [Hfree2 _].
  destruct st1, st2. simpl in *. congruence.
Qed.

(** The file "hey!": the two chunks have two bytes each, and the decode
    counts 2 + 4 = 6 bytes. *)
Lemma DecodeArchiveData_statistics_witness :
  exists st',
    DecodeArchiveData hey_repository hey_archive (mkState ∅ false ())
    = Returned (([Byte.x68; Byte.x65; Byte.x79; Byte.x21], mkStats 1 0 0 6 6, None),
                st').
Proof.
  apply (DecodeArchiveData_statistics hey_repository hey_archive
           [chunk_he; chunk_y] hey_plain).
  - reflexivity.
  - apply perm_swap.
  - exact hey_numbered.
  - reflexivity.
  - exact hey_decodes.
  - exact hey_content_addressed.
  - exact hey_ready.
Defined.

(** The file "hey!" decoded twice. *)
Lemma DecodeArchiveData_again_witness :
  exists stats st',
    DecodeArchiveData hey_repository hey_archive (mkState ∅ false ())
    = Returned (([Byte.x68; Byte.x65; Byte.x79; Byte.x21], stats, None), st')
    /\ all_cached hey_plain [chunk_he; chunk_y] (cache st')
    /\ DecodeArchiveData hey_repository hey_archive st'
       = Returned (([Byte.x68; Byte.x65; Byte.x79; Byte.x21], stats, None), st').
Proof.
  apply (DecodeArchiveData_again hey_repository hey_archive
           [chunk_he; chunk_y] hey_plain).
  - reflexivity.
  - apply perm_swap.
  - exact hey_numbered.
  - reflexivity.
  - exact hey_decodes.
  - exact hey_content_addressed.
  - exact hey_ready.
Defined.

(** * Further properties of the backend manager *)

(** ** When [StoreChunk] panics, and the cursor it leaves *)

Section StoreChunkCursor.
Context {World : Type}.
Variables (bes : list (Backend World)) (chunk : Chunk).
Hypothesis backends_fit : Z.of_nat (length bes) < int_half - 1.

Lemma StoreChunk_range_cursor shards :
  forall i last w,
    (1 <= length bes)%nat ->
    -1 <= last < int_half - 2 ->
    exists last' r w',
      BackendManager.StoreChunk_range bes chunk i shards last w
      = (Returned (last', r), w')
      /\ (shards = [] -> last' = last)
      /\ (shards <> [] -> 0 <= last' < Z.of_nat (length bes)).
Proof using backends_fit.
  induction shards as [|data rest IH]; intros i last w HN Hlast.
  - exists last, (Ok (wrap_uint (Size chunk))), w. simpl.
    split; [reflexivity|]. split; [reflexivity | intros Hne; now destruct Hne].
  - simpl. unfold int_half in *.
    rewrite (wrap_int_small (last + 1)) by (unfold int_half; lia).
    rewrite wrap_int_small by (unfold int_half; lia).
    set (next := if Z.of_nat (length bes) <? last + 1 + 1 then 0 else last + 1).
    assert (Hnext : 0 <= next < Z.of_nat (length bes)).
    { unfold next. destruct (Z.ltb_spec (Z.of_nat (length bes)) (last + 1 + 1)); lia. }
    unfold go_index. destruct (Z.ltb_spec next 0); [lia|].
    destruct (lookup_lt_is_Some_2 bes (Z.to_nat next) ltac:(lia)) as [be ->].
    destruct (be_StoreChunk be (ShaSum chunk) i (DataParts chunk) data w)
      as [[sz|e] w1].
    + destruct (IH (i + 1) next w1 HN ltac:(lia)) as (last' & r & w' & -> & Hnil & Hcons).
      exists last', r, w'. split; [reflexivity|]. split; [discriminate|].
      intros _. destruct rest as [|data' rest'].
      * rewrite Hnil by reflexivity. assumption.
      * apply Hcons. discriminate.
    + exists next, (Err e), w1. split; [reflexivity|]. split; [discriminate|auto].
Qed.

End StoreChunkCursor.

(** X11.  [StoreChunk] of the manager, for a cursor [c] and fewer than
    [2^63 - 1] backends.  It panics when [chunk.Data] is nil, and when there
    is a shard to place but no backend, or a cursor below -1 (the index
    into [Backends] is out of range).  Otherwise it returns, and if a shard
    was placed the cursor it leaves is an index of [Backends]: a cursor -1
    or one past the list is brought back into range. *)
Theorem StoreChunk_panics_or_keeps_cursor {World} (bes : list (Backend World))
    (c : Z) (chunk : Chunk) (w : World) :
  let backend := mkBackendManager bes c in
  Z.of_nat (length bes) < int_half - 1 ->
  - int_half <= c < int_half - 2 ->
  (Data chunk = None ->
   BackendManager.StoreChunk backend chunk w = (Panicked None, w))
  /\ (Data chunk = Some [] ->
      BackendManager.StoreChunk backend chunk w
      = (Returned (backend, Ok (wrap_uint (Size chunk))), w))
  /\ (forall shard rest,
         Data chunk = Some (shard :: rest) ->
         bes = [] \/ c < -1 ->
         BackendManager.StoreChunk backend chunk w = (Panicked None, w))
  /\ (forall shard rest,
         Data chunk = Some (shard :: rest) ->
         bes <> [] -> -1 <= c ->
         exists last r w',
           BackendManager.StoreChunk backend chunk w
           = (Returned (mkBackendManager bes last, r), w')
           /\ 0 <= last < Z.of_nat (length bes)).
Proof.
  intros backend Hfit Hc. unfold BackendManager.StoreChunk, backend. simpl.
  split; [|split; [|split]].
  - intros ->. reflexivity.
  - intros ->. reflexivity.
  - intros shard rest -> Hbad. simpl. unfold int_half in *.
    rewrite (wrap_int_small (c + 1)) by (unfold int_half; lia).
    rewrite wrap_int_small by (unfold int_half; lia).
    destruct Hbad as [->|Hlow].
    + simpl length. unfold go_index.
      destruct (Z.ltb_spec (Z.of_nat 0) (c + 1 + 1)).
      * reflexivity.
      * destruct (Z.ltb_spec (c + 1) 0); reflexivity.
    + destruct (Z.ltb_spec (Z.of_nat (length bes)) (c + 1 + 1)); [lia|].
      unfold go_index. destruct (Z.ltb_spec (c + 1) 0); [reflexivity | lia].
  - intros shard rest -> Hsome Hlow.
    destruct (StoreChunk_range_cursor bes chunk Hfit (shard :: rest) 0 c w)
      as (last & r & w' & -> & _ & Hin).
    + destruct bes; [contradiction | simpl; lia].
    + lia.
    + exists last, r, w'. split; [reflexivity|]. apply Hin. discriminate.
Qed.

(** A fresh manager of two backends: the first shard goes to backend 1,
    the second to backend 0, where the cursor stays. *)
Lemma StoreChunk_panics_or_keeps_cursor_witness :
  let bes := [logging_backend "a" true []; logging_backend "b" true []] in
  let chunk := mkChunk (Some [[Byte.x01]; [Byte.x02]]) 1 1 2 2 "ab" "ab" 0
                 CompressionNone EncryptionNone in
  exists last r w',
    BackendManager.StoreChunk (mkBackendManager bes 0) chunk []
    = (Returned (mkBackendManager bes last, r), w')
    /\ 0 <= last < 2.
Proof.
  intros bes chunk.
  destruct (StoreChunk_panics_or_keeps_cursor bes 0 chunk []) as (_ & _ & _ & H).
  - vm_compute. reflexivity.
  - vm_compute. split; [discriminate | reflexivity].
  - apply (H [Byte.x01] [[Byte.x02]]); [reflexivity | discriminate | lia].
Defined.

(** ** Adding a backend *)

Section AddBackend.
Context {World : Type}.

Lemma range_first_success_snoc {A} (calls : list (IO World (result A)))
    (call : IO World (result A)) fail w :
  range_first_success (calls ++ [call]) fail w
  = match range_first_success calls fail w with
    | (Ok d, w') => (Ok d, w')
    | (Err _, w') =>
        match call w' with
        | (Ok d, w'') => (Ok d, w'')
        | (Err _, w'') => (Err fail, w'')
        end
    end.
Proof.
  revert w. induction calls as [|c calls IH]; intros w; simpl.
  - destruct (call w) as [[d|e] w']; reflexivity.
  - destruct (c w) as [[d|e] w']; [reflexivity | apply IH].
Qed.

Lemma range_until_error_snoc (calls : list (IO World (option error)))
    (call : IO World (option error)) w :
  range_until_error (calls ++ [call]) w
  = match range_until_error calls w with
    | (Some e, w') => (Some e, w')
    | (None, w') => call w'
    end.
Proof.
  revert w. induction calls as [|c calls IH]; intros w; simpl.
  - destruct (call w) as [[e|] w']; reflexivity.
  - destruct (c w) as [[e|] w']; [reflexivity | apply IH].
Qed.

(** X12.  [AddBackend] puts the new backend last and leaves the cursor.  A
    load on the larger manager returns what the old manager returned when
    that succeeded, and asks the new backend only when every old backend
    has failed; a write on the larger manager writes to the old backends
    first and to the new one only when they all succeeded. *)
Theorem AddBackend_fan_out (backend : BackendManager World) (be : Backend World)
    (chunk : Chunk) (part : Z) (id : string) (b : bytes) (w : World) :
  let larger := BackendManager.AddBackend backend be in
  lastUsedBackend larger = lastUsedBackend backend
  /\ BackendManager.LoadChunk larger chunk part w
     = match BackendManager.LoadChunk backend chunk part w with
       | (Ok d, w') => (Ok d, w')
       | (Err _, w') =>
           match be_LoadChunk be (ShaSum chunk) part (DataParts chunk) w' with
           | (Ok d, w'') => (Ok d, w'')
           | (Err _, w'') => (Err ErrLoadChunkFailed, w'')
           end
       end
  /\ BackendManager.LoadSnapshot larger id w
     = match BackendManager.LoadSnapshot backend id w with
       | (Ok d, w') => (Ok d, w')
       | (Err _, w') =>
           match be_LoadSnapshot be id w' with
           | (Ok d, w'') => (Ok d, w'')
           | (Err _, w'') => (Err ErrLoadSnapshotFailed, w'')
           end
       end
  /\ BackendManager.LoadRepository larger w
     = match BackendManager.LoadRepository backend w with
       | (Ok d, w') => (Ok d, w')
       | (Err _, w') =>
           match be_LoadRepository be w' with
           | (Ok d, w'') => (Ok d, w'')
           | (Err _, w'') => (Err ErrLoadRepositoryFailed, w'')
           end
       end
  /\ BackendManager.SaveSnapshot larger id b w
     = match BackendManager.SaveSnapshot backend id b w with
       | (Some e, w') => (Some e, w')
       | (None, w') => be_SaveSnapshot be id b w'
       end
  /\ BackendManager.SaveRepository larger b w
     = match BackendManager.SaveRepository backend b w with
       | (Some e, w') => (Some e, w')
       | (None, w') => be_SaveRepository be b w'
       end
  /\ BackendManager.InitRepository larger w
     = match BackendManager.InitRepository backend w with
       | (Some e, w') => (Some e, w')
       | (None, w') => be_InitRepository be w'
       end.
Proof.
  unfold BackendManager.AddBackend, BackendManager.LoadChunk,
    BackendManager.LoadSnapshot, BackendManager.LoadRepository,
    BackendManager.SaveSnapshot, BackendManager.SaveRepository,
    BackendManager.InitRepository.
  simpl. rewrite !map_app. simpl.
  rewrite !range_first_success_snoc, !range_until_error_snoc.
  repeat split.
Qed.

End AddBackend.

(** * Further properties of the store command *)

(** X13.  [store] with a failure tolerance [t] of at most the number [N] of
    backends, once [os.Getwd] has succeeded.  For [t = N] it returns
    [ErrRedundancyAmount] without calling [snapshot.Add].  For [t < N] it
    calls [snapshot.Add] with [N - t] data parts and [t] parity parts,
    compressing only when the option is gzip (in any case) and encrypting
    unless the option is none (in any case), and returns the error of
    that call. *)
Theorem store_validates_tolerance {World} `{!CmdStore.Env World}
    (cmd : CmdStore.CmdStore) (repository : Repository World)
    (targets : list string) (w w1 : World) (wd : string) :
  let N := Z.of_nat (length (Backends (Repository_Backend repository))) in
  let t := CmdStore.FailureTolerance cmd in
  CmdStore.os_Getwd w = (Ok wd, w1) ->
  N < uint_modulus ->
  0 <= t <= N ->
  (t = N ->
   CmdStore.store cmd repository targets w = (Some ErrRedundancyAmount, w1))
  /\ (t < N ->
      CmdStore.store cmd repository targets w
      = CmdStore.snapshot_Add wd targets repository
          (bool_decide (CmdStore.strings_ToLower (CmdStore.Compression cmd) = "gzip"))
          (bool_decide (CmdStore.strings_ToLower (CmdStore.Encryption cmd) <> "none"))
          (N - t) t w1).
Proof.
  intros N t Hwd HN Ht. split.
  - intros Heq. now apply (store_tolerance_equal cmd repository targets w wd w1).
  - intros Hlt. apply (store_tolerance_below cmd repository targets w wd w1);
      [assumption | assumption | fold t N; lia].
Qed.

(** Three backends and a tolerance of one: [snapshot.Add] is called with
    two data parts and one parity part. *)
Lemma store_validates_tolerance_witness :
  let repository :=
    mkRepository
      (mkBackendManager
         [unreachable_backend; unreachable_backend; unreachable_backend] 0)
      "secret" in
  CmdStore.store (CmdStore.mkCmdStore "nightly" "gzip" "aes" 1) repository ["/etc"] []
  = (None, [(2, 1)]).
Proof.
  intros repository.
  destruct (store_validates_tolerance
              (CmdStore.mkCmdStore "nightly" "gzip" "aes" 1) repository ["/etc"]
              [] [] "/") as [_ Hbelow].
  - reflexivity.
  - reflexivity.
  - simpl. lia.
  - rewrite Hbelow by (simpl; lia). reflexivity.
Defined.

(** * Further properties of the Dropbox backend *)

Section DropboxRoundTrip.
Context {World : Type} `{!StorageDropbox.Client World} `{!StorageDropbox.Reads World}.
Variable backend : StorageDropbox.StorageDropbox.

(** X14.  What [StoreChunk] has stored, [LoadChunk] loads: both use the
    same path for a shard.  This holds when the account returns what the
    call uploads to that path, and when a blob that the call finds at the
    path with the length of the shard is the shard (the test that skips
    the upload compares lengths only). *)
Theorem dropbox_store_then_load (sha_sum : string) (part total_parts : Z)
    (data : bytes) (w w' : World) (stored_size : Z) :
  let target := StorageDropbox.chunkFileName backend sha_sum part total_parts in
  let w1 := (StorageDropbox.CreateFolder
               (StorageDropbox.chunkDir backend sha_sum) w).2 in
  let w2 := (StorageDropbox.Metadata target w1).2 in
  (forall entry w3,
      StorageDropbox.UploadByChunk data (Z.of_nat (length data)) target true
        EmptyString w2 = (Some entry, None, w3) ->
      holds w3 target data) ->
  (forall entry,
      (StorageDropbox.Metadata target w1).1 = Ok entry ->
      StorageDropbox.Bytes entry = Z.of_nat (length data) ->
      holds w2 target data) ->
  StorageDropbox.StoreChunk backend sha_sum part total_parts data w
  = (Returned (stored_size, None), w') ->
  (StorageDropbox.LoadChunk backend sha_sum part total_parts w').1
  = (Some data, None).
Proof.
  intros target w1 w2 Hupload Hsame. unfold StorageDropbox.StoreChunk.
  subst w2 w1.
  destruct (StorageDropbox.CreateFolder _ w) as [r0 w1].
  fold target in Hupload, Hsame |- *. simpl in Hupload, Hsame.
  destruct (StorageDropbox.Metadata target w1) as [m w2] eqn:Hmeta.
  simpl in Hupload, Hsame.
  assert (Hload : holds w' target data ->
                  (StorageDropbox.LoadChunk backend sha_sum part total_parts w').1
                  = (Some data, None)).
  { intros (obj & w4 & Hdown & Hread). unfold StorageDropbox.LoadChunk.
    fold target. rewrite Hdown.
    destruct (StorageDropbox.ReadAll obj w4) as [[d e] w5]. simpl in Hread.
    inversion Hread; subst. reflexivity. }
  destruct m as [entry|e].
  - destruct (Z.eqb_spec (StorageDropbox.Bytes entry) (Z.of_nat (length data)))
      as [Hlen|Hlen].
    + intros Hrun. inversion Hrun; subst. apply Hload. eauto.
    + destruct (StorageDropbox.UploadByChunk _ _ target _ _ w2)
        as [[[entry'|] err] w3] eqn:Hup; [|discriminate].
      intros Hrun. inversion Hrun; subst. apply Hload. eauto.
  - destruct (StorageDropbox.UploadByChunk _ _ target _ _ w2)
      as [[[entry'|] err] w3] eqn:Hup; [|discriminate].
    intros Hrun. inversion Hrun; subst. apply Hload. eauto.
Qed.

(** X15.  A snapshot and the repository metadata that were saved without
    an error are loaded back, on an account that returns what was uploaded:
    [SaveSnapshot] and [LoadSnapshot] use one path for an id, and
    [SaveRepository] and [LoadRepository] use the repository path. *)
Theorem dropbox_save_then_load (id : string) (data : bytes) (w w' : World) :
  (forall path w2 entry w3,
      StorageDropbox.UploadByChunk data (Z.of_nat (length data)) path true
        EmptyString w2 = (entry, None, w3) ->
      holds w3 path data) ->
  (StorageDropbox.SaveSnapshot backend id data w = (None, w') ->
   (StorageDropbox.LoadSnapshot backend id w').1 = (data, None))
  /\ (StorageDropbox.SaveRepository backend data w = (None, w') ->
      (StorageDropbox.LoadRepository backend w').1 = (data, None)).
Proof.
  intros Hupload. split.
  - unfold StorageDropbox.SaveSnapshot, StorageDropbox.LoadSnapshot.
    destruct (StorageDropbox.UploadByChunk _ _ _ _ _ w) as [[entry err] w3] eqn:Hup.
    intros Hrun. inversion Hrun; subst.
    destruct (Hupload _ _ _ _ Hup) as (obj & w4 & -> & Hread).
    destruct (StorageDropbox.ReadAll obj w4) as [r w5]. simpl in *. now subst.
  - unfold StorageDropbox.SaveRepository, StorageDropbox.LoadRepository.
    destruct (StorageDropbox.UploadByChunk _ _ _ _ _ w) as [[entry err] w3] eqn:Hup.
    intros Hrun. inversion Hrun; subst.
    destruct (Hupload _ _ _ _ Hup) as (obj & w4 & -> & Hread).
    destruct (StorageDropbox.ReadAll obj w4) as [r w5]. simpl in *. now subst.
Qed.

(** X16.  [AvailableSpace] returns [Quota - Shared - Normal] of the account
    as a [uint64].  When the account is used beyond its quota the
    difference is negative and the result wraps around: the free space
    reported is [2^64] less the excess. *)
Theorem dropbox_AvailableSpace (info : StorageDropbox.QuotaInfo) (w w' : World) :
  let free := StorageDropbox.Quota info - StorageDropbox.Shared info
              - StorageDropbox.Normal info in
  StorageDropbox.GetAccountInfo w = (Ok info, w') ->
  - int_half <= StorageDropbox.Quota info - StorageDropbox.Shared info < int_half ->
  - int_half <= free < int_half ->
  (0 <= free ->
   StorageDropbox.AvailableSpace backend w = ((free, None), w'))
  /\ (free < 0 ->
      StorageDropbox.AvailableSpace backend w = ((uint_modulus + free, None), w')).
Proof.
  intros free Hinfo Hfirst Hfree. unfold StorageDropbox.AvailableSpace.
  rewrite Hinfo.
  rewrite (wrap_int_small (StorageDropbox.Quota info - StorageDropbox.Shared info))
    by assumption.
  fold free. rewrite wrap_int_small by assumption.
  unfold int_half, uint_modulus in *. split; intros Hsign.
  - rewrite wrap_uint_small by (unfold uint_modulus; lia). reflexivity.
  - do 2 f_equal. unfold wrap_uint, uint_modulus.
    symmetry. apply (Z.mod_unique _ _ (-1)); lia.
Qed.

(** X17.  [InitRepository] creates the repository folder, the snapshot
    folder and the chunk folder, in this order, and stops at the first
    that cannot be created.  Whatever the error of the client was, it is
    reported as [ErrRepositoryExists]. *)
Theorem dropbox_InitRepository_masks_errors (w : World) :
  let create path : IO World (option error) :=
    fun w => let '(_, err, w') := StorageDropbox.CreateFolder path w in (err, w') in
  StorageDropbox.InitRepository backend w
  = match range_until_error
            [create (StorageDropbox.url_Path backend);
             create (StorageDropbox.snapshotPath backend);
             create (StorageDropbox.chunkPath backend)] w with
    | (Some _, w') => (Some ErrRepositoryExists, w')
    | (None, w') => (None, w')
    end.
Proof.
  unfold StorageDropbox.InitRepository. simpl.
  destruct (StorageDropbox.CreateFolder _ w) as [[r1 [e1|]] w1]; [reflexivity|].
  destruct (StorageDropbox.CreateFolder _ w1) as [[r2 [e2|]] w2]; [reflexivity|].
  destruct (StorageDropbox.CreateFolder _ w2) as [[r3 [e3|]] w3]; reflexivity.
Qed.

End DropboxRoundTrip.

Lemma memory_account_keeps_uploads data path w2 entry w3 :
  StorageDropbox.UploadByChunk data (Z.of_nat (length data)) path true
    EmptyString w2 = (entry, None, w3) ->
  holds w3 path data.
Proof.
  simpl. intros Hup. inversion Hup; subst.
  exists data. eexists. simpl. rewrite lookup_insert_eq. split; reflexivity.
Qed.

(** In the account in memory: a shard is stored and loaded back. *)
Lemma dropbox_store_then_load_witness :
  let backend := StorageDropbox.mkStorageDropbox "/repo" "/repo/chunks"
                   "/repo/snapshots" "/repo/repository.knox" in
  let data := [Byte.x68; Byte.x69] in
  let stored :=
    mkAccount {["/repo/chunks/ab/abcd.0_1" := data]} ["/repo/chunks/ab/abcd.0_1"] in
  (StorageDropbox.LoadChunk backend "abcd" 0 1 stored).1 = (Some data, None).
Proof.
  intros backend data stored.
  apply (dropbox_store_then_load backend "abcd" 0 1 data (mkAccount ∅ []) stored 2).
  - intros entry w3 Hup. eapply memory_account_keeps_uploads. exact Hup.
  - intros entry Hmeta. vm_compute in Hmeta. discriminate Hmeta.
  - vm_compute. reflexivity.
Defined.

(** In the account in memory: the repository metadata is saved and loaded
    back. *)
Lemma dropbox_save_then_load_witness :
  let backend := StorageDropbox.mkStorageDropbox "/repo" "/repo/chunks"
                   "/repo/snapshots" "/repo/repository.knox" in
  let data := [Byte.x68; Byte.x69] in
  let saved :=
    mkAccount {["/repo/repository.knox" := data]} ["/repo/repository.knox"] in
  (StorageDropbox.LoadRepository backend saved).1 = (data, None).
Proof.
  intros backend data saved.
  destruct (dropbox_save_then_load backend "id" data (mkAccount ∅ []) saved)
    as [_ Hrepo].
  - intros path w2 entry w3 Hup. eapply memory_account_keeps_uploads. exact Hup.
  - apply Hrepo. vm_compute. reflexivity.
Defined.

(** The account in memory holds 1010 bytes against a quota of 1000: the
    free space reported is [2^64 - 10]. *)
Lemma dropbox_AvailableSpace_witness :
  let backend := StorageDropbox.mkStorageDropbox "/repo" "/repo/chunks"
                   "/repo/snapshots" "/repo/repository.knox" in
  StorageDropbox.AvailableSpace backend (mkAccount ∅ [])
  = ((18446744073709551606, None), mkAccount ∅ []).
Proof.
  intros backend.
  destruct (dropbox_AvailableSpace backend
              (StorageDropbox.mkQuotaInfo 1000 10 1000) (mkAccount ∅ []) (mkAccount ∅ []))
    as [_ Hneg].
  - reflexivity.
  - vm_compute. split; [discriminate | reflexivity].
  - vm_compute. split; [discriminate | reflexivity].
  - apply Hneg. reflexivity.
Defined.

(** ** Restoring an archive to disk *)

Section RestoreToDisk.
Context {W : Type} `{!Codecs}.
Variables (oracle : Event -> option error) (dir : string -> string).
Variables (repository : Repository (W * list Event)) (arc : ItemData).
Variables (item : ItemMeta) (path : string) (plain : Chunk -> bytes).

Let report (acc : Z) : Progress :=
  mkProgress (Path arc) acc (StorageSize item)
    (mkStats 1 0 0 acc (StorageSize item)).

Lemma DecodeArchive_loop_prefix (done : list Chunk) :
  (forall (i : nat) c,
      done !! i = Some c -> chunk_of_num (Chunks arc) (Z.of_nat i) = Some c) ->
  restores repository plain done ->
  (forall c, c ∈ done -> oracle (Ev_Write path (plain c)) = None) ->
  Z.of_nat (length done) < uint_modulus ->
  forall (k m i : nat) acc w log,
    (i + k <= length done)%nat ->
    exists w' acc',
      DecodeArchive_loop (FileSystem0 := scripted_fs oracle dir) (k + m) (Z.of_nat i)
        repository arc path (report acc) (w, log)
      = DecodeArchive_loop (FileSystem0 := scripted_fs oracle dir) m (Z.of_nat (i + k))
          repository arc path (report acc')
          (w', log ++ writes_and_reports path (Path arc) (StorageSize item)
                        (map plain (take k (drop i done))) acc).
Proof.
  intros Hfind Hload Hwrite Hfits k.
  induction k as [|k IH]; intros m i acc w log Hk.
  - exists w, acc. simpl. rewrite Nat.add_0_r, app_nil_r. reflexivity.
  - destruct (done !! i) as [c|] eqn:Hc.
    2:{ apply lookup_ge_None in Hc. lia. }
    pose proof (Hfind i c Hc) as Hnum.
    destruct (indexOfChunk_found arc _ c Hnum) as (idx & Hidx & Hat).
    assert (Hin : c ∈ done) by (apply list_elem_of_lookup; eauto).
    destruct (Hload c w log Hin) as (w1 & Hrun).
    specialize (Hwrite c Hin).
    destruct (IH m (S i) (wrap_uint (acc + Z.of_nat (length (plain c)))) w1
                ((log ++ [Ev_Write path (plain c)])
                   ++ [Ev_Send (report (wrap_uint (acc + Z.of_nat (length (plain c)))))])
                ltac:(lia)) as (w' & acc' & Hrest).
    exists w', acc'.
    replace (i + S k)%nat with (S i + k)%nat by lia.
    rewrite (drop_S done c i Hc). cbn [take map writes_and_reports].
    rewrite <- !app_assoc in Hrest. cbn [app] in Hrest.
    fold (report (wrap_uint (acc + Z.of_nat (length (plain c))))).
    rewrite <- Hrest.
    change (S k + m)%nat with (S (k + m)).
    cbn [DecodeArchive_loop]. rewrite Hidx, Hat, Hrun.
    cbn [File_Write chan_send scripted_fs scripted fst snd].
    rewrite Hwrite.
    assert (Hprog : add_size (report acc) (plain c)
                    = report (wrap_uint (acc + Z.of_nat (length (plain c))))).
    { unfold add_size, report. cbn. now rewrite wrap_uint_add_r. }
    rewrite Hprog.
    assert (Hi : wrap_uint (Z.of_nat i + 1) = Z.of_nat (S i)).
    { rewrite wrap_uint_small; lia. }
    rewrite Hi, <- app_assoc. reflexivity.
Qed.

Lemma writes_and_reports_not_finishing f p storage datas : forall acc,
  Forall (fun ev => finishing ev = false) (writes_and_reports f p storage datas acc).
Proof.
  induction datas as [|d datas IH]; intros acc; simpl.
  - constructor.
  - constructor; [reflexivity|]. constructor; [reflexivity|]. apply IH.
Qed.

(** X18.  The restore of a file.  When the stored chunks are a permutation
    of chunks numbered [0 .. n-1] that load and decode, and the file can be
    opened, written and given its time, [DecodeArchive] makes exactly these
    calls, in this order: [MkdirAll] of the parent directory with mode
    0755, [OpenFile] with create and write-only and the mode of the
    archive, then for each chunk in [Num] order a [Write] of its plaintext
    and a progress record that carries the bytes written so far, then
    [Sync], [Close], [Chtimes] with the modification time twice, and
    [Lchown], whose error is the result.  The errors of [MkdirAll], [Sync]
    and [Close] are not looked at. *)
Theorem DecodeArchive_restores_file (cs : list Chunk) (w : W) (log : list Event) :
  Type_ arc = File ->
  Permutation (Chunks arc) cs ->
  numbered cs ->
  Z.of_nat (length cs) < uint_modulus ->
  restores repository plain cs ->
  oracle (Ev_OpenFile path 65 (Mode item)) = None ->
  (forall c, c ∈ cs -> oracle (Ev_Write path (plain c)) = None) ->
  oracle (Ev_Chtimes path (ModTime item) (ModTime item)) = None ->
  exists w',
    DecodeArchive (FileSystem0 := scripted_fs oracle dir) repository arc item path
      (w, log)
    = (Returned (oracle (Ev_Lchown path (UID item) (GID item))),
       (w', log
            ++ Ev_MkdirAll (dir path) 493
            :: Ev_OpenFile path 65 (Mode item)
            :: writes_and_reports path (Path arc) (StorageSize item)
                 (map plain cs) 0
            ++ [Ev_Sync path; Ev_Close path;
                Ev_Chtimes path (ModTime item) (ModTime item);
                Ev_Lchown path (UID item) (GID item)])).
Proof.
  intros Htype Hperm Hnum Hfits Hload Hopen Hwrite Htime.
  destruct (DecodeArchive_loop_prefix cs
              ltac:(intros i c Hc; rewrite (chunk_of_num_archive arc cs i Hperm Hnum);
                    exact Hc)
              Hload Hwrite Hfits (length cs) 0%nat 0%nat 0 w
              ((log ++ [Ev_MkdirAll (dir path) 493])
                 ++ [Ev_OpenFile path 65 (Mode item)])
              ltac:(lia)) as (w' & acc' & Hloop).
  exists w'. unfold DecodeArchive. rewrite Htype.
  cbn [os_MkdirAll os_OpenFile filepath_Dir os_O_CREATE os_O_WRONLY scripted_fs
       scripted fst snd].
  change (Z.lor 64 1) with 65. rewrite Hopen.
  rewrite (Permutation_length Hperm).
  rewrite Nat.add_0_r in Hloop. change (Z.of_nat 0) with 0 in Hloop.
  change (wrap_uint (0 + 1)) with 1.
  fold (report 0). rewrite Hloop. cbn [DecodeArchive_loop].
  cbn [File_Sync File_Close os_Chtimes os_Lchown scripted_fs scripted fst snd].
  rewrite Htime. rewrite drop_0, firstn_all.
  f_equal. f_equal. rewrite <- !app_assoc. reflexivity.
Qed.

(** X19.  A restore that fails in its loop leaves the file as it is.  When
    the chunks numbered [0 .. k-1] load, decode and are written, and the
    restore stops at the number [k < len(chunks)] (no chunk has this
    number, or the chunk does not load, or its plaintext cannot be
    written), [DecodeArchive] returns the error of that step.  The calls it
    has made are [MkdirAll], [OpenFile], the writes and the progress
    records of the chunks before [k], and the failed [Write] if there was
    one: the file is neither synced nor closed, and neither its
    modification time nor its owner is set. *)
Theorem DecodeArchive_stops_in_loop (done : list Chunk) (err : error)
    (last : list Event) (w : W) (log : list Event) :
  Type_ arc = File ->
  (forall (i : nat) c,
      done !! i = Some c -> chunk_of_num (Chunks arc) (Z.of_nat i) = Some c) ->
  (length done < length (Chunks arc))%nat ->
  Z.of_nat (length done) < uint_modulus ->
  restores repository plain done ->
  oracle (Ev_OpenFile path 65 (Mode item)) = None ->
  (forall c, c ∈ done -> oracle (Ev_Write path (plain c)) = None) ->
  stops_at oracle repository arc path (Z.of_nat (length done)) err last ->
  let calls :=
    Ev_MkdirAll (dir path) 493
    :: Ev_OpenFile path 65 (Mode item)
    :: writes_and_reports path (Path arc) (StorageSize item) (map plain done) 0
    ++ last in
  (exists w',
      DecodeArchive (FileSystem0 := scripted_fs oracle dir) repository arc item path
        (w, log)
      = (Returned (Some err), (w', log ++ calls)))
  /\ Forall (fun ev => finishing ev = false) calls.
Proof.
  intros Htype Hfind Hshort Hfits Hload Hopen Hwrite Hstop calls.
  split.
  - destruct (DecodeArchive_loop_prefix done Hfind Hload Hwrite Hfits
                (length done) (length (Chunks arc) - length done) 0%nat 0 w
                ((log ++ [Ev_MkdirAll (dir path) 493])
                   ++ [Ev_OpenFile path 65 (Mode item)])
                ltac:(lia)) as (w1 & acc' & Hloop).
    replace (length done + (length (Chunks arc) - length done))%nat
      with (length (Chunks arc)) in Hloop by lia.
    rewrite drop_0, firstn_all in Hloop.
    change (Z.of_nat 0) with 0 in Hloop. rewrite Nat.add_0_l in Hloop.
    assert (Hleft : exists m, (length (Chunks arc) - length done)%nat = S m).
    { exists (length (Chunks arc) - length done - 1)%nat. lia. }
    destruct Hleft as [m Hm]. rewrite Hm in Hloop.
    assert (Hlast : exists w',
               DecodeArchive_loop (FileSystem0 := scripted_fs oracle dir) (S m)
                 (Z.of_nat (length done)) repository arc path (report acc')
                 (w1, ((log ++ [Ev_MkdirAll (dir path) 493])
                         ++ [Ev_OpenFile path 65 (Mode item)])
                        ++ writes_and_reports path (Path arc) (StorageSize item)
                             (map plain done) 0)
               = (Returned (Some err), (w', log ++ calls))).
    { cbn [DecodeArchive_loop].
      destruct Hstop as [Hnone | c e Hsome Hfail | c d e Hsome Hok Hfail].
      - rewrite (indexOfChunk_missing arc _ Hnone). exists w1.
        unfold calls. rewrite app_nil_r, <- !app_assoc. reflexivity.
      - destruct (indexOfChunk_found arc _ c Hsome) as (idx & -> & ->).
        destruct (Hfail w1 (((log ++ [Ev_MkdirAll (dir path) 493])
                               ++ [Ev_OpenFile path 65 (Mode item)])
                              ++ writes_and_reports path (Path arc) (StorageSize item)
                                   (map plain done) 0)) as (w' & ->).
        exists w'. unfold calls. rewrite app_nil_r, <- !app_assoc. reflexivity.
      - destruct (indexOfChunk_found arc _ c Hsome) as (idx & -> & ->).
        destruct (Hok w1 (((log ++ [Ev_MkdirAll (dir path) 493])
                             ++ [Ev_OpenFile path 65 (Mode item)])
                            ++ writes_and_reports path (Path arc) (StorageSize item)
                                 (map plain done) 0)) as (w' & ->).
        cbn [File_Write scripted_fs scripted fst snd]. rewrite Hfail.
        exists w'. unfold calls. rewrite <- !app_assoc. reflexivity. }
    destruct Hlast as (w' & Hlast).
    exists w'. unfold DecodeArchive. rewrite Htype.
    cbn [os_MkdirAll os_OpenFile filepath_Dir os_O_CREATE os_O_WRONLY scripted_fs
         scripted fst snd].
    change (Z.lor 64 1) with 65. rewrite Hopen.
    change (wrap_uint (0 + 1)) with 1.
    fold (report 0). rewrite Hloop, Hlast. reflexivity.
  - unfold calls. constructor; [reflexivity|]. constructor; [reflexivity|].
    apply Forall_app. split; [apply writes_and_reports_not_finishing|].
    destruct Hstop; repeat constructor.
Qed.

End RestoreToDisk.

Lemma hey_restores : restores hey_restore_repository hey_plain [chunk_he; chunk_y].
Proof.
  intros c w log Hin. exists w. destruct w.
  apply elem_of_cons in Hin. destruct Hin as [->|Hin]; [reflexivity|].
  apply elem_of_cons in Hin. destruct Hin as [->|Hin]; [reflexivity|].
  inversion Hin.
Qed.

(** The file "hey!" restored to "/tmp/hey": two writes of two bytes each,
    reported as 2 and 4 bytes. *)
Lemma DecodeArchive_restores_file_witness :
  exists w',
    DecodeArchive (FileSystem0 := scripted_fs (fun _ => None) (fun _ => "/tmp"))
      hey_restore_repository hey_archive hey_item "/tmp/hey" ((), [])
    = (Returned None,
       (w', [Ev_MkdirAll "/tmp" 493;
             Ev_OpenFile "/tmp/hey" 65 420;
             Ev_Write "/tmp/hey" [Byte.x68; Byte.x65];
             Ev_Send (mkProgress "hey" 2 4 (mkStats 1 0 0 2 4));
             Ev_Write "/tmp/hey" [Byte.x79; Byte.x21];
             Ev_Send (mkProgress "hey" 4 4 (mkStats 1 0 0 4 4));
             Ev_Sync "/tmp/hey"; Ev_Close "/tmp/hey";
             Ev_Chtimes "/tmp/hey" 1000 1000;
             Ev_Lchown "/tmp/hey" 501 20])).
Proof.
  apply (DecodeArchive_restores_file (fun _ => None) (fun _ => "/tmp")
           hey_restore_repository hey_archive hey_item "/tmp/hey" hey_plain
           [chunk_he; chunk_y] () []).
  - reflexivity.
  - apply perm_swap.
  - exact hey_numbered.
  - reflexivity.
  - exact hey_restores.
  - reflexivity.
  - reflexivity.
  - reflexivity.
Defined.

(** The archive "torn" has no chunk number 1: the restore writes the chunk
    number 0 and returns [ChunkError 1]; the file stays open. *)
Lemma DecodeArchive_stops_in_loop_witness :
  (exists w',
      DecodeArchive (FileSystem0 := scripted_fs (fun _ => None) (fun _ => "/tmp"))
        hey_restore_repository torn_archive hey_item "/tmp/torn" ((), [])
      = (Returned (Some (ChunkError 1)),
         (w', [Ev_MkdirAll "/tmp" 493;
               Ev_OpenFile "/tmp/torn" 65 420;
               Ev_Write "/tmp/torn" [Byte.x68; Byte.x65];
               Ev_Send (mkProgress "torn" 2 4 (mkStats 1 0 0 2 4))])))
  /\ Forall (fun ev => finishing ev = false)
       [Ev_MkdirAll "/tmp" 493;
        Ev_OpenFile "/tmp/torn" 65 420;
        Ev_Write "/tmp/torn" [Byte.x68; Byte.x65];
        Ev_Send (mkProgress "torn" 2 4 (mkStats 1 0 0 2 4))].
Proof.
  apply (DecodeArchive_stops_in_loop (fun _ => None) (fun _ => "/tmp")
           hey_restore_repository torn_archive hey_item "/tmp/torn" hey_plain
           [chunk_he] (ChunkError 1) [] () []).
  - reflexivity.
  - intros i c Hc. destruct i as [|i]; simpl in Hc; inversion Hc. reflexivity.
  - simpl. lia.
  - reflexivity.
  - intros c w log Hin. apply hey_restores.
    apply elem_of_cons in Hin. destruct Hin as [->|Hin]; [|inversion Hin].
    apply elem_of_cons. now left.
  - reflexivity.
  - reflexivity.
  - apply (stops_missing (W := unit)). reflexivity.
Defined.

(** ** Termination of the random-access read *)

Section ReadArchiveFuel.
Context {World : Type} `{!Codecs}.
Variables (repository : Repository World) (arc : ItemData).

Lemma ReadArchive_loop_more_fuel size fuel :
  forall fuel' neededPart internalOffset dat st out,
    (fuel <= fuel')%nat ->
    ReadArchive_loop fuel repository arc size neededPart internalOffset dat st
    = Some out ->
    ReadArchive_loop fuel' repository arc size neededPart internalOffset dat st
    = Some out.
Proof.
  induction fuel as [|fuel IH]; intros fuel' k o dat st out Hle Hrun.
  - simpl in Hrun. destruct fuel'; simpl;
      destruct (Z.of_nat (length dat) <? size); try discriminate; exact Hrun.
  - destruct fuel' as [|fuel']; [lia|]. simpl in *.
    destruct (Z.of_nat (length dat) <? size); [|exact Hrun].
    destruct (readArchiveChunk repository arc k st) as [[[b err] st1]|e|];
      try exact Hrun.
    destruct (bool_decide (err <> None) || (Z.of_nat (length b) =? 0));
      [exact Hrun|].
    destruct (slice_from b o) as [d|]; [|exact Hrun].
    destruct (bool_decide (err <> None) || (Z.of_nat (length d) =? 0));
      [exact Hrun|].
    destruct (if size <? Z.of_nat (length d) + Z.of_nat (length dat)
              then slice_to d (size - Z.of_nat (length dat)) else Some d)
      as [piece|]; [|exact Hrun].
    apply (IH fuel'); [lia | exact Hrun].
Qed.

(** X20.  The loop of [ReadArchive] ends: each iteration either leaves the
    function, by a return or a panic, or appends at least one byte, so that
    [size - len(dat)] iterations are enough to reach an outcome, and more
    iterations do not change it. *)
Theorem ReadArchive_loop_terminates (size : Z) (fuel : nat)
    (neededPart internalOffset : Z) (dat : bytes) (st : State World) :
  size - Z.of_nat (length dat) <= Z.of_nat fuel ->
  exists out,
    ReadArchive_loop fuel repository arc size neededPart internalOffset dat st
    = Some out
    /\ forall fuel', (fuel <= fuel')%nat ->
         ReadArchive_loop fuel' repository arc size neededPart internalOffset dat st
         = Some out.
Proof.
  intros Hfuel.
  destruct (ReadArchive_loop fuel repository arc size neededPart internalOffset
              dat st) as [out|] eqn:Hrun.
  - exists out. split; [reflexivity|]. intros fuel' Hle.
    now apply (ReadArchive_loop_more_fuel size fuel).
  - exfalso. now apply (ReadArchive_loop_total repository arc size fuel
                          neededPart internalOffset dat st).
Qed.

End ReadArchiveFuel.

(** Three bytes of the file "hey!" are read in at most three iterations. *)
Lemma ReadArchive_loop_terminates_witness :
  exists out,
    ReadArchive_loop 3 hey_repository hey_archive 3 0 0 [] (mkState ∅ false ())
    = Some out
    /\ forall fuel', (3 <= fuel')%nat ->
         ReadArchive_loop fuel' hey_repository hey_archive 3 0 0 []
           (mkState ∅ false ())
         = Some out.
Proof.
  apply (ReadArchive_loop_terminates hey_repository hey_archive 3 3 0 0 []
           (mkState ∅ false ())).
  simpl. lia.
Defined.
